(** * Transducer loss (speechbrain/nnet/transducer/transducer_loss.py)

    A shallow embedding of the three Numba CUDA kernels
    [cu_kernel_forward], [cu_kernel_backward], [cu_kernel_compute_grad]
    and of the autograd function [Transducer] that drives them.

    Conventions.
    - float32 values are read as real numbers ([R]); [math.exp],
      [math.log1p], [max] and [abs] are [exp], [ln (1 + _)], [Rmax], [Rabs].
    - int32 indices and counters are [Z]; under the shape bounds none of
      them leaves the int32 range.
    - A kernel launch [k[B, n]] starts [B] blocks of [n] threads. A block
      only touches the slice [b] of every array, so one block is modelled
      at a time; its threads are interleaved by an explicit schedule (a list
      of thread ids), one loop iteration of one thread per step.
    - Device code has no bounds checks and does not trap. Numba counts a
      negative index from the end of the axis, so [cuda.atomic.add] at
      index [-1] of a counter row updates its last counter. An index past
      the end is outside the row: [atomic_add] returns [None] there, and
      the thread records the index in the [oob] log of the block and goes
      on, the counter row unchanged. *)

From Stdlib Require Import String ZArith List Bool Lia Reals Lra.
Import ListNotations.
Open Scope Z_scope.

(** ** Numeric primitives *)

Definition log1p (x : R) : R := ln (1 + x).

(** [max(a, b) + math.log1p(math.exp(-abs(a - b)))] *)
Definition logaddexp (a b : R) : R :=
  (Rmax a b + log1p (exp (- Rabs (a - b))))%R.

(** ** Arrays *)

(** A [(maxT, maxU)] slice of [alpha] or [beta]. *)
Abbreviation table := (Z -> Z -> R).

Definition zeros2 : table := fun _ _ => 0%R.

Definition tset (a : table) (t u : Z) (v : R) : table :=
  fun t' u' => if (t' =? t) && (u' =? u) then v else a t' u'.

(** A [(maxT, maxU, A)] slice of [log_probs] or [grads]. *)
Abbreviation lattice := (Z -> Z -> Z -> R).

Definition zeros3 : lattice := fun _ _ _ => 0%R.

Definition lset (g : lattice) (t u k : Z) (v : R) : lattice :=
  fun t' u' k' => if (t' =? t) && (u' =? u) && (k' =? k) then v else g t' u' k'.

(** Row [b] of [labels]; a read outside the row gives the padding value. *)
Definition label_at (row : list Z) (i : Z) : Z :=
  if i <? 0 then 0 else nth (Z.to_nat i) row 0.

Fixpoint set_nth (n : nat) (v : Z) (l : list Z) : list Z :=
  match l, n with
  | [], _ => []
  | _ :: l', O => v :: l'
  | x :: l', S n' => x :: set_nth n' v l'
  end.

Definition in_row (row : list Z) (i : Z) : bool :=
  (0 <=? i) && (i <? Z.of_nat (length row)).

Definition row_at (row : list Z) (i : Z) : Z := nth (Z.to_nat i) row 0.

(** The position an index names in a row: a negative index is counted
    from the end, once. *)
Definition wraparound (row : list Z) (i : Z) : Z :=
  if i <? 0 then i + Z.of_nat (length row) else i.

(** [cuda.atomic.add(lock, (b, i), d)]: the old value and the new row. *)
Definition atomic_add (row : list Z) (i d : Z) : option (Z * list Z) :=
  let j := wraparound row i in
  if in_row row j
  then Some (row_at row j, set_nth (Z.to_nat j) (row_at row j + d) row)
  else None.

(** ** State of one block of a sweep *)

Record sweep_state := mk_sweep {
  tab : table;            (* alpha[b] or beta[b] *)
  lock : list Z;          (* lock[b] *)
  loc_t : Z -> Z;         (* the local variable t of thread u *)
  returned : Z -> bool;   (* thread u has left the kernel *)
  log_p : R;              (* log_p[b] *)
  oob : list Z            (* counter indices used outside the row *)
}.

Definition fupd {A : Type} (f : Z -> A) (i : Z) (v : A) : Z -> A :=
  fun j => if j =? i then v else f j.

Definition set_tab (a : table) (s : sweep_state) : sweep_state :=
  mk_sweep a (lock s) (loc_t s) (returned s) (log_p s) (oob s).

Definition set_lock (row : list Z) (s : sweep_state) : sweep_state :=
  mk_sweep (tab s) row (loc_t s) (returned s) (log_p s) (oob s).

Definition set_t (u t : Z) (s : sweep_state) : sweep_state :=
  mk_sweep (tab s) (lock s) (fupd (loc_t s) u t) (returned s) (log_p s) (oob s).

Definition set_ret (u : Z) (s : sweep_state) : sweep_state :=
  mk_sweep (tab s) (lock s) (loc_t s) (fupd (returned s) u true) (log_p s) (oob s).

Definition set_log_p (v : R) (s : sweep_state) : sweep_state :=
  mk_sweep (tab s) (lock s) (loc_t s) (returned s) v (oob s).

Definition log_oob (i : Z) (s : sweep_state) : sweep_state :=
  mk_sweep (tab s) (lock s) (loc_t s) (returned s) (log_p s) (i :: oob s).

(** A doorbell update whose result is not used. *)
Definition signal (i d : Z) (s : sweep_state) : sweep_state :=
  match atomic_add (lock s) i d with
  | Some (_, row) => set_lock row s
  | None => log_oob i s
  end.

(** [torch.zeros] buffers, every thread at its first statement. *)
Definition sweep_init (maxU t0 : Z) : sweep_state :=
  mk_sweep zeros2 (repeat 0 (Z.to_nat maxU)) (fun _ => t0) (fun _ => false) 0%R [].

(** One scheduled step; ids outside the launch configuration are no thread. *)
Definition sweep_run (step : Z -> sweep_state -> sweep_state) (maxU : Z)
    (sched : list Z) (s : sweep_state) : sweep_state :=
  fold_left (fun s u => if (0 <=? u) && (u <? maxU) then step u s else s) sched s.

Fixpoint zrange (n : nat) : list Z :=
  match n with
  | O => []
  | S n' => zrange n' ++ [Z.of_nat n']
  end.

(** The kernel is over when every thread of the block has returned. *)
Definition sweep_done (maxU : Z) (s : sweep_state) : bool :=
  forallb (returned s) (zrange (Z.to_nat maxU)).

(** The schedule that lets thread 0, then thread 1, ... run alone, [n]
    steps each. *)
Definition solo_schedule (maxU : Z) (n : nat) : list Z :=
  flat_map (fun u => repeat u n) (zrange (Z.to_nat maxU)).

(** The same with the threads in decreasing order. *)
Definition solo_schedule_down (maxU : Z) (n : nat) : list Z :=
  flat_map (fun u => repeat u n) (rev (zrange (Z.to_nat maxU))).

Section Block.

(** The inputs of block [b]: [log_probs[b]], [labels[b]], [T[b]], [U[b]]
    and the blank index. *)
Variable lp : lattice.
Variable labels : list Z.
Variables T U blank : Z.

(** *** cu_kernel_forward, one step of thread [u] *)
Definition cu_kernel_forward (u : Z) (s : sweep_state) : sweep_state :=
  if returned s u then s else
  let t := loc_t s u in
  if u <=? U then
    if t <? T then
      if u =? 0 then
        let s1 :=
          if t =? 0 then set_tab (tset (tab s) 0 0 0%R) s
          else set_tab (tset (tab s) t 0
                 (tab s (t - 1) 0 + lp (t - 1) 0 blank)%R) s in
        let s2 := signal (u + 1) (-1) s1 in
        set_t u (t + 1) s2
      else
        match atomic_add (lock s) u 0 with
        | Some (old, row) =>
            let s0 := set_lock row s in
            if old <? 0 then
              let s1 :=
                if t =? 0 then
                  set_tab (tset (tab s0) 0 u
                    (tab s0 0 (u - 1)
                     + lp 0 (u - 1) (label_at labels (u - 1)))%R) s0
                else
                  let emit := (tab s0 t (u - 1)
                               + lp t (u - 1) (label_at labels (u - 1)))%R in
                  let no_emit := (tab s0 (t - 1) u + lp (t - 1) u blank)%R in
                  set_tab (tset (tab s0) t u
                    (Rmax no_emit emit
                     + log1p (exp (- Rabs (no_emit - emit))))%R) s0 in
              let s2 := if u <? U then signal (u + 1) (-1) s1 else s1 in
              let s3 := signal u 1 s2 in
              set_t u (t + 1) s3
            else s0
        | None => log_oob u s
        end
    else
      let s1 :=
        if u =? 0
        then set_log_p (tab s (T - 1) U + lp (T - 1) U blank)%R s
        else s in
      set_ret u s1
  else set_ret u s.

(** *** cu_kernel_backward, one step of thread [u] *)
Definition cu_kernel_backward (u : Z) (s : sweep_state) : sweep_state :=
  if returned s u then s else
  let t := loc_t s u in
  if (u <=? U) && (0 <=? t) then
    if u =? U then
      let s1 :=
        if t =? T - 1 then set_tab (tset (tab s) t u (lp t u blank)) s
        else set_tab (tset (tab s) t u
               (tab s (t + 1) u + lp t u blank)%R) s in
      let s2 := signal (u - 1) (-1) s1 in
      set_t u (t - 1) s2
    else
      match atomic_add (lock s) u 0 with
      | Some (old, row) =>
          let s0 := set_lock row s in
          if old <? 0 then
            let s1 :=
              if t =? T - 1 then
                set_tab (tset (tab s0) t u
                  (tab s0 t (u + 1) + lp t u (label_at labels u))%R) s0
              else
                let emit := (tab s0 t (u + 1)
                             + lp t u (label_at labels u))%R in
                let no_emit := (tab s0 (t + 1) u + lp t u blank)%R in
                set_tab (tset (tab s0) t u
                  (Rmax no_emit emit
                   + log1p (exp (- Rabs (no_emit - emit))))%R) s0 in
            let s2 := if 0 <? u then signal (u - 1) (-1) s1 else s1 in
            let s3 := signal u 1 s2 in
            set_t u (t - 1) s3
          else s0
      | None => log_oob u s
      end
  else
    let s1 := if u =? 0 then set_log_p (tab s 0 0) s else s in
    set_ret u s1.

(** *** The recurrences, as equations on a table *)

(** What the forward sweep stores in cell [(t, u)], read off a table. *)
Definition alpha_rhs (a : table) (t u : Z) : R :=
  if u =? 0 then
    if t =? 0 then 0%R else Rplus (a (t - 1) 0) (lp (t - 1) 0 blank)
  else if t =? 0 then
    Rplus (a 0 (u - 1)) (lp 0 (u - 1) (label_at labels (u - 1)))
  else
    logaddexp (Rplus (a (t - 1) u) (lp (t - 1) u blank))
              (Rplus (a t (u - 1)) (lp t (u - 1) (label_at labels (u - 1)))).

Definition alpha_cell_ok (a : table) (t u : Z) : Prop :=
  a t u = alpha_rhs a t u.

(** What the backward sweep stores in cell [(t, u)]. *)
Definition beta_rhs (a : table) (t u : Z) : R :=
  if u =? U then
    if t =? T - 1 then lp t u blank else Rplus (a (t + 1) u) (lp t u blank)
  else if t =? T - 1 then
    Rplus (a t (u + 1)) (lp t u (label_at labels u))
  else
    logaddexp (Rplus (a (t + 1) u) (lp t u blank))
              (Rplus (a t (u + 1)) (lp t u (label_at labels u))).

Definition beta_cell_ok (a : table) (t u : Z) : Prop :=
  a t u = beta_rhs a t u.

(** *** Invariants of the two sweeps *)

(** Forward: thread [u] has finished rows [0 .. loc_t u - 1] of column
    [u]; it never overtakes thread [u-1]; counter [u] is the (negated)
    number of rows published by [u-1] and not yet consumed by [u]. *)
Record fwd_inv (maxU : Z) (s : sweep_state) : Prop := {
  fi_len : Z.of_nat (length (lock s)) = maxU;
  fi_t : forall u, 0 <= u <= U -> 0 <= loc_t s u <= T;
  fi_lock : forall u, 1 <= u <= U ->
    row_at (lock s) u = loc_t s u - loc_t s (u - 1);
  fi_ord : forall u, 1 <= u <= U -> loc_t s u <= loc_t s (u - 1);
  fi_cells : forall t u, 0 <= u <= U -> 0 <= t < loc_t s u ->
    alpha_cell_ok (tab s) t u;
  fi_ret : forall u, 0 <= u <= U -> returned s u = true -> loc_t s u = T
}.

(** Backward: thread [u] has finished rows [loc_t u + 1 .. T-1] of
    column [u] and never overtakes thread [u+1]. *)
Record bwd_inv (maxU : Z) (s : sweep_state) : Prop := {
  bi_len : Z.of_nat (length (lock s)) = maxU;
  bi_t : forall u, 0 <= u <= U -> -1 <= loc_t s u <= T - 1;
  bi_lock : forall u, 0 <= u < U ->
    row_at (lock s) u = loc_t s (u + 1) - loc_t s u;
  bi_ord : forall u, 0 <= u < U -> loc_t s (u + 1) <= loc_t s u;
  bi_cells : forall t u, 0 <= u <= U -> loc_t s u < t <= T - 1 ->
    beta_cell_ok (tab s) t u;
  bi_ret : forall u, 0 <= u <= U -> returned s u = true -> loc_t s u = -1
}.


(** *** cu_kernel_compute_grad, the whole body of thread [t]

    A thread of this kernel reads [alpha], [beta], [log_probs] and the
    cells of [grads] it has written itself, and no two threads write the
    same cell; the body of a thread is one step. *)
Definition enumerate (l : list Z) : list (Z * Z) :=
  combine (zrange (length l)) l.

Definition cu_kernel_compute_grad (alpha beta : table) (t : Z)
    (grads : lattice) : lattice :=
  if t <? T then
    let g1 :=
      if t =? 0 then
        lset grads (T - 1) U blank
          (- exp (alpha (T - 1)%Z U + lp (T - 1) U blank - beta 0%Z 0%Z))%R
      else grads in
    let g2 :=
      if t <? T - 1 then
        fold_left
          (fun g u =>
             let g' := lset g t u blank (alpha t u + beta (t + 1)%Z u)%R in
             lset g' t u blank
               (- exp (g' t u blank + lp t u blank - beta 0%Z 0%Z))%R)
          (zrange (Z.to_nat (U + 1))) g1
      else g1 in
    fold_left
      (fun g ul =>
         let u := fst ul in
         let l := snd ul in
         if u <? U then
           let g' := lset g t u l (alpha t u + beta t (u + 1)%Z)%R in
           lset g' t u l (- exp (g' t u l + lp t u l - beta 0%Z 0%Z))%R
         else g)
      (enumerate labels) g2
  else grads.

(** The threads of the block in the order [sched]. *)
Definition grad_run (alpha beta : table) (maxT : Z) (sched : list Z)
    (grads : lattice) : lattice :=
  fold_left
    (fun g t =>
       if (0 <=? t) && (t <? maxT)
       then cu_kernel_compute_grad alpha beta t g else g)
    sched grads.


(** *** The gradient lattice, cell by cell

    The cells the gradient sweep writes, and the value of each. Within a
    thread the emit loop runs last, so an emit cell keeps the emit value. *)
Definition emit_cell (t u k : Z) : bool :=
  (0 <=? t) && (t <? T) && (0 <=? u) && (u <? U)
  && (u <? Z.of_nat (length labels)) && (k =? label_at labels u).

Definition blank_cell (t u k : Z) : bool :=
  (0 <=? t) && (t <? T - 1) && (0 <=? u) && (u <=? U) && (k =? blank).

Definition term_cell (t u k : Z) : bool :=
  (0 <? T) && (t =? T - 1) && (u =? U) && (k =? blank).

Definition emit_grad (alpha beta : table) (t u k : Z) : R :=
  (- exp (alpha t u + beta t (u + 1)%Z + lp t u k - beta 0%Z 0%Z))%R.

Definition blank_grad (alpha beta : table) (t u : Z) : R :=
  (- exp (alpha t u + beta (t + 1)%Z u + lp t u blank - beta 0%Z 0%Z))%R.

Definition term_grad (alpha beta : table) : R :=
  (- exp (alpha (T - 1)%Z U + lp (T - 1) U blank - beta 0%Z 0%Z))%R.

Definition grad_spec (alpha beta : table) (t u k : Z) : R :=
  if emit_cell t u k then emit_grad alpha beta t u k
  else if blank_cell t u k then blank_grad alpha beta t u
  else if term_cell t u k then term_grad alpha beta
  else 0%R.

(** The cells thread [t] writes. *)
Definition writes (t t' u' k' : Z) : bool :=
  (t <? T)
  && ((t' =? t) && (emit_cell t' u' k' || blank_cell t' u' k')
      || (t =? 0) && term_cell t' u' k').


(** *** Alignments and their probability mass *)

(** Probability of the blank and of the emit transition out of [(t, u)]. *)
Definition pblank (t u : Z) : R := exp (lp t u blank).
Definition pemit (t u : Z) : R := exp (lp t u (label_at labels u)).

(** Mass of all monotonic paths from [(t0, u0)] to [(t0 + dt, u0 + du)],
    by the last transition of the path. *)
Fixpoint path_sum (t0 u0 : Z) (dt du : nat) : R :=
  match dt with
  | O =>
      (fix row (du : nat) : R :=
         match du with
         | O => 1%R
         | S du' => (row du' * pemit t0 (u0 + Z.of_nat du'))%R
         end) du
  | S dt' =>
      (fix col (du : nat) : R :=
         match du with
         | O => (path_sum t0 u0 dt' O * pblank (t0 + Z.of_nat dt') u0)%R
         | S du' =>
             (path_sum t0 u0 dt' (S du')
              * pblank (t0 + Z.of_nat dt') (u0 + Z.of_nat (S du'))
              + col du'
                * pemit (t0 + Z.of_nat (S dt')) (u0 + Z.of_nat du'))%R
         end) du
  end.

(** The same mass by the first transition of the path. *)
Definition first_step (t0 u0 : Z) (dt du : nat) : R :=
  ((match dt with
    | O => 0
    | S dt' => pblank t0 u0 * path_sum (t0 + 1) u0 dt' du
    end)
   + (match du with
      | O => 0
      | S du' => pemit t0 u0 * path_sum t0 (u0 + 1) dt du'
      end))%R.

Inductive move := Blank | Emit.

(** Every order of [nb] blank and [ne] emit transitions. *)
Fixpoint interleavings (nb ne : nat) : list (list move) :=
  match nb with
  | O => [repeat Emit ne]
  | S nb' =>
      (fix inner (ne : nat) : list (list move) :=
         map (cons Blank) (interleavings nb' ne)
         ++ match ne with
            | O => []
            | S ne' => map (cons Emit) (inner ne')
            end) ne
  end.

(** Log-probability of the path that starts in [(t, u)]. *)
Fixpoint path_score (t u : Z) (p : list move) : R :=
  match p with
  | [] => 0%R
  | Blank :: p' => (lp t u blank + path_score (t + 1) u p')%R
  | Emit :: p' => (lp t u (label_at labels u) + path_score t (u + 1) p')%R
  end.

(** The alignments of the block: [T - 1] blanks and [U] emits in any
    order, from [(0, 0)] to [(T - 1, U)], then the closing blank. *)
Definition alignments : list (list move) :=
  map (fun p => p ++ [Blank])
      (interleavings (Z.to_nat (T - 1)) (Z.to_nat U)).

(** Total probability of a list of paths given by their log-scores. *)
Definition mass (l : list R) : R := fold_right Rplus 0%R (map exp l).

Definition logsumexp (l : list R) : R := ln (mass l).

(** The brute-force log-likelihood of the block. *)
Definition brute_force_loglik : R :=
  logsumexp (map (path_score 0 0) alignments).

End Block.


(** ** The autograd function [Transducer] *)

(** The slices of the input tensors that belong to batch element [b]. *)
Record item := mk_item {
  it_lp : lattice;        (* log_probs[b] *)
  it_labels : list Z;     (* labels[b] *)
  it_T : Z;               (* T[b] *)
  it_U : Z                (* U[b] *)
}.

(** [B, maxT, maxU, A = log_probs.shape]; [B] is the length of the batch. *)
Record dims := mk_dims { maxT : Z; maxU : Z; A : Z }.

(** The order in which the device runs the threads of block [b] in each of
    the three kernels. *)
Record schedule := mk_schedule {
  sch_forward : list Z;
  sch_backward : list Z;
  sch_grad : list Z
}.

Inductive kernel := KForward | KBackward | KComputeGrad.

Inductive value := Scalar (r : R) | Vector (v : list R).

Inductive outcome := Return (v : value) | Raise (msg : string).

Definition forward_sweep (d : dims) (blank : Z) (it : item)
    (sched : list Z) : sweep_state :=
  sweep_run
    (cu_kernel_forward (it_lp it) (it_labels it) (it_T it) (it_U it) blank)
    (maxU d) sched (sweep_init (maxU d) 0).

Definition backward_sweep (d : dims) (blank : Z) (it : item)
    (sched : list Z) : sweep_state :=
  sweep_run
    (cu_kernel_backward (it_lp it) (it_labels it) (it_T it) (it_U it) blank)
    (maxU d) sched (sweep_init (maxU d) (it_T it - 1)).

Definition grad_sweep (d : dims) (blank : Z) (it : item)
    (alpha beta : table) (sched : list Z) : lattice :=
  grad_run (it_lp it) (it_labels it) (it_T it) (it_U it) blank alpha beta
    (maxT d) sched zeros3.

(** Every thread [0 .. n-1] of the block runs its body exactly once. *)
Definition runs_once (n : Z) (sched : list Z) : bool :=
  forallb (fun t => Nat.eqb (count_occ Z.eq_dec sched t) 1)
          (zrange (Z.to_nat n))
  && forallb (fun t => (0 <=? t) && (t <? n)) sched.

(** Block [b] through the three kernels: [log_p_alpha[b]], [log_p_beta[b]]
    and [grads[b]]; [None] when the schedule leaves a thread unfinished. *)
Definition block_run (d : dims) (blank : Z) (it : item) (sc : schedule)
    : option (R * R * lattice) :=
  let fa := forward_sweep d blank it (sch_forward sc) in
  let fb := backward_sweep d blank it (sch_backward sc) in
  if sweep_done (maxU d) fa && sweep_done (maxU d) fb
     && runs_once (maxT d) (sch_grad sc)
  then Some (log_p fa, log_p fb,
             grad_sweep d blank it (tab fa) (tab fb) (sch_grad sc))
  else None.

Fixpoint all_some {X : Type} (l : list (option X)) : option (list X) :=
  match l with
  | [] => Some []
  | None :: _ => None
  | Some x :: l' =>
      match all_some l' with
      | Some xs => Some (x :: xs)
      | None => None
      end
  end.

(** [-(log_p_alpha + log_p_beta) / 2] *)
Definition nll (log_p_alpha log_p_beta : list R) : list R :=
  map (fun ab => (- (fst ab + snd ab) / 2)%R) (combine log_p_alpha log_p_beta).

(** The builtin [sum] of Python: [0 + v[0] + v[1] + ...]. *)
Definition py_sum (v : list R) : R := fold_left Rplus v 0%R.

(** [Tensor.mean()]: the sum of the entries over their number. *)
Definition tensor_mean (v : list R) : R :=
  (fold_left Rplus v 0 / INR (length v))%R.

Definition reduce (reduction : string) (v : list R) : outcome :=
  if String.eqb reduction "mean" then Return (Scalar (tensor_mean v))
  else if String.eqb reduction "sum" then Return (Scalar (py_sum v))
  else if String.eqb reduction "none" then Return (Vector v)
  else Raise ("Unexpected reduction " ++ reduction).

Record forward_result := mk_result {
  launched : list (kernel * (Z * Z));  (* kernel[grid, block] in launch order *)
  saved_grads : list lattice;          (* ctx.grads *)
  output : outcome
}.

(** [Transducer.forward(ctx, log_probs, labels, T, U, blank, reduction)]. *)
Definition Transducer_forward (d : dims) (scheds : list schedule)
    (batch : list item) (blank : Z) (reduction : string)
    : option forward_result :=
  let B := Z.of_nat (length batch) in
  if Nat.eqb (length scheds) (length batch) then
    match all_some (map (fun bs => block_run d blank (fst bs) (snd bs))
                        (combine batch scheds)) with
    | Some rs =>
        let log_p_alpha := map (fun r => fst (fst r)) rs in
        let log_p_beta := map (fun r => snd (fst r)) rs in
        let grads := map snd rs in
        Some (mk_result
                [(KForward, (B, maxU d)); (KBackward, (B, maxU d));
                 (KComputeGrad, (B, maxT d))]
                grads
                (reduce reduction (nll log_p_alpha log_p_beta)))
    | None => None
    end
  else None.

(** The three kernels on the whole batch, block by block. *)
Definition batch_run (d : dims) (scheds : list schedule) (batch : list item)
    (blank : Z) : option (list (R * R * lattice)) :=
  if Nat.eqb (length scheds) (length batch) then
    all_some (map (fun bs => block_run d blank (fst bs) (snd bs))
                  (combine batch scheds))
  else None.

(** *** Objects and [Transducer.backward] *)

(** A tensor of the shape of [log_probs]; the heap of tensor objects;
    an object is named by its position in the heap. *)
Abbreviation tensor := (list lattice).
Abbreviation heap := (list tensor).

Record context := mk_context { ctx_grads : nat }.

(** [ctx.grads = grads]: the context holds the object, not a copy. *)
Definition save_grads (h : heap) (grads : tensor) : heap * context :=
  (h ++ [grads], mk_context (length h)).

(** [grad_output.view(-1, 1, 1, 1)] against a tensor of [B] slices: entry
    [b], or the single entry when there is just one. *)
Definition broadcast (grad_output : list R) (b : nat) : R :=
  match grad_output with
  | [g] => g
  | _ => nth b grad_output 0%R
  end.

Fixpoint mul_from (b : nat) (t : tensor) (grad_output : list R) : tensor :=
  match t with
  | [] => []
  | g :: t' =>
      (fun t u k => (g t u k * broadcast grad_output b)%R)
      :: mul_from (S b) t' grad_output
  end.

Definition mul_ (t : tensor) (grad_output : list R) : tensor :=
  mul_from 0 t grad_output.

Fixpoint heap_set (h : heap) (a : nat) (t : tensor) : heap :=
  match h, a with
  | [], _ => []
  | _ :: h', O => t :: h'
  | x :: h', S a' => x :: heap_set h' a' t
  end.

(** [Transducer.backward(ctx, grad_output)]: the heap after the in-place
    product and the object returned first in the tuple. [None] when the
    shapes do not broadcast. *)
Definition Transducer_backward (h : heap) (ctx : context)
    (grad_output : list R) : option (heap * nat) :=
  match nth_error h (ctx_grads ctx) with
  | Some g =>
      if Nat.eqb (length grad_output) 1
         || Nat.eqb (length grad_output) (length g)
      then Some (heap_set h (ctx_grads ctx) (mul_ g grad_output),
                 ctx_grads ctx)
      else None
  | None => None
  end.

(** *** Well-formed inputs *)

(** The length invariant of the data model: [0 < T[b] <= maxT] and
    [0 <= U[b] <= maxU - 1]. *)
Definition valid_item (d : dims) (it : item) : Prop :=
  0 < it_T it <= maxT d /\ 0 <= it_U it <= maxU d - 1.

(** The label row has [maxU - 1] entries and no target label is the
    blank symbol. *)
Definition valid_labels (d : dims) (blank : Z) (it : item) : Prop :=
  Z.of_nat (length (it_labels it)) = maxU d - 1 /\
  forall u, 0 <= u < it_U it -> label_at (it_labels it) u <> blank.

Definition no_item : item := mk_item zeros3 [] 0 0.
Definition no_schedule : schedule := mk_schedule [] [] [].

(** Thread 0 of the forward sweep takes its last step (the one that stores
    [log_p[b]]) when column [U[b]] of [alpha] is complete. *)
Definition publishes_late (d : dims) (blank : Z) (it : item)
    (sched : list Z) : Prop :=
  exists pre post,
    sched = pre ++ 0 :: post /\
    returned (forward_sweep d blank it pre) 0 = false /\
    loc_t (forward_sweep d blank it pre) (it_U it) = it_T it.

(** A schedule that runs block [b] to the end of the three kernels, thread
    0 of the forward sweep returning last. *)
Definition default_schedule (d : dims) (it : item) : schedule :=
  let n := Z.to_nat (it_T it + 1) in
  mk_schedule
    (solo_schedule (maxU d) (Z.to_nat (it_T it)) ++ solo_schedule (maxU d) n)
    (solo_schedule_down (maxU d) n)
    (zrange (Z.to_nat (maxT d))).

(** *** Two concrete inputs *)

(** Log-probabilities of the uniform distribution over [A = 5] symbols. *)
Definition uniform5 : lattice := fun _ _ _ => (- ln 5)%R.

(** The example of the docstring: [B = 1], [log_probs] of shape
    [(1, 2, 3, 5)], [labels = [[1, 2]]], [T = [2]], [U = [2]], blank 0. *)
Definition doc_dims : dims := mk_dims 2 3 5.
Definition doc_item (lp : lattice) : item := mk_item lp [1; 2] 2 2.

(** Thread 0 of the forward sweep returns after threads 1 and 2 have
    finished their columns. *)
Definition doc_schedule : schedule :=
  mk_schedule [0; 0; 1; 1; 2; 2; 0; 1; 2] [2; 2; 1; 1; 0; 0; 2; 1; 0] [0; 1].

(** One time step, one label: [log_probs] of shape [(1, 1, 2, 5)],
    [labels = [[1]]], [T = [1]], [U = [1]]. *)
Definition small_dims : dims := mk_dims 1 2 5.
Definition small_item (lp : lattice) : item := mk_item lp [1] 1 1.

(** Thread 0 of the forward sweep runs to its end before thread 1 starts. *)
Definition early_schedule : schedule :=
  mk_schedule [0; 0; 1; 1] [1; 1; 0; 0] [0].

(** Thread 0 of the forward sweep returns last. *)
Definition late_schedule : schedule :=
  mk_schedule [0; 1; 1; 0] [1; 1; 0; 0] [0].

(** One time step and an empty target, the label row all padding:
    [labels = [[0]]], [T = [1]], [U = [0]]. *)
Definition blank_only_item (lp : lattice) : item := mk_item lp [0] 1 0.

Definition blank_only_schedule : schedule :=
  mk_schedule [0; 1; 0] [0; 0; 1] [0].

(** *** The module [TransducerLoss] and [doctest_numba] *)

(** What reading the attribute [cuda.cuda_paths] does in the running
    environment. *)
Inductive probe := Found | RaisesImportError | RaisesOther (msg : string).

Inductive exn := ImportError (msg : string) | OtherError (msg : string).

Definition nl : string := String (Ascii.ascii_of_nat 10) EmptyString.

(** The message built in [TransducerLoss.__init__]. *)
Definition err_msg : string :=
  ("cannot import numba. To use Transducer loss" ++ nl
   ++ "=============================" ++ nl
   ++ "If you use your localhost:" ++ nl
   ++ "pip install numba" ++ nl
   ++ "export NUMBAPRO_LIBDEVICE='/usr/local/cuda/nvvm/libdevice/' " ++ nl
   ++ "export NUMBAPRO_NVVM='/usr/local/cuda/nvvm/lib64/libnvvm.so' " ++ nl
   ++ "================================ " ++ nl
   ++ "If you use conda:" ++ nl
   ++ "conda install numba cudatoolkit=9.0")%string.

Record TransducerLoss := mk_loss { self_blank : Z; self_reduction : string }.

(** [TransducerLoss.__init__(self, blank, reduction)]: the attributes are
    stored as given; only an [ImportError] of the probe is caught. *)
Definition TransducerLoss_init (env : probe) (blank : Z) (reduction : string)
    : exn + TransducerLoss :=
  match env with
  | Found => inr (mk_loss blank reduction)
  | RaisesImportError => inl (ImportError err_msg)
  | RaisesOther msg => inl (OtherError msg)
  end.

(** [doctest_numba()]: [true] when the doctest goes on, [false] when it is
    skipped; every exception of the probe is caught. *)
Definition doctest_numba (env : probe) : bool :=
  match env with
  | Found => true
  | RaisesImportError => false
  | RaisesOther _ => false
  end.

(** [TransducerLoss.forward(self, log_probs, labels, T, U)]. *)
Definition TransducerLoss_forward (self : TransducerLoss) (d : dims)
    (scheds : list schedule) (batch : list item) : option forward_result :=
  Transducer_forward d scheds batch (self_blank self) (self_reduction self).

(** The docstring example with the blank id as first target label:
    [labels = [[0, 2]]]. *)
Definition blank_label_item (lp : lattice) : item := mk_item lp [0; 2] 2 2.

(** *** Inputs at the edges of the data model *)

(** Log-probabilities of a distribution over [A = 3] symbols that depends
    on the frame only: in frame [t] symbol [t] has probability 1/2, each
    of the two others 1/4. *)
Definition skew3 : lattice :=
  fun t _ k => if k =? t then (- ln 2)%R else (- (ln 2 + ln 2))%R.

(** [log_probs] of shape [(1, 2, 2, 3)], [labels = [[0]]], [T = [2]],
    [U = [1]]: the lengths are in range and the one target label is the
    blank id 0. *)
Definition skew_dims : dims := mk_dims 2 2 3.
Definition blank_target_item : item := mk_item skew3 [0] 2 1.

Definition blank_target_schedule : schedule :=
  mk_schedule [0; 0; 1; 1; 0; 1] [1; 1; 0; 0; 1; 0] [0; 1].

(** [T = [0]] on the lattice of [small_dims]: no frame at all. *)
Definition no_frame_item (lp : lattice) : item := mk_item lp [1] 0 1.

Definition no_frame_schedule : schedule := mk_schedule [0; 1] [0; 1] [0].

(** [U = [2]] on the lattice of [small_dims], where [maxU = 2]: one label
    position more than the kernels have threads. *)
Definition long_target_item (lp : lattice) : item := mk_item lp [1] 1 2.
(** ** Counter rows *)

Lemma length_set_nth (n : nat) (v : Z) (l : list Z) :
  length (set_nth n v l) = length l.
Proof.
  revert n; induction l as [|x l IH]; intros [|n]; simpl; auto.
Qed.

Lemma nth_set_nth_eq (n : nat) (v : Z) (l : list Z) :
  (n < length l)%nat -> nth n (set_nth n v l) 0 = v.
Proof.
  revert n; induction l as [|x l IH]; intros [|n]; simpl; intros H;
    try lia; auto.
  apply IH; lia.
Qed.

Lemma nth_set_nth_neq (n m : nat) (v : Z) (l : list Z) :
  n <> m -> nth m (set_nth n v l) 0 = nth m l 0.
Proof.
  revert n m; induction l as [|x l IH]; intros [|n] [|m]; simpl; intros H;
    try congruence; auto.
Qed.

Lemma set_nth_same (n : nat) (l : list Z) :
  set_nth n (nth n l 0) l = l.
Proof.
  revert n; induction l as [|x l IH]; intros [|n]; simpl; auto.
  now rewrite IH.
Qed.

Lemma in_row_true (row : list Z) (i : Z) :
  in_row row i = true <-> 0 <= i < Z.of_nat (length row).
Proof.
  unfold in_row. rewrite andb_true_iff, Z.leb_le, Z.ltb_lt. tauto.
Qed.

Lemma in_row_false (row : list Z) (i : Z) :
  in_row row i = false <-> ~ 0 <= i < Z.of_nat (length row).
Proof.
  rewrite <- in_row_true. destruct (in_row row i); split; congruence.
Qed.

Lemma wraparound_nonneg (row : list Z) (i : Z) :
  0 <= i -> wraparound row i = i.
Proof. intros H. unfold wraparound. destruct (Z.ltb_spec i 0); lia. Qed.

Lemma wraparound_in_row (row : list Z) (i : Z) :
  in_row row i = true -> wraparound row i = i.
Proof. intros H. apply in_row_true in H. apply wraparound_nonneg. lia. Qed.

Lemma wraparound_last (row : list Z) :
  wraparound row (-1) = Z.of_nat (length row) - 1.
Proof. unfold wraparound. cbn [Z.ltb Z.compare]. lia. Qed.

Lemma atomic_add_poll (row : list Z) (i : Z) :
  in_row row i = true -> atomic_add row i 0 = Some (row_at row i, row).
Proof.
  intros H. unfold atomic_add. cbv zeta.
  rewrite (wraparound_in_row _ _ H), H, Z.add_0_r.
  unfold row_at. now rewrite set_nth_same.
Qed.

Lemma length_repeat_row (n : Z) :
  0 <= n -> Z.of_nat (length (repeat 0 (Z.to_nat n))) = n.
Proof. intros H. rewrite repeat_length. lia. Qed.

Lemma row_at_repeat (n : nat) (i : Z) : row_at (repeat 0 n) i = 0.
Proof.
  unfold row_at. generalize (Z.to_nat i) as k.
  induction n as [|n IH]; intros [|k]; simpl; auto.
Qed.

(** What a doorbell update leaves alone, and what it changes. *)

Lemma tab_signal i d s : tab (signal i d s) = tab s.
Proof. unfold signal. destruct (atomic_add _ _ _) as [[? ?]|]; reflexivity. Qed.

Lemma loc_t_signal i d s : loc_t (signal i d s) = loc_t s.
Proof. unfold signal. destruct (atomic_add _ _ _) as [[? ?]|]; reflexivity. Qed.

Lemma returned_signal i d s : returned (signal i d s) = returned s.
Proof. unfold signal. destruct (atomic_add _ _ _) as [[? ?]|]; reflexivity. Qed.

Lemma log_p_signal i d s : log_p (signal i d s) = log_p s.
Proof. unfold signal. destruct (atomic_add _ _ _) as [[? ?]|]; reflexivity. Qed.

Lemma length_lock_signal i d s :
  length (lock (signal i d s)) = length (lock s).
Proof.
  unfold signal, atomic_add. cbv zeta. destruct (in_row _ _); simpl; auto.
  apply length_set_nth.
Qed.

Lemma row_at_signal_eq i d s :
  in_row (lock s) i = true ->
  row_at (lock (signal i d s)) i = row_at (lock s) i + d.
Proof.
  intros H. unfold signal, atomic_add. cbv zeta.
  rewrite (wraparound_in_row _ _ H), H. simpl.
  apply in_row_true in H. unfold row_at at 1.
  apply nth_set_nth_eq. lia.
Qed.

(** An update through index [i] leaves every counter but the one at
    [wraparound i] alone. *)
Lemma row_at_signal_other i j d s :
  0 <= j -> wraparound (lock s) i <> j ->
  row_at (lock (signal i d s)) j = row_at (lock s) j.
Proof.
  intros Hj Hij. unfold signal, atomic_add. cbv zeta.
  destruct (in_row (lock s) (wraparound (lock s) i)) eqn:E; simpl; auto.
  apply in_row_true in E. unfold row_at.
  apply nth_set_nth_neq. lia.
Qed.

Lemma row_at_signal_neq i j d s :
  0 <= i -> 0 <= j -> i <> j ->
  row_at (lock (signal i d s)) j = row_at (lock s) j.
Proof.
  intros Hi Hj Hij. apply row_at_signal_other; [assumption|].
  now rewrite wraparound_nonneg.
Qed.

Lemma oob_signal_wrap i d s :
  oob (signal i d s)
  = if in_row (lock s) (wraparound (lock s) i) then oob s else i :: oob s.
Proof.
  unfold signal, atomic_add. cbv zeta. destruct (in_row _ _); reflexivity.
Qed.

Lemma oob_signal i d s :
  0 <= i ->
  oob (signal i d s) = if in_row (lock s) i then oob s else i :: oob s.
Proof. intros H. now rewrite oob_signal_wrap, wraparound_nonneg. Qed.

Lemma tset_eq (a : table) t u v : tset a t u v t u = v.
Proof. unfold tset. now rewrite !Z.eqb_refl. Qed.

Lemma tset_neq (a : table) t u v t' u' :
  t' <> t \/ u' <> u -> tset a t u v t' u' = a t' u'.
Proof.
  intros H. unfold tset.
  destruct (Z.eqb_spec t' t), (Z.eqb_spec u' u); simpl; auto. lia.
Qed.

Lemma fupd_eq {A : Type} (f : Z -> A) i v : fupd f i v i = v.
Proof. unfold fupd. now rewrite Z.eqb_refl. Qed.

Lemma fupd_neq {A : Type} (f : Z -> A) i v j : j <> i -> fupd f i v j = f j.
Proof. intros H. unfold fupd. destruct (Z.eqb_spec j i); congruence. Qed.

(** ** The forward sweep keeps its invariant *)

Section ForwardInvariant.

Variable lp : lattice.
Variable labels : list Z.
Variables T U blank maxU : Z.
Hypothesis HU : 0 <= U < maxU.

Local Abbreviation inv := (fwd_inv lp labels T U blank maxU).
Local Abbreviation rhs := (alpha_rhs lp labels blank).
Local Abbreviation step := (cu_kernel_forward lp labels T U blank).

Lemma alpha_rhs_tset (a : table) t u v t' u' :
  ~ (t = t' - 1 /\ u = u') ->
  ~ (t = t' /\ u = u' - 1) ->
  rhs (tset a t u v) t' u' = rhs a t' u'.
Proof.
  intros H2 H3. unfold alpha_rhs.
  destruct (Z.eqb_spec u' 0), (Z.eqb_spec t' 0); subst;
    rewrite ?tset_neq by lia; reflexivity.
Qed.

(** A thread that completes its current cell and moves on. *)
Lemma fwd_inv_advance s s' u :
  inv s -> 0 <= u <= U ->
  loc_t s u < T ->
  (1 <= u -> loc_t s u < loc_t s (u - 1)) ->
  tab s' = tset (tab s) (loc_t s u) u (rhs (tab s) (loc_t s u) u) ->
  loc_t s' = fupd (loc_t s) u (loc_t s u + 1) ->
  returned s' = returned s ->
  length (lock s') = length (lock s) ->
  (forall j, 1 <= j <= U ->
     row_at (lock s') j =
     row_at (lock s) j + (if j =? u then 1 else 0)
                       - (if j =? u + 1 then 1 else 0)) ->
  inv s'.
Proof.
  intros I Hu Hlt Hprev Htab Ht Hret Hlen Hrow.
  pose proof (fi_t _ _ _ _ _ _ _ I) as It.
  pose proof (fi_ord _ _ _ _ _ _ _ I) as Io.
  constructor.
  - rewrite Hlen. apply I.
  - intros j Hj. rewrite Ht. unfold fupd.
    destruct (Z.eqb_spec j u); subst; specialize (It _ Hj); lia.
  - intros j Hj. rewrite Hrow by assumption. rewrite Ht. unfold fupd.
    rewrite (fi_lock _ _ _ _ _ _ _ I) by assumption.
    assert (j - 1 = u -> loc_t s (j - 1) = loc_t s u) by congruence.
    assert (j = u -> loc_t s j = loc_t s u) by congruence.
    destruct (Z.eqb_spec j u), (Z.eqb_spec j (u + 1)),
      (Z.eqb_spec (j - 1) u); lia.
  - intros j Hj. rewrite Ht. unfold fupd.
    assert (j - 1 = u -> loc_t s (j - 1) = loc_t s u) by congruence.
    assert (j = u -> loc_t s j = loc_t s u) by congruence.
    assert (j = u -> loc_t s (j - 1) = loc_t s (u - 1)) by congruence.
    specialize (Io _ Hj).
    destruct (Z.eqb_spec j u), (Z.eqb_spec (j - 1) u); lia.
  - intros t j Hj Htj. rewrite Ht in Htj. unfold fupd in Htj.
    unfold alpha_cell_ok. rewrite Htab.
    assert (Hcase : (j = u /\ t = loc_t s u) \/
                    (0 <= t < loc_t s j)).
    { destruct (Z.eqb_spec j u); subst; lia. }
    destruct Hcase as [[-> ->]|Hold].
    + rewrite tset_eq. symmetry. apply alpha_rhs_tset; lia.
    + assert (u = j -> loc_t s u = loc_t s j) by congruence.
      assert (Hne : ~ (loc_t s u = t /\ u = j)) by lia.
      rewrite tset_neq by lia.
      rewrite alpha_rhs_tset; try lia.
      * apply (fi_cells _ _ _ _ _ _ _ I); assumption.
      * intros [E1 E2].
        assert (1 <= j <= U) as Hj1 by lia.
        specialize (Io _ Hj1).
        assert (loc_t s (j - 1) = loc_t s u) by (f_equal; lia). lia.
  - intros j Hj Hr. rewrite Hret in Hr.
    pose proof (fi_ret _ _ _ _ _ _ _ I _ Hj Hr) as E.
    rewrite Ht. unfold fupd.
    destruct (Z.eqb_spec j u); subst; lia.
Qed.

Lemma fwd_inv_step s u :
  inv s -> 0 <= u < maxU -> inv (step u s).
Proof.
  intros I Hu. unfold cu_kernel_forward.
  destruct (returned s u) eqn:Er; [assumption|].
  destruct (Z.leb_spec u U) as [HuU|HuU].
  2:{ constructor; simpl; try apply I.
      intros j Hj Hr. rewrite fupd_neq in Hr by lia.
      now apply (fi_ret _ _ _ _ _ _ _ I). }
  pose proof (fi_t _ _ _ _ _ _ _ I u ltac:(lia)) as Itu.
  destruct (Z.ltb_spec (loc_t s u) T) as [Hlt|Hge].
  2:{ assert (E : loc_t s u = T) by lia.
      assert (I' : inv (set_ret u s)).
      { constructor; simpl; try apply I.
        intros j Hj Hr. unfold fupd in Hr.
        destruct (Z.eqb_spec j u); subst; auto.
        now apply (fi_ret _ _ _ _ _ _ _ I). }
      destruct (u =? 0); [|exact I'].
      destruct I'; constructor; assumption. }
  destruct (Z.eqb_spec u 0) as [->|Hu0].
  - apply (fwd_inv_advance s _ 0); try assumption; try lia.
    + simpl. rewrite tab_signal. unfold alpha_rhs. simpl.
      destruct (Z.eqb_spec (loc_t s 0) 0) as [->|]; reflexivity.
    + simpl. rewrite loc_t_signal.
      destruct (loc_t s 0 =? 0); reflexivity.
    + simpl. rewrite returned_signal.
      destruct (loc_t s 0 =? 0); reflexivity.
    + simpl. rewrite length_lock_signal.
      destruct (loc_t s 0 =? 0); reflexivity.
    + intros j Hj. simpl.
      destruct (Z.eqb_spec j 0); [lia|].
      destruct (Z.eqb_spec j 1) as [->|].
      * rewrite row_at_signal_eq.
        -- destruct (loc_t s 0 =? 0); simpl; lia.
        -- apply in_row_true.
           destruct (loc_t s 0 =? 0); simpl;
             rewrite (fi_len _ _ _ _ _ _ _ I); lia.
      * rewrite row_at_signal_neq by lia.
        destruct (loc_t s 0 =? 0); simpl; lia.
  - assert (Hin : in_row (lock s) u = true).
    { apply in_row_true. rewrite (fi_len _ _ _ _ _ _ _ I). lia. }
    rewrite (atomic_add_poll _ _ Hin).
    assert (Es : set_lock (lock s) s = s) by (destruct s; reflexivity).
    rewrite Es.
    rewrite (fi_lock _ _ _ _ _ _ _ I u) by lia.
    destruct (Z.ltb_spec (loc_t s u - loc_t s (u - 1)) 0) as [Hneg|];
      [|assumption].
    apply (fwd_inv_advance s _ u); try assumption; try lia.
    + simpl. rewrite tab_signal.
      assert (Et : forall x, tab (if u <? U then signal (u + 1) (-1) x else x)
                         = tab x).
      { intros x. destruct (u <? U); [apply tab_signal|reflexivity]. }
      rewrite Et. unfold alpha_rhs.
      destruct (Z.eqb_spec u 0); [lia|].
      destruct (Z.eqb_spec (loc_t s u) 0) as [->|]; reflexivity.
    + simpl. rewrite loc_t_signal.
      destruct (u <? U); rewrite ?loc_t_signal;
        destruct (loc_t s u =? 0); reflexivity.
    + simpl. rewrite returned_signal.
      destruct (u <? U); rewrite ?returned_signal;
        destruct (loc_t s u =? 0); reflexivity.
    + simpl. rewrite length_lock_signal.
      destruct (u <? U); rewrite ?length_lock_signal;
        destruct (loc_t s u =? 0); reflexivity.
    + intros j Hj. simpl.
      set (s1 := if loc_t s u =? 0 then _ else _).
      assert (L1 : lock s1 = lock s).
      { subst s1. destruct (loc_t s u =? 0); reflexivity. }
      set (s2 := if u <? U then signal (u + 1) (-1) s1 else s1).
      assert (Len2 : length (lock s2) = length (lock s)).
      { subst s2. destruct (u <? U); rewrite ?length_lock_signal;
          now rewrite L1. }
      assert (R2 : forall k, 0 <= k <= U ->
                 row_at (lock s2) k =
                 row_at (lock s) k - (if k =? u + 1 then 1 else 0)).
      { intros k Hk. subst s2.
        destruct (Z.ltb_spec u U).
        - destruct (Z.eqb_spec k (u + 1)) as [->|].
          + rewrite row_at_signal_eq; rewrite L1; [lia|].
            apply in_row_true. rewrite (fi_len _ _ _ _ _ _ _ I). lia.
          + rewrite row_at_signal_neq by lia. rewrite L1. lia.
        - rewrite L1.
          destruct (Z.eqb_spec k (u + 1)); [|lia].
          subst k. lia. }
      destruct (Z.eqb_spec j u) as [->|].
      * rewrite row_at_signal_eq.
        -- rewrite R2 by lia. lia.
        -- apply in_row_true. rewrite Len2.
           rewrite (fi_len _ _ _ _ _ _ _ I). lia.
      * rewrite row_at_signal_neq by lia. rewrite R2 by lia. lia.
Qed.

End ForwardInvariant.

(** ** Schedules *)

Lemma sweep_run_app step maxU a b s :
  sweep_run step maxU (a ++ b) s = sweep_run step maxU b (sweep_run step maxU a s).
Proof. unfold sweep_run. apply fold_left_app. Qed.

Lemma sweep_run_cons step maxU u l s :
  0 <= u < maxU ->
  sweep_run step maxU (u :: l) s = sweep_run step maxU l (step u s).
Proof.
  intros H. unfold sweep_run. simpl.
  destruct (Z.leb_spec 0 u), (Z.ltb_spec u maxU); simpl; try lia; reflexivity.
Qed.

Lemma sweep_run_skip step maxU u l s :
  ~ 0 <= u < maxU ->
  sweep_run step maxU (u :: l) s = sweep_run step maxU l s.
Proof.
  intros H. unfold sweep_run. simpl.
  destruct (Z.leb_spec 0 u), (Z.ltb_spec u maxU); simpl; try lia; reflexivity.
Qed.

Lemma sweep_run_ind (P : sweep_state -> Prop) step maxU :
  (forall u s, 0 <= u < maxU -> P s -> P (step u s)) ->
  forall sched s, P s -> P (sweep_run step maxU sched s).
Proof.
  intros Hstep sched. induction sched as [|u l IH]; intros s Hs; [exact Hs|].
  destruct (Z.leb_spec 0 u), (Z.ltb_spec u maxU).
  1: rewrite sweep_run_cons by lia; apply IH, Hstep; auto; lia.
  all: rewrite sweep_run_skip by lia; auto.
Qed.

Lemma in_zrange (n : nat) (x : Z) :
  In x (zrange n) <-> 0 <= x < Z.of_nat n.
Proof.
  induction n as [|n IH]; simpl.
  - lia.
  - rewrite in_app_iff, IH. simpl. lia.
Qed.

Lemma sweep_done_iff maxU s :
  sweep_done maxU s = true <->
  forall u, 0 <= u < maxU -> returned s u = true.
Proof.
  unfold sweep_done. rewrite forallb_forall. split; intros H u Hu.
  - apply H, in_zrange. lia.
  - apply H. apply in_zrange in Hu. lia.
Qed.

(** ** Effects of one step on the thread-local state *)

Ltac sweep_fields :=
  cbn [tab lock loc_t returned log_p oob set_tab set_lock set_t set_ret
       set_log_p log_oob];
  rewrite ?tab_signal, ?loc_t_signal, ?returned_signal, ?log_p_signal;
  cbn [tab lock loc_t returned log_p oob set_tab set_lock set_t set_ret
       set_log_p log_oob].

Ltac break_step :=
  repeat match goal with
  | |- context [match atomic_add ?r ?i ?d with _ => _ end] =>
      destruct (atomic_add r i d) as [[? ?]|] eqn:?
  | |- context [if ?c then _ else _] => destruct c eqn:?
  end.

Section ForwardRuns.

Variable lp : lattice.
Variable labels : list Z.
Variables T U blank maxU : Z.
Hypothesis HT : 0 < T.
Hypothesis HU : 0 <= U < maxU.

Local Abbreviation inv := (fwd_inv lp labels T U blank maxU).
Local Abbreviation step := (cu_kernel_forward lp labels T U blank).
Local Abbreviation run := (sweep_run (cu_kernel_forward lp labels T U blank) maxU).

Lemma fwd_inv_init : inv (sweep_init maxU 0).
Proof.
  constructor; simpl; intros; try lia.
  - apply length_repeat_row. lia.
  - rewrite row_at_repeat. lia.
Qed.

Lemma fwd_inv_run sched s : inv s -> inv (run sched s).
Proof.
  apply sweep_run_ind. intros u s0 Hu I.
  now apply (fwd_inv_step lp labels T U blank maxU HU).
Qed.

Lemma fwd_step_frame u s j :
  j <> u ->
  returned (step u s) j = returned s j /\ loc_t (step u s) j = loc_t s j.
Proof.
  intros Hj. unfold cu_kernel_forward.
  break_step; sweep_fields; rewrite ?fupd_neq by assumption; auto.
Qed.

Lemma fwd_step_tab u s t j :
  ~ (t = loc_t s u /\ j = u) -> tab (step u s) t j = tab s t j.
Proof.
  intros Hj. unfold cu_kernel_forward.
  break_step; sweep_fields; auto;
    repeat match goal with
    | H : (_ =? _) = true |- _ => apply Z.eqb_eq in H
    end;
    apply tset_neq; lia.
Qed.

Lemma fwd_step_mono u s j : loc_t s j <= loc_t (step u s) j.
Proof.
  unfold cu_kernel_forward.
  break_step; sweep_fields; try lia;
    unfold fupd; destruct (Z.eqb_spec j u); subst; lia.
Qed.

Lemma fwd_step_returned u s j :
  returned s j = true -> returned (step u s) j = true.
Proof.
  intros H. unfold cu_kernel_forward.
  break_step; sweep_fields; auto;
    unfold fupd; destruct (Z.eqb_spec j u); subst; auto.
Qed.

Lemma fwd_step_log_p u s :
  u <> 0 \/ returned s 0 = true \/ loc_t s 0 < T ->
  log_p (step u s) = log_p s.
Proof.
  intros H. unfold cu_kernel_forward.
  break_step; sweep_fields; auto;
    repeat match goal with
    | H : (_ =? _) = true |- _ => apply Z.eqb_eq in H
    | H : (_ <? _) = false |- _ => apply Z.ltb_ge in H
    end; subst; try lia;
    destruct H as [H|[H|H]]; try lia; congruence.
Qed.

Lemma fwd_step_done u s : returned s u = true -> step u s = s.
Proof. intros H. unfold cu_kernel_forward. now rewrite H. Qed.

(** Thread [u] with work left and its input row published moves on. *)
Lemma fwd_step_advance u s :
  inv s -> 0 <= u <= U -> returned s u = false ->
  loc_t s u < T -> (1 <= u -> loc_t s u < loc_t s (u - 1)) ->
  loc_t (step u s) u = loc_t s u + 1 /\ returned (step u s) u = false.
Proof.
  intros I Hu Hr Hlt Hprev. unfold cu_kernel_forward. rewrite Hr.
  destruct (Z.leb_spec u U); [|lia].
  destruct (Z.ltb_spec (loc_t s u) T); [|lia].
  destruct (Z.eqb_spec u 0) as [->|Hu0].
  - sweep_fields. rewrite fupd_eq.
    destruct (loc_t s 0 =? 0); sweep_fields; auto.
  - assert (Hin : in_row (lock s) u = true).
    { apply in_row_true. rewrite (fi_len _ _ _ _ _ _ _ I). lia. }
    rewrite (atomic_add_poll _ _ Hin).
    rewrite (fi_lock _ _ _ _ _ _ _ I u) by lia.
    destruct (Z.ltb_spec (loc_t s u - loc_t s (u - 1)) 0); [|lia].
    sweep_fields. rewrite fupd_eq.
    destruct (u <? U), (loc_t s u =? 0); sweep_fields; auto.
Qed.

(** A thread with nothing left to do returns. *)
Lemma fwd_step_exit u s :
  returned s u = false -> U < u \/ T <= loc_t s u ->
  returned (step u s) u = true /\ loc_t (step u s) u = loc_t s u.
Proof.
  intros Hr Hex. unfold cu_kernel_forward. rewrite Hr.
  destruct (Z.leb_spec u U); [|sweep_fields; now rewrite fupd_eq].
  destruct (Z.ltb_spec (loc_t s u) T); [lia|].
  destruct (u =? 0); sweep_fields; now rewrite fupd_eq.
Qed.

(** Running thread [u] alone for [n] steps, once its left neighbour has
    finished: if [n] covers its remaining rows, it returns. *)
Lemma fwd_solo (n : nat) : forall u s,
  inv s -> 0 <= u < maxU ->
  (1 <= u <= U -> loc_t s (u - 1) = T) ->
  (u <= U -> T - loc_t s u + 1 <= Z.of_nat n) -> (1 <= n)%nat ->
  inv (run (repeat u n) s) /\ returned (run (repeat u n) s) u = true /\
  (u <= U -> loc_t (run (repeat u n) s) u = T) /\
  (forall j, j <> u -> returned (run (repeat u n) s) j = returned s j /\
                       loc_t (run (repeat u n) s) j = loc_t s j).
Proof.
  induction n as [|n IH]; intros u s I Hu Hprev Hn H1; [lia|].
  cbn [repeat]. rewrite sweep_run_cons by assumption.
  pose proof (fwd_inv_step lp labels T U blank maxU HU s u I Hu) as I1.
  assert (Hframe : forall j, j <> u ->
            returned (step u s) j = returned s j /\
            loc_t (step u s) j = loc_t s j)
    by (intros; now apply fwd_step_frame).
  assert (Hkeep : forall s1, inv s1 -> returned s1 u = true ->
            (u <= U -> loc_t s1 u = T) ->
            forall m,
            inv (run (repeat u m) s1) /\
            returned (run (repeat u m) s1) u = true /\
            (u <= U -> loc_t (run (repeat u m) s1) u = T) /\
            (forall j, j <> u ->
               returned (run (repeat u m) s1) j = returned s1 j /\
               loc_t (run (repeat u m) s1) j = loc_t s1 j)).
  { intros s1 Is1 Hr1 Ht1 m. induction m as [|m IHm]; cbn [repeat].
    - simpl. auto.
    - replace (u :: repeat u m) with (repeat u m ++ [u])
        by (change (u :: repeat u m) with (repeat u (S m));
            now rewrite <- repeat_cons).
      rewrite sweep_run_app. destruct IHm as (Ia & Ra & Ta & Fa).
      rewrite sweep_run_cons by assumption. cbn [sweep_run fold_left].
      rewrite (fwd_step_done _ _ Ra). auto. }
  destruct (returned s u) eqn:Er.
  - rewrite (fwd_step_done _ _ Er). apply Hkeep; auto.
    intros. now apply (fi_ret _ _ _ _ _ _ _ I).
  - destruct (Z.leb_spec u U) as [HuU|HuU].
    + pose proof (fi_t _ _ _ _ _ _ _ I u ltac:(lia)) as Itu.
      destruct (Z.ltb_spec (loc_t s u) T) as [Hlt|Hge].
      * destruct (fwd_step_advance u s I ltac:(lia) Er Hlt) as [Ea Eb].
        { intros Hu1. rewrite Hprev by lia. lia. }
        destruct n as [|n]; [lia|].
        destruct (IH u (step u s) I1 Hu) as (Ia & Ra & Ta & Fa); try lia.
        { intros Hu1. destruct (Hframe (u - 1) ltac:(lia)) as [_ ->].
          now apply Hprev. }
        split; [auto|split; [auto|split; [auto|]]].
        intros j Hj. destruct (Fa j Hj) as [-> ->]. now apply Hframe.
      * destruct (fwd_step_exit u s Er ltac:(lia)) as [Ea Eb].
        destruct (Hkeep (step u s) I1 Ea ltac:(lia) n) as (Ia & Ra & Ta & Fa).
        split; [auto|split; [auto|split; [auto|]]].
        intros j Hj. destruct (Fa j Hj) as [-> ->]. now apply Hframe.
    + destruct (fwd_step_exit u s Er ltac:(lia)) as [Ea Eb].
      destruct (Hkeep (step u s) I1 Ea ltac:(lia) n) as (Ia & Ra & Ta & Fa).
      split; [auto|split; [auto|split; [lia|]]].
      intros j Hj. destruct (Fa j Hj) as [-> ->]. now apply Hframe.
Qed.


Lemma fwd_solo_prefix (n : nat) (k : nat) s :
  inv s -> (T + 1 <= Z.of_nat n) -> Z.of_nat k <= maxU ->
  let s' := run (flat_map (fun u => repeat u n) (zrange k)) s in
  inv s' /\
  forall j, 0 <= j < Z.of_nat k ->
    returned s' j = true /\ (j <= U -> loc_t s' j = T).
Proof.
  intros I Hn. induction k as [|k IH]; intros Hk; cbv zeta.
  - simpl. split; [assumption|lia].
  - cbn [zrange]. rewrite flat_map_app, sweep_run_app.
    cbn [flat_map]. rewrite app_nil_r.
    destruct (IH ltac:(lia)) as [Ik Hdone].
    set (sk := run (flat_map (fun u => repeat u n) (zrange k)) s) in *.
    pose proof (fi_t _ _ _ _ _ _ _ Ik) as It.
    destruct (fwd_solo n (Z.of_nat k) sk Ik ltac:(lia)) as (Ia & Ra & Ta & Fa).
    + intros Hk1. apply Hdone; lia.
    + intros HkU. specialize (It (Z.of_nat k) ltac:(lia)). lia.
    + lia.
    + split; [assumption|]. intros j Hj.
      destruct (Z.eq_dec j (Z.of_nat k)) as [->|Hne]; [auto|].
      destruct (Fa j Hne) as [-> ->]. apply Hdone. lia.
Qed.

(** From every state of the sweep the solo schedule runs the kernel to
    its end: the doorbells never deadlock. *)
Lemma fwd_solo_done s :
  inv s ->
  sweep_done maxU (run (solo_schedule maxU (Z.to_nat (T + 1))) s) = true.
Proof.
  intros I. apply sweep_done_iff. intros u Hu.
  destruct (fwd_solo_prefix (Z.to_nat (T + 1)) (Z.to_nat maxU) s I)
    as [_ H]; try lia.
  apply H. lia.
Qed.

Lemma fwd_chain s : inv s ->
  forall u, 0 <= u <= U -> loc_t s U <= loc_t s u.
Proof.
  intros I u Hu.
  assert (H : forall k : nat, 0 <= U - Z.of_nat k ->
            loc_t s U <= loc_t s (U - Z.of_nat k)).
  { induction k as [|k IH]; intros Hk.
    - replace (U - Z.of_nat 0) with U by lia. lia.
    - pose proof (fi_ord _ _ _ _ _ _ _ I (U - Z.of_nat k) ltac:(lia)) as Ho.
      replace (U - Z.of_nat k - 1) with (U - Z.of_nat (S k)) in Ho by lia.
      specialize (IH ltac:(lia)). lia. }
  specialize (H (Z.to_nat (U - u)) ltac:(lia)).
  now replace (U - Z.of_nat (Z.to_nat (U - u))) with u in H by lia.
Qed.

(** When the kernel is over the table holds the recurrence on the whole
    valid rectangle. *)
Lemma fwd_done_cells s :
  inv s -> sweep_done maxU s = true ->
  forall t u, 0 <= t < T -> 0 <= u <= U ->
    alpha_cell_ok lp labels blank (tab s) t u.
Proof.
  intros I Hd t u Ht Hu.
  apply (fi_cells _ _ _ _ _ _ _ I); [assumption|].
  rewrite (fi_ret _ _ _ _ _ _ _ I u Hu); [lia|].
  apply (proj1 (sweep_done_iff maxU s) Hd). lia.
Qed.

(** Finished cells are never written again. *)
Lemma fwd_run_stable sched : forall s t u,
  inv s -> 0 <= u <= U -> t < loc_t s u ->
  tab (run sched s) t u = tab s t u /\ t < loc_t (run sched s) u.
Proof.
  induction sched as [|v l IH]; intros s t u I Hu Ht; [simpl; auto|].
  destruct (Z.leb_spec 0 v), (Z.ltb_spec v maxU).
  2-4: rewrite sweep_run_skip by lia; auto.
  rewrite sweep_run_cons by lia.
  pose proof (fwd_step_mono v s u) as Hm.
  destruct (IH (step v s) t u) as [E1 E2]; try assumption; try lia.
  - apply (fwd_inv_step lp labels T U blank maxU HU); [assumption|lia].
  - split; [|assumption]. rewrite E1. apply fwd_step_tab.
    intros [-> ->]. lia.
Qed.

Lemma fwd_run_log_p sched : forall s,
  returned s 0 = true -> log_p (run sched s) = log_p s.
Proof.
  induction sched as [|v l IH]; intros s Hr; [reflexivity|].
  destruct (Z.leb_spec 0 v), (Z.ltb_spec v maxU).
  2-4: rewrite sweep_run_skip by lia; auto.
  rewrite sweep_run_cons by lia.
  rewrite IH by now apply fwd_step_returned.
  apply fwd_step_log_p. auto.
Qed.

(** If thread 0 takes its last step when column [U] is complete, the
    value it stores in [log_p] is the one of the final table. *)
Lemma fwd_log_p_late pre post :
  let s1 := run pre (sweep_init maxU 0) in
  let s2 := run (pre ++ 0 :: post) (sweep_init maxU 0) in
  returned s1 0 = false -> loc_t s1 U = T ->
  log_p s2 = (tab s2 (T - 1) U + lp (T - 1) U blank)%R.
Proof.
  intros s1 s2 Hr HtU.
  assert (I1 : inv s1) by apply fwd_inv_run, fwd_inv_init.
  assert (Ht0 : loc_t s1 0 = T).
  { pose proof (fwd_chain s1 I1 0 ltac:(lia)).
    pose proof (fi_t _ _ _ _ _ _ _ I1 0 ltac:(lia)). lia. }
  subst s2. rewrite sweep_run_app. fold s1.
  rewrite sweep_run_cons by lia.
  destruct (fwd_step_exit 0 s1 Hr ltac:(lia)) as [Ea Eb].
  rewrite fwd_run_log_p by assumption.
  assert (I2 : inv (step 0 s1))
    by (apply (fwd_inv_step lp labels T U blank maxU HU); [assumption|lia]).
  destruct (fwd_run_stable post (step 0 s1) (T - 1) U I2 ltac:(lia)) as [-> _].
  { pose proof (fwd_step_mono 0 s1 U). lia. }
  rewrite fwd_step_tab by lia.
  unfold cu_kernel_forward. rewrite Hr.
  destruct (Z.leb_spec 0 U); [|lia].
  destruct (Z.ltb_spec (loc_t s1 0) T); [lia|].
  reflexivity.
Qed.

End ForwardRuns.

(** ** The backward sweep keeps its invariant *)

Section BackwardInvariant.

Variable lp : lattice.
Variable labels : list Z.
Variables T U blank maxU : Z.
Hypothesis HU : 0 <= U < maxU.

Local Abbreviation inv := (bwd_inv lp labels T U blank maxU).
Local Abbreviation rhs := (beta_rhs lp labels T U blank).
Local Abbreviation step := (cu_kernel_backward lp labels T U blank).

Lemma beta_rhs_tset (a : table) t u v t' u' :
  ~ (t = t' + 1 /\ u = u') ->
  ~ (t = t' /\ u = u' + 1) ->
  rhs (tset a t u v) t' u' = rhs a t' u'.
Proof.
  intros H2 H3. unfold beta_rhs.
  destruct (Z.eqb_spec u' U), (Z.eqb_spec t' (T - 1)); subst;
    rewrite ?tset_neq by lia; reflexivity.
Qed.

Lemma bwd_inv_advance s s' u :
  inv s -> 0 <= u <= U ->
  0 <= loc_t s u ->
  (u < U -> loc_t s (u + 1) < loc_t s u) ->
  tab s' = tset (tab s) (loc_t s u) u (rhs (tab s) (loc_t s u) u) ->
  loc_t s' = fupd (loc_t s) u (loc_t s u - 1) ->
  returned s' = returned s ->
  length (lock s') = length (lock s) ->
  (forall j, 0 <= j < U ->
     row_at (lock s') j =
     row_at (lock s) j + (if j =? u then 1 else 0)
                       - (if j =? u - 1 then 1 else 0)) ->
  inv s'.
Proof.
  intros I Hu Hge Hnext Htab Ht Hret Hlen Hrow.
  pose proof (bi_t _ _ _ _ _ _ _ I) as It.
  pose proof (bi_ord _ _ _ _ _ _ _ I) as Io.
  constructor.
  - rewrite Hlen. apply I.
  - intros j Hj. rewrite Ht. unfold fupd.
    assert (j = u -> loc_t s j = loc_t s u) by congruence.
    destruct (Z.eqb_spec j u); specialize (It _ Hj); lia.
  - intros j Hj. rewrite Hrow by assumption. rewrite Ht. unfold fupd.
    rewrite (bi_lock _ _ _ _ _ _ _ I) by assumption.
    assert (j + 1 = u -> loc_t s (j + 1) = loc_t s u) by congruence.
    assert (j = u -> loc_t s j = loc_t s u) by congruence.
    destruct (Z.eqb_spec j u), (Z.eqb_spec j (u - 1)),
      (Z.eqb_spec (j + 1) u); lia.
  - intros j Hj. rewrite Ht. unfold fupd.
    assert (j + 1 = u -> loc_t s (j + 1) = loc_t s u) by congruence.
    assert (j = u -> loc_t s j = loc_t s u) by congruence.
    assert (j = u -> loc_t s (j + 1) = loc_t s (u + 1)) by congruence.
    specialize (Io _ Hj).
    destruct (Z.eqb_spec j u), (Z.eqb_spec (j + 1) u); lia.
  - intros t j Hj Htj. rewrite Ht in Htj. unfold fupd in Htj.
    unfold beta_cell_ok. rewrite Htab.
    assert (Hcase : (j = u /\ t = loc_t s u) \/
                    (loc_t s j < t <= T - 1)).
    { destruct (Z.eqb_spec j u); subst; lia. }
    destruct Hcase as [[-> ->]|Hold].
    + rewrite tset_eq. symmetry. apply beta_rhs_tset; lia.
    + assert (u = j -> loc_t s u = loc_t s j) by congruence.
      assert (Hne : ~ (loc_t s u = t /\ u = j)) by lia.
      rewrite tset_neq by lia.
      rewrite beta_rhs_tset; try lia.
      * apply (bi_cells _ _ _ _ _ _ _ I); assumption.
      * intros [E1 E2].
        assert (0 <= j < U) as Hj1 by lia.
        specialize (Io _ Hj1).
        assert (loc_t s (j + 1) = loc_t s u) by (f_equal; lia). lia.
  - intros j Hj Hr. rewrite Hret in Hr.
    pose proof (bi_ret _ _ _ _ _ _ _ I _ Hj Hr) as E.
    rewrite Ht. unfold fupd.
    assert (j = u -> loc_t s j = loc_t s u) by congruence.
    destruct (Z.eqb_spec j u); lia.
Qed.

Lemma bwd_inv_step s u :
  inv s -> 0 <= u < maxU -> inv (step u s).
Proof.
  intros I Hu. unfold cu_kernel_backward.
  destruct (returned s u) eqn:Er; [assumption|].
  destruct (Z.leb_spec u U) as [HuU|HuU]; cbn [andb].
  2:{ assert (I' : inv (set_ret u s)).
      { constructor; simpl; try apply I.
        intros j Hj Hr. rewrite fupd_neq in Hr by lia.
        now apply (bi_ret _ _ _ _ _ _ _ I). }
      destruct (u =? 0); [|exact I'].
      destruct I'; constructor; assumption. }
  pose proof (bi_t _ _ _ _ _ _ _ I u ltac:(lia)) as Itu.
  destruct (Z.leb_spec 0 (loc_t s u)) as [Hge|Hlt].
  2:{ assert (E : loc_t s u = -1) by lia.
      assert (I' : inv (set_ret u s)).
      { constructor; simpl; try apply I.
        intros j Hj Hr. unfold fupd in Hr.
        destruct (Z.eqb_spec j u); subst; auto.
        now apply (bi_ret _ _ _ _ _ _ _ I). }
      destruct (u =? 0); [|exact I'].
      destruct I'; constructor; assumption. }
  destruct (Z.eqb_spec u U) as [->|HuU'].
  - apply (bwd_inv_advance s _ U); try assumption; try lia.
    + simpl. rewrite tab_signal. unfold beta_rhs. rewrite Z.eqb_refl.
      destruct (Z.eqb_spec (loc_t s U) (T - 1)); reflexivity.
    + simpl. rewrite loc_t_signal.
      destruct (loc_t s U =? T - 1); reflexivity.
    + simpl. rewrite returned_signal.
      destruct (loc_t s U =? T - 1); reflexivity.
    + simpl. rewrite length_lock_signal.
      destruct (loc_t s U =? T - 1); reflexivity.
    + intros j Hj. simpl.
      destruct (Z.eqb_spec j U); [lia|].
      destruct (Z.eqb_spec j (U - 1)) as [->|].
      * rewrite row_at_signal_eq.
        -- destruct (loc_t s U =? T - 1); simpl; lia.
        -- apply in_row_true.
           destruct (loc_t s U =? T - 1); simpl;
             rewrite (bi_len _ _ _ _ _ _ _ I); lia.
      * rewrite row_at_signal_neq by lia.
        destruct (loc_t s U =? T - 1); simpl; lia.
  - assert (Hin : in_row (lock s) u = true).
    { apply in_row_true. rewrite (bi_len _ _ _ _ _ _ _ I). lia. }
    rewrite (atomic_add_poll _ _ Hin).
    assert (Es : set_lock (lock s) s = s) by (destruct s; reflexivity).
    rewrite Es.
    rewrite (bi_lock _ _ _ _ _ _ _ I u) by lia.
    destruct (Z.ltb_spec (loc_t s (u + 1) - loc_t s u) 0) as [Hneg|];
      [|assumption].
    apply (bwd_inv_advance s _ u); try assumption; try lia.
    + simpl. rewrite tab_signal.
      assert (Et : forall x, tab (if 0 <? u then signal (u - 1) (-1) x else x)
                         = tab x).
      { intros x. destruct (0 <? u); [apply tab_signal|reflexivity]. }
      rewrite Et. unfold beta_rhs.
      destruct (Z.eqb_spec u U); [lia|].
      destruct (Z.eqb_spec (loc_t s u) (T - 1)); reflexivity.
    + simpl. rewrite loc_t_signal.
      destruct (0 <? u); rewrite ?loc_t_signal;
        destruct (loc_t s u =? T - 1); reflexivity.
    + simpl. rewrite returned_signal.
      destruct (0 <? u); rewrite ?returned_signal;
        destruct (loc_t s u =? T - 1); reflexivity.
    + simpl. rewrite length_lock_signal.
      destruct (0 <? u); rewrite ?length_lock_signal;
        destruct (loc_t s u =? T - 1); reflexivity.
    + intros j Hj. simpl.
      set (s1 := if loc_t s u =? T - 1 then _ else _).
      assert (L1 : lock s1 = lock s).
      { subst s1. destruct (loc_t s u =? T - 1); reflexivity. }
      set (s2 := if 0 <? u then signal (u - 1) (-1) s1 else s1).
      assert (Len2 : length (lock s2) = length (lock s)).
      { subst s2. destruct (0 <? u); rewrite ?length_lock_signal;
          now rewrite L1. }
      assert (R2 : forall k, 0 <= k <= U ->
                 row_at (lock s2) k =
                 row_at (lock s) k - (if k =? u - 1 then 1 else 0)).
      { intros k Hk. subst s2.
        destruct (Z.ltb_spec 0 u).
        - destruct (Z.eqb_spec k (u - 1)) as [->|].
          + rewrite row_at_signal_eq; rewrite L1; [lia|].
            apply in_row_true. rewrite (bi_len _ _ _ _ _ _ _ I). lia.
          + rewrite row_at_signal_neq by lia. rewrite L1. lia.
        - rewrite L1.
          destruct (Z.eqb_spec k (u - 1)); [|lia].
          subst k. lia. }
      destruct (Z.eqb_spec j u) as [->|].
      * rewrite row_at_signal_eq.
        -- rewrite R2 by lia. lia.
        -- apply in_row_true. rewrite Len2.
           rewrite (bi_len _ _ _ _ _ _ _ I). lia.
      * rewrite row_at_signal_neq by lia. rewrite R2 by lia. lia.
Qed.

End BackwardInvariant.

Section BackwardRuns.

Variable lp : lattice.
Variable labels : list Z.
Variables T U blank maxU : Z.
Hypothesis HT : 0 < T.
Hypothesis HU : 0 <= U < maxU.

Local Abbreviation inv := (bwd_inv lp labels T U blank maxU).
Local Abbreviation step := (cu_kernel_backward lp labels T U blank).
Local Abbreviation run := (sweep_run (cu_kernel_backward lp labels T U blank) maxU).

Lemma bwd_inv_init : inv (sweep_init maxU (T - 1)).
Proof.
  constructor; simpl; intros; try lia.
  - apply length_repeat_row. lia.
  - rewrite row_at_repeat. lia.
Qed.

Lemma bwd_inv_run sched s : inv s -> inv (run sched s).
Proof.
  apply sweep_run_ind. intros u s0 Hu I.
  now apply (bwd_inv_step lp labels T U blank maxU HU).
Qed.

Lemma bwd_step_frame u s j :
  j <> u ->
  returned (step u s) j = returned s j /\ loc_t (step u s) j = loc_t s j.
Proof.
  intros Hj. unfold cu_kernel_backward.
  break_step; sweep_fields; rewrite ?fupd_neq by assumption; auto.
Qed.

Lemma bwd_step_tab u s t j :
  ~ (t = loc_t s u /\ j = u) -> tab (step u s) t j = tab s t j.
Proof.
  intros Hj. unfold cu_kernel_backward.
  break_step; sweep_fields; auto; apply tset_neq; lia.
Qed.

Lemma bwd_step_mono u s j : loc_t (step u s) j <= loc_t s j.
Proof.
  unfold cu_kernel_backward.
  break_step; sweep_fields; try lia;
    unfold fupd; destruct (Z.eqb_spec j u); subst; lia.
Qed.

Lemma bwd_step_returned u s j :
  returned s j = true -> returned (step u s) j = true.
Proof.
  intros H. unfold cu_kernel_backward.
  break_step; sweep_fields; auto;
    unfold fupd; destruct (Z.eqb_spec j u); subst; auto.
Qed.

Lemma bwd_step_log_p u s :
  u <> 0 \/ returned s 0 = true ->
  log_p (step u s) = log_p s.
Proof.
  intros H. unfold cu_kernel_backward.
  break_step; sweep_fields; auto;
    repeat match goal with
    | H : (_ =? _) = true |- _ => apply Z.eqb_eq in H
    end; subst; destruct H as [H|H]; try lia; congruence.
Qed.

Lemma bwd_step_done u s : returned s u = true -> step u s = s.
Proof. intros H. unfold cu_kernel_backward. now rewrite H. Qed.

Lemma bwd_step_advance u s :
  inv s -> 0 <= u <= U -> returned s u = false ->
  0 <= loc_t s u -> (u < U -> loc_t s (u + 1) < loc_t s u) ->
  loc_t (step u s) u = loc_t s u - 1 /\ returned (step u s) u = false.
Proof.
  intros I Hu Hr Hge Hnext. unfold cu_kernel_backward. rewrite Hr.
  destruct (Z.leb_spec u U); [|lia].
  destruct (Z.leb_spec 0 (loc_t s u)); [|lia]. cbn [andb].
  destruct (Z.eqb_spec u U) as [->|Hu0].
  - sweep_fields. rewrite fupd_eq.
    destruct (loc_t s U =? T - 1); sweep_fields; auto.
  - assert (Hin : in_row (lock s) u = true).
    { apply in_row_true. rewrite (bi_len _ _ _ _ _ _ _ I). lia. }
    rewrite (atomic_add_poll _ _ Hin).
    rewrite (bi_lock _ _ _ _ _ _ _ I u) by lia.
    destruct (Z.ltb_spec (loc_t s (u + 1) - loc_t s u) 0); [|lia].
    sweep_fields. rewrite fupd_eq.
    destruct (0 <? u), (loc_t s u =? T - 1); sweep_fields; auto.
Qed.

Lemma bwd_step_exit u s :
  returned s u = false -> U < u \/ loc_t s u < 0 ->
  returned (step u s) u = true /\ loc_t (step u s) u = loc_t s u /\
  tab (step u s) = tab s /\
  (u = 0 -> log_p (step u s) = tab s 0 0).
Proof.
  intros Hr Hex. unfold cu_kernel_backward. rewrite Hr.
  destruct (Z.leb_spec u U), (Z.leb_spec 0 (loc_t s u)); cbn [andb];
    try lia;
    destruct (Z.eqb_spec u 0); sweep_fields; rewrite fupd_eq;
      repeat split; auto; lia.
Qed.

Lemma bwd_solo (n : nat) : forall u s,
  inv s -> 0 <= u < maxU ->
  (0 <= u < U -> loc_t s (u + 1) = -1) ->
  (u <= U -> loc_t s u + 2 <= Z.of_nat n) -> (1 <= n)%nat ->
  inv (run (repeat u n) s) /\ returned (run (repeat u n) s) u = true /\
  (u <= U -> loc_t (run (repeat u n) s) u = -1) /\
  (forall j, j <> u -> returned (run (repeat u n) s) j = returned s j /\
                       loc_t (run (repeat u n) s) j = loc_t s j).
Proof.
  induction n as [|n IH]; intros u s I Hu Hprev Hn H1; [lia|].
  cbn [repeat]. rewrite sweep_run_cons by assumption.
  pose proof (bwd_inv_step lp labels T U blank maxU HU s u I Hu) as I1.
  assert (Hframe : forall j, j <> u ->
            returned (step u s) j = returned s j /\
            loc_t (step u s) j = loc_t s j)
    by (intros; now apply bwd_step_frame).
  assert (Hkeep : forall s1, inv s1 -> returned s1 u = true ->
            (u <= U -> loc_t s1 u = -1) ->
            forall m,
            inv (run (repeat u m) s1) /\
            returned (run (repeat u m) s1) u = true /\
            (u <= U -> loc_t (run (repeat u m) s1) u = -1) /\
            (forall j, j <> u ->
               returned (run (repeat u m) s1) j = returned s1 j /\
               loc_t (run (repeat u m) s1) j = loc_t s1 j)).
  { intros s1 Is1 Hr1 Ht1 m. induction m as [|m IHm]; cbn [repeat].
    - simpl. auto.
    - replace (u :: repeat u m) with (repeat u m ++ [u])
        by (change (u :: repeat u m) with (repeat u (S m));
            now rewrite <- repeat_cons).
      rewrite sweep_run_app. destruct IHm as (Ia & Ra & Ta & Fa).
      rewrite sweep_run_cons by assumption. cbn [sweep_run fold_left].
      rewrite (bwd_step_done _ _ Ra). auto. }
  destruct (returned s u) eqn:Er.
  - rewrite (bwd_step_done _ _ Er). apply Hkeep; auto.
    intros. now apply (bi_ret _ _ _ _ _ _ _ I).
  - destruct (Z.leb_spec u U) as [HuU|HuU].
    + pose proof (bi_t _ _ _ _ _ _ _ I u ltac:(lia)) as Itu.
      destruct (Z.leb_spec 0 (loc_t s u)) as [Hge|Hlt].
      * destruct (bwd_step_advance u s I ltac:(lia) Er Hge) as [Ea Eb].
        { intros Hu1. rewrite Hprev by lia. lia. }
        destruct n as [|n]; [lia|].
        destruct (IH u (step u s) I1 Hu) as (Ia & Ra & Ta & Fa); try lia.
        { intros Hu1. destruct (Hframe (u + 1) ltac:(lia)) as [_ ->].
          now apply Hprev. }
        split; [auto|split; [auto|split; [auto|]]].
        intros j Hj. destruct (Fa j Hj) as [-> ->]. now apply Hframe.
      * destruct (bwd_step_exit u s Er ltac:(lia)) as (Ea & Eb & _).
        destruct (Hkeep (step u s) I1 Ea ltac:(lia) n) as (Ia & Ra & Ta & Fa).
        split; [auto|split; [auto|split; [auto|]]].
        intros j Hj. destruct (Fa j Hj) as [-> ->]. now apply Hframe.
    + destruct (bwd_step_exit u s Er ltac:(lia)) as (Ea & Eb & _).
      destruct (Hkeep (step u s) I1 Ea ltac:(lia) n) as (Ia & Ra & Ta & Fa).
      split; [auto|split; [auto|split; [lia|]]].
      intros j Hj. destruct (Fa j Hj) as [-> ->]. now apply Hframe.
Qed.

Lemma bwd_solo_suffix (n : nat) (k : nat) : forall s,
  inv s -> (T + 1 <= Z.of_nat n) -> Z.of_nat k <= maxU ->
  (forall j, Z.of_nat k <= j < maxU ->
     returned s j = true /\ (j <= U -> loc_t s j = -1)) ->
  forall j, 0 <= j < maxU ->
    returned (run (flat_map (fun u => repeat u n) (rev (zrange k))) s) j
    = true.
Proof.
  induction k as [|k IH]; intros s I Hn Hk Hdone j Hj.
  - simpl. apply Hdone. lia.
  - cbn [zrange]. rewrite rev_app_distr. cbn [rev app flat_map].
    rewrite sweep_run_app.
    pose proof (bi_t _ _ _ _ _ _ _ I) as It.
    destruct (bwd_solo n (Z.of_nat k) s I ltac:(lia)) as (Ia & Ra & Ta & Fa).
    + intros Hk1. apply Hdone; lia.
    + intros HkU. specialize (It (Z.of_nat k) ltac:(lia)). lia.
    + lia.
    + apply IH; try assumption; try lia.
      intros i Hi.
      destruct (Z.eq_dec i (Z.of_nat k)) as [->|Hne]; [auto|].
      destruct (Fa i Hne) as [-> ->]. apply Hdone. lia.
Qed.

Lemma bwd_solo_done s :
  inv s ->
  sweep_done maxU (run (solo_schedule_down maxU (Z.to_nat (T + 1))) s) = true.
Proof.
  intros I. apply sweep_done_iff. intros u Hu.
  apply bwd_solo_suffix; try assumption; lia.
Qed.

Lemma bwd_done_cells s :
  inv s -> sweep_done maxU s = true ->
  forall t u, 0 <= t < T -> 0 <= u <= U ->
    beta_cell_ok lp labels T U blank (tab s) t u.
Proof.
  intros I Hd t u Ht Hu.
  apply (bi_cells _ _ _ _ _ _ _ I); [assumption|].
  rewrite (bi_ret _ _ _ _ _ _ _ I u Hu); [lia|].
  apply (proj1 (sweep_done_iff maxU s) Hd). lia.
Qed.

(** Thread 0 is the last of the chain: what it stores in [log_p] is the
    final [beta[0, 0]], in every schedule. *)
Lemma bwd_log_p_inv sched : forall s,
  inv s -> (returned s 0 = true -> log_p s = tab s 0 0) ->
  returned (run sched s) 0 = true ->
  log_p (run sched s) = tab (run sched s) 0 0.
Proof.
  induction sched as [|v l IH]; intros s I Hlp Hr; [simpl in *; auto|].
  destruct (Z.leb_spec 0 v), (Z.ltb_spec v maxU).
  2-4: rewrite sweep_run_skip in * by lia; auto.
  rewrite sweep_run_cons in * by lia.
  apply IH; try assumption.
  - apply (bwd_inv_step lp labels T U blank maxU HU); [assumption|lia].
  - intros Hr1. destruct (returned s 0) eqn:Er0.
    + rewrite bwd_step_log_p by auto.
      rewrite bwd_step_tab; [auto|].
      intros [E1 E2]. subst v.
      pose proof (bi_ret _ _ _ _ _ _ _ I 0 ltac:(lia) Er0). lia.
    + destruct (Z.eq_dec v 0) as [->|Hv].
      * pose proof (bi_t _ _ _ _ _ _ _ I 0 ltac:(lia)) as It0.
        destruct (Z.leb_spec 0 (loc_t s 0)) as [Hge|Hlt].
        -- destruct (returned (step 0 s) 0) eqn:E; [|discriminate].
           exfalso. revert E. unfold cu_kernel_backward. rewrite Er0.
           destruct (Z.leb_spec 0 U); [|lia].
           destruct (Z.leb_spec 0 (loc_t s 0)); [|lia]. cbn [andb].
           break_step; sweep_fields; congruence.
        -- destruct (bwd_step_exit 0 s Er0 ltac:(lia)) as (_ & _ & Etab & Elp).
           rewrite Elp by reflexivity. now rewrite Etab.
      * destruct (bwd_step_frame v s 0 ltac:(lia)) as [E _].
        congruence.
Qed.

Lemma bwd_done_log_p sched :
  sweep_done maxU (run sched (sweep_init maxU (T - 1))) = true ->
  log_p (run sched (sweep_init maxU (T - 1)))
  = tab (run sched (sweep_init maxU (T - 1))) 0 0.
Proof.
  intros Hd. apply bwd_log_p_inv.
  - apply bwd_inv_init.
  - simpl. discriminate.
  - apply (proj1 (sweep_done_iff _ _) Hd). lia.
Qed.

End BackwardRuns.

(** ** The gradient sweep *)

Lemma lset_eq (g : lattice) t u k v : lset g t u k v t u k = v.
Proof. unfold lset. now rewrite !Z.eqb_refl. Qed.

Lemma lset_neq (g : lattice) t u k v t' u' k' :
  t' <> t \/ u' <> u \/ k' <> k -> lset g t u k v t' u' k' = g t' u' k'.
Proof.
  intros H. unfold lset.
  destruct (Z.eqb_spec t' t), (Z.eqb_spec u' u), (Z.eqb_spec k' k);
    simpl; auto. lia.
Qed.

Lemma lset_lset (g : lattice) t u k v w t' u' k' :
  lset (lset g t u k v) t u k w t' u' k' = lset g t u k w t' u' k'.
Proof.
  unfold lset. destruct ((t' =? t) && (u' =? u) && (k' =? k)); reflexivity.
Qed.

Lemma length_zrange n : length (zrange n) = n.
Proof.
  induction n as [|n IH]; simpl; [reflexivity|].
  rewrite length_app, IH. simpl. lia.
Qed.

Ltac zbool :=
  repeat match goal with
  | H : _ && _ = true |- _ => apply andb_true_iff in H; destruct H
  | H : _ || _ = true |- _ => apply orb_true_iff in H; destruct H
  | H : _ || _ = false |- _ => apply orb_false_iff in H; destruct H
  | H : (_ =? _) = true |- _ => apply Z.eqb_eq in H
  | H : (_ =? _) = false |- _ => apply Z.eqb_neq in H
  | H : (_ <? _) = true |- _ => apply Z.ltb_lt in H
  | H : (_ <? _) = false |- _ => apply Z.ltb_ge in H
  | H : (_ <=? _) = true |- _ => apply Z.leb_le in H
  | H : (_ <=? _) = false |- _ => apply Z.leb_gt in H
  end.

Lemma fold_left_snoc {A B : Type} (f : A -> B -> A) l x a :
  fold_left f (l ++ [x]) a = f (fold_left f l a) x.
Proof. now rewrite fold_left_app. Qed.

Lemma combine_snoc {A B : Type} (l1 : list A) (l2 : list B) x y :
  length l1 = length l2 ->
  combine (l1 ++ [x]) (l2 ++ [y]) = combine l1 l2 ++ [(x, y)].
Proof.
  revert l2; induction l1 as [|a l1 IH]; intros [|b l2] H; simpl in *;
    try discriminate; [reflexivity|].
  now rewrite IH by congruence.
Qed.

Ltac zdestruct :=
  repeat match goal with
  | |- context [?a =? ?b] => destruct (Z.eqb_spec a b)
  | |- context [?a <? ?b] => destruct (Z.ltb_spec a b)
  | |- context [?a <=? ?b] => destruct (Z.leb_spec a b)
  end.

(** Case analysis on every comparison of the goal, pruning as it goes. *)
Ltac zsplit :=
  repeat (match goal with
          | |- context [?a =? ?b] => destruct (Z.eqb_spec a b)
          | |- context [?a <? ?b] => destruct (Z.ltb_spec a b)
          | |- context [?a <=? ?b] => destruct (Z.leb_spec a b)
          end; try lia; cbn [andb orb]; subst).

Section GradSweep.

Variable lp : lattice.
Variable labels : list Z.
Variables T U blank : Z.
Variables alpha beta : table.

Local Abbreviation thread := (cu_kernel_compute_grad lp labels T U blank alpha beta).
Local Abbreviation spec := (grad_spec lp labels T U blank alpha beta).

(** The blank loop of thread [t], after [n] iterations. *)
Lemma blank_loop t (n : nat) (g : lattice) t' u' k' :
  fold_left
    (fun g u =>
       let g' := lset g t u blank (alpha t u + beta (t + 1) u)%R in
       lset g' t u blank (- exp (g' t u blank + lp t u blank - beta 0 0))%R)
    (zrange n) g t' u' k'
  = if (t' =? t) && (0 <=? u') && (u' <? Z.of_nat n) && (k' =? blank)
    then blank_grad lp blank alpha beta t u'
    else g t' u' k'.
Proof.
  induction n as [|n IH].
  - simpl. zdestruct; cbn [andb]; reflexivity || lia.
  - cbn [zrange]. rewrite fold_left_snoc. cbv beta zeta in IH |- *.
    rewrite lset_lset, lset_eq. unfold lset at 1. rewrite IH.
    unfold blank_grad.
    zdestruct; cbn [andb]; subst; reflexivity || lia.
Qed.

Lemma enumerate_snoc (l : list Z) (x : Z) :
  enumerate (l ++ [x]) = enumerate l ++ [(Z.of_nat (length l), x)].
Proof.
  unfold enumerate. rewrite length_app. simpl.
  replace (length l + 1)%nat with (S (length l)) by lia.
  cbn [zrange]. now rewrite combine_snoc by apply length_zrange.
Qed.

Lemma label_at_snoc_old (l : list Z) x u :
  0 <= u < Z.of_nat (length l) -> label_at (l ++ [x]) u = label_at l u.
Proof.
  intros H. unfold label_at. destruct (Z.ltb_spec u 0); [lia|].
  apply app_nth1. lia.
Qed.

Lemma label_at_snoc_new (l : list Z) x :
  label_at (l ++ [x]) (Z.of_nat (length l)) = x.
Proof.
  unfold label_at. destruct (Z.ltb_spec (Z.of_nat (length l)) 0); [lia|].
  rewrite Nat2Z.id, app_nth2 by lia. now rewrite Nat.sub_diag.
Qed.

(** The emit loop of thread [t] over a label row [l]. *)
Lemma emit_loop t (l : list Z) : forall (g : lattice) t' u' k',
  fold_left
    (fun g ul =>
       let u := fst ul in
       let l := snd ul in
       if u <? U then
         let g' := lset g t u l (alpha t u + beta t (u + 1))%R in
         lset g' t u l (- exp (g' t u l + lp t u l - beta 0 0))%R
       else g)
    (enumerate l) g t' u' k'
  = if (t' =? t) && (0 <=? u') && (u' <? U)
       && (u' <? Z.of_nat (length l)) && (k' =? label_at l u')
    then emit_grad lp alpha beta t u' k'
    else g t' u' k'.
Proof.
  induction l as [|x l IH] using rev_ind; intros g t' u' k'.
  - simpl. zdestruct; cbn [andb]; reflexivity || lia.
  - rewrite enumerate_snoc, fold_left_snoc. cbv beta zeta in IH |- *.
    cbn [fst snd]. rewrite length_app. cbn [length].
    pose proof (label_at_snoc_new l x) as Hnew.
    pose proof (label_at_snoc_old l x u') as Hold.
    destruct (Z.ltb_spec (Z.of_nat (length l)) U) as [HlU|HlU].
    + rewrite lset_lset, lset_eq. unfold lset at 1. rewrite IH.
      unfold emit_grad.
      destruct (Z.eqb_spec u' (Z.of_nat (length l))) as [->|Hne].
      * rewrite Hnew.
        zdestruct; cbn [andb]; subst; reflexivity || lia.
      * destruct (Z.leb_spec 0 u'), (Z.ltb_spec u' (Z.of_nat (length l)));
          rewrite ?Hold by lia; rewrite ?andb_false_r; cbn [andb];
          zdestruct; cbn [andb]; subst; reflexivity || lia.
    + rewrite IH.
      destruct (Z.leb_spec 0 u'), (Z.ltb_spec u' (Z.of_nat (length l)));
        rewrite ?Hold by lia; rewrite ?andb_false_r; cbn [andb];
        zdestruct; cbn [andb]; subst; reflexivity || lia.
Qed.


(** What the body of thread [t] does to a cell. *)
Lemma grad_thread t (g : lattice) t' u' k' :
  0 <= t ->
  thread t g t' u' k'
  = if writes labels T U blank t t' u' k' then spec t' u' k' else g t' u' k'.
Proof.
  intros Ht. unfold cu_kernel_compute_grad, writes.
  destruct (Z.ltb_spec t T) as [HtT|HtT]; cbn [andb]; [|reflexivity].
  rewrite emit_loop.
  assert (Hb : forall g1 : lattice,
    (if t <? T - 1
     then fold_left
       (fun g u =>
          let g' := lset g t u blank (alpha t u + beta (t + 1) u)%R in
          lset g' t u blank (- exp (g' t u blank + lp t u blank - beta 0 0))%R)
       (zrange (Z.to_nat (U + 1))) g1
     else g1) t' u' k'
    = if (t' =? t) && blank_cell T U blank t' u' k'
      then blank_grad lp blank alpha beta t u' else g1 t' u' k').
  { intros g1. unfold blank_cell.
    destruct (Z.ltb_spec t (T - 1)).
    - rewrite blank_loop. zsplit; reflexivity.
    - zsplit; reflexivity. }
  rewrite Hb. unfold grad_spec, emit_cell, blank_cell, term_cell,
    term_grad, lset.
  zsplit; reflexivity.
Qed.

(** The lattice after the threads of [sched] have run. *)
Lemma grad_run_cell maxT (sched : list Z) : forall (g : lattice) t' u' k',
  grad_run lp labels T U blank alpha beta maxT sched g t' u' k'
  = if existsb (fun t => (0 <=? t) && (t <? maxT)
                         && writes labels T U blank t t' u' k') sched
    then spec t' u' k' else g t' u' k'.
Proof.
  unfold grad_run.
  induction sched as [|t l IH]; intros g t' u' k'; [reflexivity|].
  cbn [fold_left existsb]. rewrite IH.
  destruct (existsb _ l); [now rewrite orb_true_r|].
  rewrite orb_false_r.
  destruct (Z.leb_spec 0 t), (Z.ltb_spec t maxT); cbn [andb];
    try reflexivity.
  now apply grad_thread.
Qed.

End GradSweep.

(** ** Log-domain addition *)

Lemma exp_logaddexp (a b : R) :
  exp (logaddexp a b) = (exp a + exp b)%R.
Proof.
  unfold logaddexp, log1p. rewrite exp_plus.
  assert (Hpos : (0 < 1 + exp (- Rabs (a - b)))%R).
  { pose proof (exp_pos (- Rabs (a - b))). lra. }
  rewrite exp_ln by assumption.
  destruct (Rle_dec a b) as [Hle|Hgt].
  - rewrite Rmax_right by assumption.
    rewrite Rabs_left1 by lra.
    replace (- - (a - b))%R with (a - b)%R by lra.
    rewrite Rmult_plus_distr_l, Rmult_1_r, <- exp_plus.
    replace (b + (a - b))%R with a by lra. lra.
  - rewrite Rmax_left by lra.
    rewrite Rabs_right by lra.
    rewrite Rmult_plus_distr_l, Rmult_1_r, <- exp_plus.
    replace (a + - (a - b))%R with b by lra. lra.
Qed.

Section PathSums.

Variable lp : lattice.
Variable labels : list Z.
Variables T U blank : Z.

Local Abbreviation W := (path_sum lp labels blank).
Local Abbreviation pb := (pblank lp blank).
Local Abbreviation pe := (pemit lp labels).

Lemma path_sum_00 t0 u0 : W t0 u0 0 0 = 1%R.
Proof. reflexivity. Qed.

Lemma path_sum_0S t0 u0 du :
  W t0 u0 0 (S du) = (W t0 u0 0 du * pe t0 (u0 + Z.of_nat du))%R.
Proof. reflexivity. Qed.

Lemma path_sum_S0 t0 u0 dt :
  W t0 u0 (S dt) 0 = (W t0 u0 dt 0 * pb (t0 + Z.of_nat dt) u0)%R.
Proof. reflexivity. Qed.

Lemma path_sum_SS t0 u0 dt du :
  W t0 u0 (S dt) (S du)
  = (W t0 u0 dt (S du) * pb (t0 + Z.of_nat dt) (u0 + Z.of_nat (S du))
     + W t0 u0 (S dt) du * pe (t0 + Z.of_nat (S dt)) (u0 + Z.of_nat du))%R.
Proof. reflexivity. Qed.


(** Bring the coordinates of every weight into ring normal form. *)
Ltac norm_idx :=
  rewrite ?Nat2Z.inj_succ; unfold Z.succ; cbn [Z.of_nat];
  repeat match goal with
  | |- context [pblank _ _ ?a ?b] =>
      first [progress ring_simplify a | progress ring_simplify b]
  | |- context [pemit _ _ ?a ?b] =>
      first [progress ring_simplify a | progress ring_simplify b]
  | |- context [path_sum _ _ _ ?a ?b _ _] =>
      first [progress ring_simplify a | progress ring_simplify b]
  end.

(** A path that is not empty has a first transition. *)
Lemma path_sum_first_step t0 u0 : forall dt du,
  (dt, du) <> (O, O) -> W t0 u0 dt du = first_step lp labels blank t0 u0 dt du.
Proof.
  induction dt as [|dt IHdt]; induction du as [|du IHdu]; intros Hne.
  - congruence.
  - rewrite path_sum_0S. unfold first_step.
    destruct du as [|du].
    + rewrite !path_sum_00. norm_idx. ring.
    + rewrite IHdu by congruence. unfold first_step.
      rewrite (path_sum_0S t0 (u0 + 1) du). norm_idx. ring.
  - rewrite path_sum_S0. unfold first_step.
    destruct dt as [|dt].
    + rewrite !path_sum_00. norm_idx. ring.
    + rewrite (IHdt O) by congruence. unfold first_step.
      rewrite (path_sum_S0 (t0 + 1) u0 dt). norm_idx. ring.
  - rewrite path_sum_SS.
    rewrite (IHdt (S du)) by congruence.
    rewrite IHdu by congruence.
    unfold first_step.
    destruct dt as [|dt], du as [|du].
    + rewrite (path_sum_0S (t0 + 1) u0 0), (path_sum_S0 t0 (u0 + 1) 0).
      norm_idx. ring.
    + rewrite (path_sum_0S (t0 + 1) u0 (S du)),
        (path_sum_SS t0 (u0 + 1) 0 du).
      norm_idx. ring.
    + rewrite (path_sum_SS (t0 + 1) u0 dt 0),
        (path_sum_S0 t0 (u0 + 1) (S dt)).
      norm_idx. ring.
    + rewrite (path_sum_SS (t0 + 1) u0 dt (S du)),
        (path_sum_SS t0 (u0 + 1) (S dt) du).
      norm_idx. ring.
Qed.


(** *** Brute-force enumeration *)

Lemma mass_app l1 l2 : mass (l1 ++ l2) = (mass l1 + mass l2)%R.
Proof.
  unfold mass. induction l1 as [|x l1 IH]; simpl; [ring|].
  rewrite IH. ring.
Qed.

Lemma mass_shift (c : R) (f : list move -> R) (m : move) (l : list (list move)) :
  mass (map (fun p => (c + f p)%R) l) = (exp c * mass (map f l))%R.
Proof.
  unfold mass. induction l as [|x l IH]; simpl; [ring|].
  rewrite IH, exp_plus. ring.
Qed.

Lemma interleavings_S0 nb :
  interleavings (S nb) 0 = map (cons Blank) (interleavings nb 0) ++ [].
Proof. reflexivity. Qed.

Lemma interleavings_SS nb ne :
  interleavings (S nb) (S ne)
  = map (cons Blank) (interleavings nb (S ne))
    ++ map (cons Emit) (interleavings (S nb) ne).
Proof. reflexivity. Qed.

Local Abbreviation closed_score t0 u0 :=
  (fun p => path_score lp labels blank t0 u0 (p ++ [Blank])).

Lemma mass_cons_blank t0 u0 l :
  mass (map (closed_score t0 u0) (map (cons Blank) l))
  = (pb t0 u0 * mass (map (closed_score (t0 + 1) u0) l))%R.
Proof.
  rewrite map_map. cbn [app path_score].
  apply (mass_shift _ (closed_score (t0 + 1) u0) Blank).
Qed.

Lemma mass_cons_emit t0 u0 l :
  mass (map (closed_score t0 u0) (map (cons Emit) l))
  = (pe t0 u0 * mass (map (closed_score t0 (u0 + 1)) l))%R.
Proof.
  rewrite map_map. cbn [app path_score].
  apply (mass_shift _ (closed_score t0 (u0 + 1)) Emit).
Qed.

(** The enumeration of all orders of [nb] blanks and [ne] emits, each
    closed by a blank, has the mass of the recurrence. *)
Lemma interleavings_mass : forall nb ne t0 u0,
  mass (map (closed_score t0 u0) (interleavings nb ne))
  = (W t0 u0 nb ne * pb (t0 + Z.of_nat nb) (u0 + Z.of_nat ne))%R.
Proof.
  induction nb as [|nb IHnb].
  - induction ne as [|ne IHne]; intros t0 u0.
    + unfold mass. simpl. unfold pblank. rewrite !Z.add_0_r, !Rplus_0_r.
      ring.
    + specialize (IHne t0 (u0 + 1)).
      cbn [interleavings repeat map] in IHne |- *.
      cbn [app path_score]. unfold mass in *. cbn [map fold_right] in *.
      rewrite exp_plus.
      rewrite (path_sum_first_step t0 u0 O (S ne)) by congruence.
      unfold first_step.
      replace (exp (path_score lp labels blank t0 (u0 + 1)
                      (repeat Emit ne ++ [Blank])))
        with (W t0 (u0 + 1) 0 ne
              * pb (t0 + Z.of_nat 0) (u0 + 1 + Z.of_nat ne))%R by lra.
      unfold pemit. norm_idx. ring.
  - induction ne as [|ne IHne]; intros t0 u0.
    + rewrite interleavings_S0, app_nil_r, mass_cons_blank, IHnb.
      rewrite (path_sum_first_step t0 u0 (S nb) O) by congruence.
      unfold first_step. norm_idx. ring.
    + rewrite interleavings_SS, map_app, mass_app.
      rewrite mass_cons_blank, mass_cons_emit, IHnb, IHne.
      rewrite (path_sum_first_step t0 u0 (S nb) (S ne)) by congruence.
      unfold first_step. norm_idx. ring.
Qed.

Hypothesis HT : 0 < T.
Hypothesis HU : 0 <= U.

(** A table that satisfies the forward recurrence holds, in the log
    domain, the mass of the paths from the origin. *)
Lemma alpha_path_sum (a : table) :
  (forall t u, 0 <= t < T -> 0 <= u <= U ->
     alpha_cell_ok lp labels blank a t u) ->
  forall dt du, Z.of_nat dt < T -> Z.of_nat du <= U ->
    exp (a (Z.of_nat dt) (Z.of_nat du)) = W 0 0 dt du.
Proof.
  intros Hcells.
  induction dt as [|dt IHdt]; induction du as [|du IHdu]; intros Hdt Hdu;
    match goal with
    | |- exp (a ?t ?u) = _ => rewrite (Hcells t u) by lia
    end; unfold alpha_rhs.
  - simpl. apply exp_0.
  - destruct (Z.eqb_spec (Z.of_nat (S du)) 0); [lia|].
    change (Z.of_nat 0) with 0 in *. rewrite Z.eqb_refl.
    replace (Z.of_nat (S du) - 1) with (Z.of_nat du) by lia.
    rewrite exp_plus, IHdu by lia.
    rewrite path_sum_0S. unfold pemit. now rewrite Z.add_0_l.
  - destruct (Z.eqb_spec (Z.of_nat (S dt)) 0); [lia|].
    change (Z.of_nat 0) with 0 in *. rewrite Z.eqb_refl.
    replace (Z.of_nat (S dt) - 1) with (Z.of_nat dt) by lia.
    specialize (IHdt O). change (Z.of_nat 0) with 0 in IHdt.
    rewrite exp_plus, IHdt by lia.
    rewrite path_sum_S0. unfold pblank. now rewrite Z.add_0_l.
  - destruct (Z.eqb_spec (Z.of_nat (S dt)) 0); [lia|].
    destruct (Z.eqb_spec (Z.of_nat (S du)) 0); [lia|].
    rewrite exp_logaddexp, !exp_plus.
    replace (Z.of_nat (S dt) - 1) with (Z.of_nat dt) by lia.
    replace (Z.of_nat (S du) - 1) with (Z.of_nat du) by lia.
    rewrite IHdt, IHdu by lia.
    rewrite path_sum_SS. unfold pblank, pemit. now rewrite !Z.add_0_l.
Qed.

(** A table that satisfies the backward recurrence holds the mass of the
    paths to [(T - 1, U)], closing blank included. *)
Lemma beta_path_sum (b : table) :
  (forall t u, 0 <= t < T -> 0 <= u <= U ->
     beta_cell_ok lp labels T U blank b t u) ->
  forall dt du t u,
    0 <= t -> 0 <= u ->
    t + Z.of_nat dt = T - 1 -> u + Z.of_nat du = U ->
    exp (b t u) = (W t u dt du * pb (T - 1) U)%R.
Proof.
  intros Hcells.
  induction dt as [|dt IHdt]; induction du as [|du IHdu];
    intros t u Ht Hu Hdt Hdu;
    rewrite (Hcells t u ltac:(lia) ltac:(lia)); unfold beta_rhs.
  - destruct (Z.eqb_spec u U) as [->|]; [|lia].
    destruct (Z.eqb_spec t (T - 1)) as [->|]; [|lia].
    rewrite path_sum_00. unfold pblank. ring.
  - destruct (Z.eqb_spec u U); [lia|].
    destruct (Z.eqb_spec t (T - 1)); [|lia].
    rewrite exp_plus, (IHdu t (u + 1)) by lia.
    rewrite (path_sum_first_step t u O (S du)) by congruence.
    unfold first_step, pemit. ring.
  - destruct (Z.eqb_spec u U); [|lia].
    destruct (Z.eqb_spec t (T - 1)); [lia|].
    rewrite exp_plus, (IHdt O (t + 1) u) by lia.
    rewrite (path_sum_first_step t u (S dt) O) by congruence.
    unfold first_step, pblank. ring.
  - destruct (Z.eqb_spec u U); [lia|].
    destruct (Z.eqb_spec t (T - 1)); [lia|].
    rewrite exp_logaddexp, !exp_plus.
    rewrite (IHdt (S du) (t + 1) u), (IHdu t (u + 1)) by lia.
    rewrite (path_sum_first_step t u (S dt) (S du)) by congruence.
    unfold first_step, pblank, pemit. ring.
Qed.

(** The forward and the backward recurrence give one log-likelihood. *)
Lemma forward_backward_identity (a b : table) :
  (forall t u, 0 <= t < T -> 0 <= u <= U ->
     alpha_cell_ok lp labels blank a t u) ->
  (forall t u, 0 <= t < T -> 0 <= u <= U ->
     beta_cell_ok lp labels T U blank b t u) ->
  Rplus (a (T - 1) U) (lp (T - 1) U blank) = b 0 0.
Proof.
  intros Ha Hb. apply exp_inv. rewrite exp_plus.
  pose proof (alpha_path_sum a Ha (Z.to_nat (T - 1)) (Z.to_nat U)
                ltac:(lia) ltac:(lia)) as Ea.
  rewrite !Z2Nat.id in Ea by lia. rewrite Ea.
  rewrite (beta_path_sum b Hb (Z.to_nat (T - 1)) (Z.to_nat U) 0 0) by lia.
  reflexivity.
Qed.


(** The brute-force log-likelihood is the backward (hence the forward)
    log-likelihood. *)
Lemma brute_force_beta (b : table) :
  (forall t u, 0 <= t < T -> 0 <= u <= U ->
     beta_cell_ok lp labels T U blank b t u) ->
  brute_force_loglik lp labels T U blank = b 0 0.
Proof.
  intros Hb. unfold brute_force_loglik, logsumexp, alignments.
  rewrite map_map, interleavings_mass.
  rewrite !Z2Nat.id, !Z.add_0_l by lia.
  rewrite <- (beta_path_sum b Hb (Z.to_nat (T - 1)) (Z.to_nat U) 0 0)
    by lia.
  apply ln_exp.
Qed.

End PathSums.

(** ** The driver *)

Lemma all_some_map_nth {X Y : Type} (f : X -> option Y) (l : list X) :
  forall rs, all_some (map f l) = Some rs ->
  length rs = length l /\
  forall i dx dy, (i < length l)%nat -> f (nth i l dx) = Some (nth i rs dy).
Proof.
  induction l as [|x l IH]; intros rs H; simpl in H.
  - inversion H. split; [reflexivity|]. simpl. intros. lia.
  - destruct (f x) as [y|] eqn:Ef; [|discriminate].
    destruct (all_some (map f l)) as [ys|] eqn:El; [|discriminate].
    inversion H; subst. destruct (IH ys eq_refl) as [Hlen Hnth].
    split; [simpl; congruence|].
    intros [|i] dx dy Hi; simpl; [assumption|].
    apply Hnth. simpl in Hi. lia.
Qed.

Lemma all_some_total {X Y : Type} (f : X -> option Y) (l : list X) :
  (forall x, In x l -> exists y, f x = Some y) ->
  exists rs, all_some (map f l) = Some rs.
Proof.
  induction l as [|x l IH]; intros H; simpl.
  - now exists [].
  - destruct (H x (or_introl eq_refl)) as [y ->].
    destruct IH as [rs ->]; [intros; apply H; now right|].
    now exists (y :: rs).
Qed.

(** What a finished invocation is made of. *)
Lemma Transducer_forward_inv d scheds batch blank reduction res :
  Transducer_forward d scheds batch blank reduction = Some res ->
  length scheds = length batch /\
  exists rs,
    length rs = length batch /\
    (forall b, (b < length batch)%nat ->
       block_run d blank (nth b batch no_item) (nth b scheds no_schedule)
       = Some (nth b rs (0%R, 0%R, zeros3))) /\
    launched res
    = [(KForward, (Z.of_nat (length batch), maxU d));
       (KBackward, (Z.of_nat (length batch), maxU d));
       (KComputeGrad, (Z.of_nat (length batch), maxT d))] /\
    saved_grads res = map snd rs /\
    output res
    = reduce reduction (nll (map (fun r => fst (fst r)) rs)
                            (map (fun r => snd (fst r)) rs)).
Proof.
  unfold Transducer_forward. intros H.
  destruct (Nat.eqb_spec (length scheds) (length batch)) as [Hlen|];
    [|discriminate].
  split; [assumption|].
  destruct (all_some _) as [rs|] eqn:Ers; [|discriminate].
  inversion H; subst; clear H. exists rs.
  destruct (all_some_map_nth _ _ _ Ers) as [Hl Hn].
  rewrite length_combine, Hlen, Nat.min_id in Hl.
  split; [assumption|]. split; [|auto].
  intros b Hb.
  specialize (Hn b (no_item, no_schedule) (0%R, 0%R, zeros3)).
  rewrite length_combine, Hlen, Nat.min_id in Hn.
  specialize (Hn Hb). rewrite combine_nth in Hn by auto. exact Hn.
Qed.

Lemma block_run_inv d blank it sc r :
  block_run d blank it sc = Some r ->
  sweep_done (maxU d) (forward_sweep d blank it (sch_forward sc)) = true /\
  sweep_done (maxU d) (backward_sweep d blank it (sch_backward sc)) = true /\
  runs_once (maxT d) (sch_grad sc) = true /\
  r = (log_p (forward_sweep d blank it (sch_forward sc)),
       log_p (backward_sweep d blank it (sch_backward sc)),
       grad_sweep d blank it
         (tab (forward_sweep d blank it (sch_forward sc)))
         (tab (backward_sweep d blank it (sch_backward sc)))
         (sch_grad sc)).
Proof.
  unfold block_run. intros H.
  destruct (sweep_done _ (forward_sweep _ _ _ _)); [|discriminate].
  destruct (sweep_done _ (backward_sweep _ _ _ _)); [|discriminate].
  destruct (runs_once _ _); [|discriminate].
  inversion H. auto.
Qed.

Lemma nth_map_default {X Y : Type} (f : X -> Y) l b dx dy :
  (b < length l)%nat -> nth b (map f l) dy = f (nth b l dx).
Proof.
  intros H. rewrite (nth_indep _ dy (f dx)) by now rewrite length_map.
  apply map_nth.
Qed.

Lemma nth_nll la lb b :
  length la = length lb -> (b < length la)%nat ->
  nth b (nll la lb) 0%R = (- (nth b la 0 + nth b lb 0) / 2)%R.
Proof.
  intros Hl Hb. unfold nll.
  rewrite (nth_map_default _ _ _ (0%R, 0%R))
    by (rewrite length_combine; lia).
  now rewrite combine_nth by assumption.
Qed.

Lemma length_nll la lb :
  length la = length lb -> length (nll la lb) = length la.
Proof.
  intros H. unfold nll. rewrite length_map, length_combine. lia.
Qed.

Lemma reduce_cases reduction v :
  (reduction = "mean"%string /\ reduce reduction v = Return (Scalar (tensor_mean v))) \/
  (reduction = "sum"%string /\ reduce reduction v = Return (Scalar (py_sum v))) \/
  (reduction = "none"%string /\ reduce reduction v = Return (Vector v)) \/
  (reduction <> "mean"%string /\ reduction <> "sum"%string /\
   reduction <> "none"%string /\
   reduce reduction v = Raise ("Unexpected reduction " ++ reduction)).
Proof.
  unfold reduce.
  destruct (String.eqb_spec reduction "mean"); [auto|].
  destruct (String.eqb_spec reduction "sum"); [auto|].
  destruct (String.eqb_spec reduction "none"); [auto|].
  right; right; right. auto.
Qed.

Lemma fold_left_Rplus (v : list R) (a : R) :
  fold_left Rplus v a = (a + fold_right Rplus 0 v)%R.
Proof.
  revert a; induction v as [|x v IH]; intros a; simpl; [ring|].
  rewrite IH. ring.
Qed.

(** ** The sweeps of one batch element *)

Ltac eval_sweep :=
  cbv - [Rplus Rminus Rmult Rdiv Rmax Rabs exp ln log1p Ropp Rinv IZR INR
         Rlt Rle Rgt Rge].

Section Item.

Variable d : dims.
Variable blank : Z.
Variable it : item.
Hypothesis Hvalid : valid_item d it.

Local Abbreviation lp := (it_lp it).
Local Abbreviation T := (it_T it).
Local Abbreviation U := (it_U it).

Lemma valid_T : 0 < T.
Proof. destruct Hvalid. lia. Qed.

Lemma valid_U : 0 <= U < maxU d.
Proof. destruct Hvalid. lia. Qed.

(** Every schedule keeps the forward sweep inside its invariant. *)
Lemma forward_sweep_inv sched :
  fwd_inv lp (it_labels it) T U blank (maxU d) (forward_sweep d blank it sched).
Proof.
  unfold forward_sweep. apply fwd_inv_run; [exact valid_U|].
  apply fwd_inv_init; [exact valid_T|exact valid_U].
Qed.

Lemma backward_sweep_inv sched :
  bwd_inv lp (it_labels it) T U blank (maxU d) (backward_sweep d blank it sched).
Proof.
  unfold backward_sweep. apply bwd_inv_run; [exact valid_U|].
  apply bwd_inv_init; [exact valid_T|exact valid_U].
Qed.

(** The forward sweep can always be run to its end: whatever the threads
    have done so far, letting them run one after the other finishes the
    kernel. *)
Theorem forward_sweep_completes sched :
  sweep_done (maxU d)
    (forward_sweep d blank it
       (sched ++ solo_schedule (maxU d) (Z.to_nat (T + 1)))) = true.
Proof.
  unfold forward_sweep. rewrite sweep_run_app.
  apply fwd_solo_done; [exact valid_T|exact valid_U|].
  apply forward_sweep_inv.
Qed.

Theorem backward_sweep_completes sched :
  sweep_done (maxU d)
    (backward_sweep d blank it
       (sched ++ solo_schedule_down (maxU d) (Z.to_nat (T + 1)))) = true.
Proof.
  unfold backward_sweep. rewrite sweep_run_app.
  apply bwd_solo_done; [exact valid_T|exact valid_U|].
  apply backward_sweep_inv.
Qed.

(** In every schedule that finishes the forward kernel the table holds
    the forward recurrence on [0 .. T-1] x [0 .. U]. *)
Theorem forward_alpha_postcondition sched :
  sweep_done (maxU d) (forward_sweep d blank it sched) = true ->
  let alpha := tab (forward_sweep d blank it sched) in
  alpha 0 0 = 0%R /\
  (forall t, 0 < t < T ->
     alpha t 0 = (alpha (t - 1)%Z 0%Z + lp (t - 1) 0 blank)%R) /\
  (forall u, 0 < u <= U ->
     alpha 0 u
     = (alpha 0%Z (u - 1)%Z
        + lp 0 (u - 1) (label_at (it_labels it) (u - 1)))%R) /\
  (forall t u, 0 < t < T -> 0 < u <= U ->
     let no_emit := (alpha (t - 1)%Z u + lp (t - 1) u blank)%R in
     let emit := (alpha t (u - 1)%Z
                  + lp t (u - 1) (label_at (it_labels it) (u - 1)))%R in
     alpha t u
     = (Rmax no_emit emit + log1p (exp (- Rabs (no_emit - emit))))%R).
Proof.
  intros Hd alpha.
  pose proof (fwd_done_cells lp (it_labels it) T U blank (maxU d)
                valid_U _ (forward_sweep_inv sched) Hd) as Hc.
  pose proof valid_T. pose proof valid_U.
  repeat split.
  - specialize (Hc 0 0 ltac:(lia) ltac:(lia)). exact Hc.
  - intros t Ht. specialize (Hc t 0 ltac:(lia) ltac:(lia)).
    unfold alpha_cell_ok, alpha_rhs in Hc. cbn [Z.eqb] in Hc.
    destruct (Z.eqb_spec t 0); [lia|exact Hc].
  - intros u Hu. specialize (Hc 0 u ltac:(lia) ltac:(lia)).
    unfold alpha_cell_ok, alpha_rhs in Hc. cbn [Z.eqb] in Hc.
    destruct (Z.eqb_spec u 0); [lia|exact Hc].
  - intros t u Ht Hu. specialize (Hc t u ltac:(lia) ltac:(lia)).
    unfold alpha_cell_ok, alpha_rhs in Hc.
    destruct (Z.eqb_spec u 0); [lia|].
    destruct (Z.eqb_spec t 0); [lia|exact Hc].
Qed.

(** When thread 0 returns after column [U] is complete, [log_p[b]] is the
    forward log-likelihood of the final table. *)
Theorem forward_log_p_late sched :
  publishes_late d blank it sched ->
  log_p (forward_sweep d blank it sched)
  = (tab (forward_sweep d blank it sched) (T - 1) U + lp (T - 1) U blank)%R.
Proof.
  intros (pre & post & -> & Hr & Ht).
  apply (fwd_log_p_late lp (it_labels it) T U blank (maxU d)
           valid_T valid_U pre post Hr Ht).
Qed.

(** The backward sweep always stores the final [beta[0, 0]]. *)
Theorem backward_log_p sched :
  sweep_done (maxU d) (backward_sweep d blank it sched) = true ->
  log_p (backward_sweep d blank it sched)
  = tab (backward_sweep d blank it sched) 0 0.
Proof.
  apply (bwd_done_log_p lp (it_labels it) T U blank (maxU d)
           valid_T valid_U).
Qed.

(** Forward and backward log-likelihood of the final tables agree, and
    both are the brute-force log-likelihood over all alignments. *)
Theorem forward_backward_tables_agree sf sb :
  sweep_done (maxU d) (forward_sweep d blank it sf) = true ->
  sweep_done (maxU d) (backward_sweep d blank it sb) = true ->
  (tab (forward_sweep d blank it sf) (T - 1) U + lp (T - 1) U blank)%R
  = tab (backward_sweep d blank it sb) 0 0 /\
  tab (backward_sweep d blank it sb) 0 0
  = brute_force_loglik lp (it_labels it) T U blank.
Proof.
  intros Hf Hb. pose proof valid_T. pose proof valid_U.
  pose proof (fwd_done_cells lp (it_labels it) T U blank (maxU d)
                valid_U _ (forward_sweep_inv sf) Hf) as Ha.
  pose proof (bwd_done_cells lp (it_labels it) T U blank (maxU d)
                valid_U _ (backward_sweep_inv sb) Hb) as Hbc.
  split.
  - apply (forward_backward_identity lp (it_labels it) T U blank);
      auto; lia.
  - symmetry.
    apply (brute_force_beta lp (it_labels it) T U blank); auto; lia.
Qed.

(** Under late publication the two stored log-likelihoods are equal. *)
Theorem loglik_agree_late sf sb :
  publishes_late d blank it sf ->
  sweep_done (maxU d) (forward_sweep d blank it sf) = true ->
  sweep_done (maxU d) (backward_sweep d blank it sb) = true ->
  log_p (forward_sweep d blank it sf) = log_p (backward_sweep d blank it sb).
Proof.
  intros Hl Hf Hb.
  rewrite forward_log_p_late, backward_log_p by assumption.
  now apply forward_backward_tables_agree.
Qed.

End Item.

Lemma runs_once_In n sched t :
  runs_once n sched = true -> 0 <= t < n -> In t sched.
Proof.
  unfold runs_once. intros H Ht. apply andb_true_iff in H as [H _].
  rewrite forallb_forall in H.
  specialize (H t ltac:(apply in_zrange; lia)).
  apply Nat.eqb_eq in H.
  apply (count_occ_In Z.eq_dec). lia.
Qed.

Lemma count_occ_zrange (n : nat) t :
  count_occ Z.eq_dec (zrange n) t
  = if (0 <=? t) && (t <? Z.of_nat n) then 1%nat else 0%nat.
Proof.
  induction n as [|n IH].
  - simpl. destruct (Z.leb_spec 0 t), (Z.ltb_spec t 0); simpl; auto; lia.
  - cbn [zrange]. rewrite count_occ_app, IH. cbn [count_occ].
    destruct (Z.eq_dec (Z.of_nat n) t);
      destruct (Z.leb_spec 0 t), (Z.ltb_spec t (Z.of_nat n)),
        (Z.ltb_spec t (Z.of_nat (S n))); simpl; lia.
Qed.

Lemma runs_once_zrange n : 0 <= n -> runs_once n (zrange (Z.to_nat n)) = true.
Proof.
  intros Hn. unfold runs_once. apply andb_true_iff. split.
  - apply forallb_forall. intros t Ht. apply in_zrange in Ht.
    rewrite count_occ_zrange.
    destruct (Z.leb_spec 0 t), (Z.ltb_spec t (Z.of_nat (Z.to_nat n)));
      simpl; lia || reflexivity.
  - apply forallb_forall. intros t Ht. apply in_zrange in Ht.
    apply andb_true_iff. rewrite Z.leb_le, Z.ltb_lt. lia.
Qed.

Section ItemGradient.

Variable d : dims.
Variable blank : Z.
Variable it : item.
Hypothesis Hvalid : valid_item d it.
Hypothesis Hlabels : valid_labels d blank it.

Local Abbreviation lp := (it_lp it).
Local Abbreviation labels := (it_labels it).
Local Abbreviation T := (it_T it).
Local Abbreviation U := (it_U it).

Variables alpha beta : table.
Variable sched : list Z.
Hypothesis Hsched : runs_once (maxT d) sched = true.

Local Abbreviation g := (grad_sweep d blank it alpha beta sched).

Lemma grad_sweep_written t t' u' k' :
  0 <= t < maxT d -> writes labels T U blank t t' u' k' = true ->
  g t' u' k' = grad_spec lp labels T U blank alpha beta t' u' k'.
Proof.
  intros Ht Hw. unfold grad_sweep. rewrite grad_run_cell.
  replace (existsb _ sched) with true; [reflexivity|].
  symmetry. apply existsb_exists. exists t. split.
  - now apply (runs_once_In (maxT d)).
  - rewrite Hw. destruct (Z.leb_spec 0 t), (Z.ltb_spec t (maxT d));
      simpl; auto; lia.
Qed.

Lemma grad_sweep_cases t' u' k' :
  g t' u' k' = grad_spec lp labels T U blank alpha beta t' u' k' \/
  g t' u' k' = 0%R.
Proof.
  unfold grad_sweep. rewrite grad_run_cell.
  destruct (existsb _ sched); [left|right]; reflexivity.
Qed.

(** The gradient lattice of the block, cell by cell. *)
Theorem grad_sweep_postcondition :
  g (T - 1) U blank
  = (- exp (alpha (T - 1)%Z U + lp (T - 1) U blank - beta 0%Z 0%Z))%R /\
  (forall t u, 0 <= t < T - 1 -> 0 <= u <= U ->
     g t u blank
     = (- exp (alpha t u + beta (t + 1)%Z u + lp t u blank
               - beta 0%Z 0%Z))%R) /\
  (forall t u, 0 <= t < T -> 0 <= u < U ->
     g t u (label_at labels u)
     = (- exp (alpha t u + beta t (u + 1)%Z + lp t u (label_at labels u)
               - beta 0%Z 0%Z))%R) /\
  (forall t u k,
     ~ (t = T - 1 /\ u = U /\ k = blank) ->
     ~ (0 <= t < T - 1 /\ 0 <= u <= U /\ k = blank) ->
     ~ (0 <= t < T /\ 0 <= u < U /\ k = label_at labels u) ->
     g t u k = 0%R).
Proof.
  destruct Hvalid as [HT HU]. destruct Hlabels as [Hlen Hnb].
  split; [|split; [|split]].
  - rewrite (grad_sweep_written 0) by
      (try lia; unfold writes, emit_cell, blank_cell, term_cell;
       zsplit; reflexivity).
    unfold grad_spec, emit_cell, blank_cell, term_cell, term_grad.
    zsplit; reflexivity.
  - intros t u Ht Hu.
    rewrite (grad_sweep_written t) by
      (try lia; unfold writes, emit_cell, blank_cell, term_cell;
       zsplit; reflexivity).
    unfold grad_spec, emit_cell, blank_cell, term_cell, blank_grad.
    destruct (Z.eqb_spec blank (label_at labels u)) as [E|E].
    + destruct (Z.ltb_spec u U) as [HuU|HuU].
      * exfalso. apply (Hnb u); [lia|congruence].
      * zsplit; reflexivity.
    + zsplit; reflexivity.
  - intros t u Ht Hu.
    rewrite (grad_sweep_written t) by
      (try lia; unfold writes, emit_cell, blank_cell, term_cell;
       zsplit; reflexivity).
    unfold grad_spec, emit_cell, blank_cell, term_cell, emit_grad.
    zsplit; reflexivity.
  - intros t u k H1 H2 H3.
    destruct (grad_sweep_cases t u k) as [E|E]; [|exact E].
    rewrite E.
    unfold grad_spec, emit_cell, blank_cell, term_cell.
    zsplit; try reflexivity; exfalso; tauto.
Qed.

End ItemGradient.

(** ** Losses of one batch element *)

Lemma block_loglik d blank it sc r :
  valid_item d it ->
  block_run d blank it sc = Some r ->
  snd (fst r) = brute_force_loglik (it_lp it) (it_labels it) (it_T it) (it_U it) blank /\
  (publishes_late d blank it (sch_forward sc) ->
   fst (fst r) = brute_force_loglik (it_lp it) (it_labels it) (it_T it) (it_U it) blank).
Proof.
  intros Hv Hr. destruct (block_run_inv _ _ _ _ _ Hr) as (Hf & Hb & _ & ->).
  cbn [fst snd].
  destruct (forward_backward_tables_agree d blank it Hv _ _ Hf Hb) as [E1 E2].
  split.
  - now rewrite backward_log_p.
  - intros Hl. rewrite forward_log_p_late by assumption. congruence.
Qed.

Lemma ln5_pos : (0 < ln 5)%R.
Proof. rewrite <- ln_1. apply ln_increasing; lra. Qed.

Lemma doc_valid lp : valid_item doc_dims (doc_item lp).
Proof. unfold valid_item. simpl. lia. Qed.

Lemma small_valid lp : valid_item small_dims (small_item lp).
Proof. unfold valid_item. simpl. lia. Qed.

Lemma doc_publishes_late lp :
  publishes_late doc_dims 0 (doc_item lp) (sch_forward doc_schedule).
Proof.
  exists [0; 0; 1; 1; 2; 2], [1; 2]. repeat split.
Qed.

Lemma small_publishes_late lp blank :
  publishes_late small_dims blank (small_item lp) (sch_forward late_schedule).
Proof.
  exists [0; 1; 1], []. repeat split.
Qed.

(** A batch of one element: what the three reductions return. *)
Lemma single_loss d sc it blank reduction res :
  valid_item d it ->
  publishes_late d blank it (sch_forward sc) ->
  Transducer_forward d [sc] [it] blank reduction = Some res ->
  let ref := (- brute_force_loglik (it_lp it) (it_labels it)
                  (it_T it) (it_U it) blank)%R in
  output res = reduce reduction [ref] /\
  reduce "mean" [ref] = Return (Scalar ref) /\
  reduce "sum" [ref] = Return (Scalar ref) /\
  reduce "none" [ref] = Return (Vector [ref]).
Proof.
  intros Hv Hl Hrun ref.
  destruct (Transducer_forward_inv _ _ _ _ _ _ Hrun)
    as (_ & rs & Hlen & Hnth & _ & _ & Hout).
  specialize (Hnth 0%nat ltac:(simpl; lia)). cbn [nth] in Hnth.
  destruct rs as [|r [|r' rs]]; try discriminate. cbn [nth] in Hnth.
  destruct (block_loglik _ _ _ _ _ Hv Hnth) as [Eb Ea].
  specialize (Ea Hl).
  assert (En : nll (map (fun r => fst (fst r)) [r])
                   (map (fun r => snd (fst r)) [r]) = [ref]).
  { unfold nll. cbn [map combine fst snd]. rewrite Ea, Eb.
    f_equal. subst ref. lra. }
  rewrite En in Hout. split; [exact Hout|].
  unfold reduce, tensor_mean, py_sum. cbn [String.eqb Ascii.eqb Bool.eqb
    fold_left length INR].
  repeat split; do 2 f_equal; lra.
Qed.


Lemma Transducer_forward_eq d scheds batch blank reduction :
  Transducer_forward d scheds batch blank reduction
  = match batch_run d scheds batch blank with
    | Some rs =>
        Some (mk_result
                [(KForward, (Z.of_nat (length batch), maxU d));
                 (KBackward, (Z.of_nat (length batch), maxU d));
                 (KComputeGrad, (Z.of_nat (length batch), maxT d))]
                (map snd rs)
                (reduce reduction (nll (map (fun r => fst (fst r)) rs)
                                       (map (fun r => snd (fst r)) rs))))
    | None => None
    end.
Proof.
  unfold Transducer_forward, batch_run.
  destruct (Nat.eqb _ _); [|reflexivity].
  destruct (all_some _); reflexivity.
Qed.

Lemma batch_run_length d scheds batch blank rs :
  batch_run d scheds batch blank = Some rs -> length rs = length batch.
Proof.
  unfold batch_run.
  destruct (Nat.eqb_spec (length scheds) (length batch)) as [Hlen|];
    [|discriminate].
  intros H. destruct (all_some_map_nth _ _ _ H) as [Hl _].
  rewrite length_combine in Hl. lia.
Qed.

(** A batch of one element whose schedule finishes the three kernels. *)
Lemma Transducer_forward_single d sc it blank reduction :
  sweep_done (maxU d) (forward_sweep d blank it (sch_forward sc)) = true ->
  sweep_done (maxU d) (backward_sweep d blank it (sch_backward sc)) = true ->
  runs_once (maxT d) (sch_grad sc) = true ->
  Transducer_forward d [sc] [it] blank reduction
  = Some (mk_result
            [(KForward, (1, maxU d)); (KBackward, (1, maxU d));
             (KComputeGrad, (1, maxT d))]
            [grad_sweep d blank it
               (tab (forward_sweep d blank it (sch_forward sc)))
               (tab (backward_sweep d blank it (sch_backward sc)))
               (sch_grad sc)]
            (reduce reduction
               [(- (log_p (forward_sweep d blank it (sch_forward sc))
                    + log_p (backward_sweep d blank it (sch_backward sc)))
                 / 2)%R])).
Proof.
  intros Hf Hb Hg. rewrite Transducer_forward_eq. unfold batch_run, block_run.
  cbn [length Nat.eqb combine map fst snd all_some].
  rewrite Hf, Hb, Hg. reflexivity.
Qed.

Lemma doc_done lp blank :
  sweep_done (maxU doc_dims)
    (forward_sweep doc_dims blank (doc_item lp) (sch_forward doc_schedule))
  = true /\
  sweep_done (maxU doc_dims)
    (backward_sweep doc_dims blank (doc_item lp) (sch_backward doc_schedule))
  = true /\
  runs_once (maxT doc_dims) (sch_grad doc_schedule) = true.
Proof. repeat split; vm_compute; reflexivity. Qed.

Lemma small_done lp blank sc :
  sc = early_schedule \/ sc = late_schedule ->
  sweep_done (maxU small_dims)
    (forward_sweep small_dims blank (small_item lp) (sch_forward sc))
  = true /\
  sweep_done (maxU small_dims)
    (backward_sweep small_dims blank (small_item lp) (sch_backward sc))
  = true /\
  runs_once (maxT small_dims) (sch_grad sc) = true.
Proof. intros [->| ->]; repeat split; vm_compute; reflexivity. Qed.
(** * The claims *)

(** ** C1 *)

Lemma alignments_2_2 :
  alignments 2 2
  = [[Blank; Emit; Emit; Blank]; [Emit; Blank; Emit; Blank];
     [Emit; Emit; Blank; Blank]].
Proof. reflexivity. Qed.

(** C1, as stated, fails: in the scenario of the docstring ([T = 2],
    [U = 2], labels [[1, 2]], blank 0) the valid monotonic alignments are
    three, not two; with uniform log-probabilities the loss that
    [Transducer.forward] returns is not the negated log-sum-exp of any two
    of them. *)
Lemma C1_alignments_are_three_not_two :
  length (alignments 2 2) = 3%nat /\
  exists res,
    Transducer_forward doc_dims [doc_schedule] [doc_item uniform5] 0 "mean"
    = Some res /\
    forall p q, In p (alignments 2 2) -> In q (alignments 2 2) ->
      output res
      <> Return (Scalar (- logsumexp [path_score uniform5 [1; 2] 0 0 0 p;
                                      path_score uniform5 [1; 2] 0 0 0 q])).
Proof.
  split; [reflexivity|].
  destruct (doc_done uniform5 0) as (Hf & Hb & Hg).
  pose proof (Transducer_forward_single doc_dims doc_schedule
                (doc_item uniform5) 0 "mean" Hf Hb Hg) as Hrun.
  eexists. split; [exact Hrun|].
  intros p q Hp Hq.
  destruct (single_loss doc_dims doc_schedule (doc_item uniform5) 0
              "mean" _ (doc_valid _) (doc_publishes_late _) Hrun)
    as (Hout & Hmean & _).
  rewrite Hout, Hmean. intros E. injection E as E.
  apply Ropp_eq_compat in E. rewrite !Ropp_involutive in E.
  cbn [doc_item it_lp it_labels it_T it_U] in E.
  unfold brute_force_loglik, logsumexp in E.
  set (e := exp (- ln 5 + (- ln 5 + (- ln 5 + (- ln 5 + 0))))) in *.
  assert (He : (0 < e)%R) by apply exp_pos.
  assert (Hall : mass (map (path_score uniform5 [1; 2] 0 0 0) (alignments 2 2))
                 = (3 * e)%R).
  { rewrite alignments_2_2. unfold mass.
    cbn [map fold_right path_score]. unfold uniform5. fold e. ring. }
  assert (Htwo : mass [path_score uniform5 [1; 2] 0 0 0 p;
                       path_score uniform5 [1; 2] 0 0 0 q]
                 = (2 * e)%R).
  { rewrite alignments_2_2 in Hp, Hq. cbn [In] in Hp, Hq.
    destruct Hp as [<-|[<-|[<-|[]]]]; destruct Hq as [<-|[<-|[<-|[]]]];
      unfold mass; cbn [map fold_right path_score]; unfold uniform5;
      fold e; ring. }
  rewrite Hall, Htwo in E. apply ln_inv in E; lra.
Qed.

(** C1, amended: in the scenario of the docstring the loss that
    [Transducer.forward] returns (the scalar under [mean] and [sum], the
    one-entry vector under [none]) is the negated log-sum-exp of the path
    log-probabilities of the three valid monotonic alignments, in every
    execution where thread 0 of the forward sweep stores [log_p] after
    column [U] is complete. *)
Theorem C1_loss_is_brute_force_over_three_alignments
    (lp : lattice) (sc : schedule) (reduction : string) (res : forward_result) :
  publishes_late doc_dims 0 (doc_item lp) (sch_forward sc) ->
  Transducer_forward doc_dims [sc] [doc_item lp] 0 reduction = Some res ->
  let ref := Ropp (logsumexp (map (path_score lp [1; 2] 0 0 0)
                                  (alignments 2 2))) in
  length (alignments 2 2) = 3%nat /\
  (reduction = "mean"%string -> output res = Return (Scalar ref)) /\
  (reduction = "sum"%string -> output res = Return (Scalar ref)) /\
  (reduction = "none"%string -> output res = Return (Vector [ref])).
Proof.
  intros Hl Hrun ref.
  destruct (single_loss _ _ _ _ _ _ (doc_valid lp) Hl Hrun)
    as (Hout & Hmean & Hsum & Hnone).
  split; [reflexivity|].
  repeat split; intros ->; rewrite Hout; assumption.
Qed.

Lemma C1_witness :
  exists res,
    Transducer_forward doc_dims [doc_schedule] [doc_item uniform5] 0 "mean"
    = Some res /\
    output res
    = Return (Scalar (- logsumexp (map (path_score uniform5 [1; 2] 0 0 0)
                                       (alignments 2 2)))).
Proof.
  destruct (doc_done uniform5 0) as (Hf & Hb & Hg).
  pose proof (Transducer_forward_single doc_dims doc_schedule
                (doc_item uniform5) 0 "mean" Hf Hb Hg) as Hrun.
  eexists. split; [exact Hrun|].
  destruct (C1_loss_is_brute_force_over_three_alignments uniform5
              doc_schedule "mean" _ (doc_publishes_late uniform5) Hrun)
    as (_ & Hmean & _).
  exact (Hmean eq_refl).
Defined.

(** ** C2 *)

(** C2 on the tables: in every execution that finishes both sweeps on a
    valid batch element, the forward log-likelihood of the final [alpha]
    table is the value the backward sweep stores in [log_p_beta[b]], and
    the stored [log_p_alpha[b]] is equal to it when thread 0 of the
    forward sweep stores it after column [U] is complete. *)
Theorem forward_backward_loglik d blank it sf sb :
  valid_item d it ->
  sweep_done (maxU d) (forward_sweep d blank it sf) = true ->
  sweep_done (maxU d) (backward_sweep d blank it sb) = true ->
  (tab (forward_sweep d blank it sf) (it_T it - 1) (it_U it)
   + it_lp it (it_T it - 1) (it_U it) blank)%R
  = log_p (backward_sweep d blank it sb) /\
  (publishes_late d blank it sf ->
   log_p (forward_sweep d blank it sf) = log_p (backward_sweep d blank it sb) /\
   (Rabs (log_p (forward_sweep d blank it sf)
          - log_p (backward_sweep d blank it sb)) < 1 / 1000)%R).
Proof.
  intros Hv Hf Hb. split.
  - rewrite backward_log_p by assumption.
    now apply forward_backward_tables_agree.
  - intros Hl. rewrite (loglik_agree_late d blank it Hv sf sb Hl Hf Hb).
    split; [reflexivity|].
    rewrite Rminus_diag, Rabs_R0. lra.
Qed.

(** C2 fails on the code: one time step, one label, uniform
    log-probabilities, thread 0 of the forward sweep scheduled before
    thread 1. Both kernels finish; thread 0 has read [alpha[0, 1]] before
    thread 1 wrote it, so [log_p_alpha = - ln 5] while
    [log_p_beta = - 2 ln 5]. *)
Theorem C2_loglik_differ_when_thread0_runs_ahead :
  let fa := forward_sweep small_dims 0 (small_item uniform5)
              (sch_forward early_schedule) in
  let fb := backward_sweep small_dims 0 (small_item uniform5)
              (sch_backward early_schedule) in
  sweep_done 2 fa = true /\ sweep_done 2 fb = true /\
  log_p fa = (- ln 5)%R /\ log_p fb = (- ln 5 + - ln 5)%R /\
  log_p fa <> log_p fb /\
  (Rabs (log_p fa - log_p fb) > 1 / 1000)%R.
Proof.
  intros fa fb.
  assert (Ea : log_p fa = (- ln 5)%R).
  { subst fa. eval_sweep. lra. }
  assert (Eb : log_p fb = (- ln 5 + - ln 5)%R).
  { subst fb. eval_sweep. lra. }
  pose proof ln5_pos as Hpos.
  assert (Hbig : (1 < ln 5)%R).
  { rewrite <- (ln_exp 1). apply ln_increasing; [apply exp_pos|].
    pose proof exp_le_3. lra. }
  repeat split; try reflexivity; try assumption.
  - rewrite Ea, Eb. lra.
  - rewrite Ea, Eb.
    replace (- ln 5 - (- ln 5 + - ln 5))%R with (ln 5) by lra.
    rewrite Rabs_right; lra.
Qed.

(** ** C3 *)

(** C3 fails on the code in its last clause: same input and schedule.
    The kernel finishes, the final table has
    [alpha[0, 1] = alpha[0, 0] + log_probs[0, 0, 1] = - ln 5], but the
    stored [log_p] is [0 + log_probs[0, 1, 0] = - ln 5], not
    [alpha[0, 1] + log_probs[0, 1, 0] = - 2 ln 5]. *)
Theorem C3_log_p_read_before_last_column :
  let fa := forward_sweep small_dims 0 (small_item uniform5)
              (sch_forward early_schedule) in
  sweep_done 2 fa = true /\
  tab fa 0 1 = (tab fa 0 0 + uniform5 0 0 1)%R /\
  log_p fa = (0 + uniform5 0 1 0)%R /\
  log_p fa <> (tab fa (1 - 1) 1 + uniform5 (1 - 1) 1 0)%R.
Proof.
  intros fa. pose proof ln5_pos as Hpos.
  repeat split; try reflexivity.
  subst fa. eval_sweep. lra.
Qed.


(** ** C4 *)



Lemma doc_valid_labels lp : valid_labels doc_dims 0 (doc_item lp).
Proof.
  split; [reflexivity|]. cbn [doc_item it_U it_labels]. intros u Hu.
  assert (E : u = 0 \/ u = 1) by lia.
  destruct E as [->| ->]; vm_compute; discriminate.
Qed.


(** ** C5 *)

(** C5: under [reduction = "none"] a finished invocation returns a vector
    with one entry per batch element, and entry [b] is
    [-(log_p_alpha[b] + log_p_beta[b]) / 2], the two values being the ones
    the forward and the backward sweep of block [b] stored. *)
Theorem C5_per_batch_loss d scheds batch blank res (b : nat) :
  Transducer_forward d scheds batch blank "none" = Some res ->
  (b < length batch)%nat ->
  let it := nth b batch no_item in
  let sc := nth b scheds no_schedule in
  let forward_loglik := log_p (forward_sweep d blank it (sch_forward sc)) in
  let backward_loglik := log_p (backward_sweep d blank it (sch_backward sc)) in
  exists v,
    output res = Return (Vector v) /\
    length v = length batch /\
    nth b v 0%R = (- (forward_loglik + backward_loglik) / 2)%R.
Proof.
  intros Hrun Hb it sc fl bl.
  destruct (Transducer_forward_inv _ _ _ _ _ _ Hrun)
    as (_ & rs & Hlen & Hnth & _ & _ & Hout).
  destruct (block_run_inv _ _ _ _ _ (Hnth b Hb)) as (_ & _ & _ & Er).
  fold it sc in Er.
  eexists. split; [exact Hout|]. split.
  - rewrite length_nll; rewrite !length_map; auto.
  - rewrite nth_nll by (rewrite !length_map; lia).
    rewrite !(nth_map_default _ _ _ (0%R, 0%R, zeros3)) by lia.
    rewrite Er. reflexivity.
Qed.

Lemma C5_witness :
  exists res v,
    Transducer_forward doc_dims [doc_schedule] [doc_item uniform5] 0 "none"
    = Some res /\
    output res = Return (Vector v) /\
    nth 0 v 0%R
    = (- (log_p (forward_sweep doc_dims 0 (doc_item uniform5)
                   (sch_forward doc_schedule))
          + log_p (backward_sweep doc_dims 0 (doc_item uniform5)
                     (sch_backward doc_schedule))) / 2)%R.
Proof.
  destruct (doc_done uniform5 0) as (Hf & Hb & Hg).
  pose proof (Transducer_forward_single doc_dims doc_schedule
                (doc_item uniform5) 0 "none" Hf Hb Hg) as Hrun.
  destruct (C5_per_batch_loss doc_dims [doc_schedule] [doc_item uniform5] 0
              _ 0%nat Hrun (Nat.lt_0_succ 0)) as (v & Hout & _ & Hv).
  eexists. exists v. split; [exact Hrun|]. split; assumption.
Defined.

(** ** C6 *)

(** C6: on one input, with the device schedules fixed, the scalar
    returned under ["sum"] is the sum of the entries of the vector
    returned under ["none"], and the scalar returned under ["mean"] is
    that sum divided by the batch size [B]. *)
Theorem C6_reduction_laws d scheds batch blank r_none r_sum r_mean :
  Transducer_forward d scheds batch blank "none" = Some r_none ->
  Transducer_forward d scheds batch blank "sum" = Some r_sum ->
  Transducer_forward d scheds batch blank "mean" = Some r_mean ->
  exists v,
    output r_none = Return (Vector v) /\
    output r_sum = Return (Scalar (fold_right Rplus 0%R v)) /\
    output r_mean
    = Return (Scalar (fold_right Rplus 0%R v / INR (length batch))%R).
Proof.
  rewrite !Transducer_forward_eq.
  destruct (batch_run d scheds batch blank) as [rs|] eqn:Ers; [|discriminate].
  intros Hn Hs Hm. inversion Hn; inversion Hs; inversion Hm; subst.
  cbn [output].
  exists (nll (map (fun r => fst (fst r)) rs) (map (fun r => snd (fst r)) rs)).
  split; [reflexivity|].
  unfold reduce, py_sum, tensor_mean.
  cbn [String.eqb Ascii.eqb Bool.eqb].
  rewrite length_nll, length_map by now rewrite !length_map.
  rewrite (batch_run_length _ _ _ _ _ Ers), fold_left_Rplus, Rplus_0_l.
  split; reflexivity.
Qed.

Lemma C6_witness :
  exists r_none r_sum r_mean v,
    Transducer_forward doc_dims [doc_schedule] [doc_item uniform5] 0 "none"
    = Some r_none /\
    Transducer_forward doc_dims [doc_schedule] [doc_item uniform5] 0 "sum"
    = Some r_sum /\
    Transducer_forward doc_dims [doc_schedule] [doc_item uniform5] 0 "mean"
    = Some r_mean /\
    output r_none = Return (Vector v) /\
    output r_sum = Return (Scalar (fold_right Rplus 0%R v)) /\
    output r_mean = Return (Scalar (fold_right Rplus 0%R v / INR 1)%R).
Proof.
  destruct (doc_done uniform5 0) as (Hf & Hb & Hg).
  pose proof (Transducer_forward_single doc_dims doc_schedule
                (doc_item uniform5) 0 "none" Hf Hb Hg) as Hn.
  pose proof (Transducer_forward_single doc_dims doc_schedule
                (doc_item uniform5) 0 "sum" Hf Hb Hg) as Hs.
  pose proof (Transducer_forward_single doc_dims doc_schedule
                (doc_item uniform5) 0 "mean" Hf Hb Hg) as Hm.
  destruct (C6_reduction_laws doc_dims [doc_schedule] [doc_item uniform5] 0
              _ _ _ Hn Hs Hm) as (v & H1 & H2 & H3).
  do 3 eexists. exists v.
  split; [exact Hn|]. split; [exact Hs|]. split; [exact Hm|].
  repeat split; assumption.
Defined.

(** ** Every valid batch has a finished invocation *)

Lemma block_run_default d blank it :
  valid_item d it ->
  exists r, block_run d blank it (default_schedule d it) = Some r.
Proof.
  intros Hv. unfold block_run, default_schedule.
  cbn [sch_forward sch_backward sch_grad].
  rewrite (forward_sweep_completes d blank it Hv).
  pose proof (backward_sweep_completes d blank it Hv []) as Hb.
  cbn [app] in Hb. rewrite Hb.
  rewrite runs_once_zrange by (destruct Hv; lia).
  eexists. reflexivity.
Qed.

(** Finished invocations exist for every valid batch: under the default
    schedules (each kernel's threads one after the other) all three
    sweeps of every block finish and [Transducer.forward] returns, for
    any blank id and any reduction argument. *)
Theorem Transducer_forward_total d batch blank reduction :
  (forall it, In it batch -> valid_item d it) ->
  exists res,
    Transducer_forward d (map (default_schedule d) batch) batch blank reduction
    = Some res.
Proof.
  intros Hv. rewrite Transducer_forward_eq. unfold batch_run.
  rewrite length_map, Nat.eqb_refl.
  destruct (all_some_total
              (fun bs => block_run d blank (fst bs) (snd bs))
              (combine batch (map (default_schedule d) batch))) as [rs ->].
  - intros [it sc] Hin. cbn [fst snd].
    assert (sc = default_schedule d it /\ In it batch) as [-> Hit].
    { clear - Hin. induction batch as [|x l IH]; simpl in Hin; [tauto|].
      destruct Hin as [E|Hin].
      - inversion E; subst. split; [reflexivity|now left].
      - destruct (IH Hin). split; [assumption|now right]. }
    apply block_run_default. now apply Hv.
  - eexists. reflexivity.
Qed.

(** ** C7 *)

(** C7, as stated, fails: with the unknown reduction ["max"] the
    invocation does raise, but not immediately: the three kernels have
    been launched and run and [ctx.grads] has been assigned before. *)
Lemma C7_raise_comes_after_the_sweeps :
  exists res,
    Transducer_forward small_dims [late_schedule] [small_item uniform5] 0 "max"
    = Some res /\
    output res = Raise "Unexpected reduction max" /\
    launched res
    = [(KForward, (1, 2)); (KBackward, (1, 2)); (KComputeGrad, (1, 1))] /\
    length (saved_grads res) = 1%nat /\
    nth 0 (saved_grads res) zeros3 0 1 0
    = (- exp (0 + uniform5 0 0 1 + uniform5 0 1 0
              - (uniform5 0 1 0 + uniform5 0 0 1)))%R.
Proof.
  destruct (small_done uniform5 0 late_schedule (or_intror eq_refl))
    as (Hf & Hb & Hg).
  pose proof (Transducer_forward_single small_dims late_schedule
                (small_item uniform5) 0 "max" Hf Hb Hg) as Hrun.
  eexists. split; [exact Hrun|]. cbn [output launched saved_grads].
  repeat split; cbn [nth]; eval_sweep; reflexivity.
Qed.

(** C7, amended: a finished invocation has launched the three kernels in
    the order forward, backward, gradient; after them, for every reduction
    argument other than ["mean"], ["sum"] and ["none"] it raises
    ["Unexpected reduction <argument>"] and falls back to no policy, and
    for the three enumerated values it returns a value and does not
    raise. *)
Theorem C7_unknown_reduction_raises d scheds batch blank reduction res :
  Transducer_forward d scheds batch blank reduction = Some res ->
  launched res
  = [(KForward, (Z.of_nat (length batch), maxU d));
     (KBackward, (Z.of_nat (length batch), maxU d));
     (KComputeGrad, (Z.of_nat (length batch), maxT d))] /\
  (reduction <> "mean"%string -> reduction <> "sum"%string ->
   reduction <> "none"%string ->
   output res = Raise ("Unexpected reduction " ++ reduction)) /\
  (reduction = "mean"%string \/ reduction = "sum"%string \/
   reduction = "none"%string ->
   exists v, output res = Return v).
Proof.
  intros Hrun.
  destruct (Transducer_forward_inv _ _ _ _ _ _ Hrun)
    as (_ & rs & _ & _ & Hl & _ & Hout).
  split; [exact Hl|]. rewrite Hout.
  destruct (reduce_cases reduction
              (nll (map (fun r => fst (fst r)) rs)
                   (map (fun r => snd (fst r)) rs)))
    as [[E ->]|[[E ->]|[[E ->]|(N1 & N2 & N3 & ->)]]].
  - split; [congruence|eauto].
  - split; [congruence|eauto].
  - split; [congruence|eauto].
  - split; [reflexivity|]. intros [E|[E|E]]; congruence.
Qed.

Lemma C7_witness :
  exists res,
    Transducer_forward small_dims [late_schedule] [small_item uniform5] 0 "max"
    = Some res /\
    output res = Raise "Unexpected reduction max".
Proof.
  destruct (small_done uniform5 0 late_schedule (or_intror eq_refl))
    as (Hf & Hb & Hg).
  pose proof (Transducer_forward_single small_dims late_schedule
                (small_item uniform5) 0 "max" Hf Hb Hg) as Hrun.
  eexists. split; [exact Hrun|].
  destruct (C7_unknown_reduction_raises small_dims [late_schedule]
              [small_item uniform5] 0 "max" _ Hrun) as (_ & Hraise & _).
  apply Hraise; discriminate.
Defined.

(** ** C8 *)

(** C8, as stated, fails. With [blank_id = -1] (outside [0, A), lengths
    in range) the invocation raises nothing: it launches the three
    kernels and returns a loss. With [T[b] = 0] (blank in range) it does
    the same: no cell of [alpha] or [beta] is written, the forward
    kernel stores [alpha[-1, U] + log_probs[-1, U, blank] = 0 - ln 5]
    (index [-1] names the last frame), the backward kernel stores the
    zero of [beta[0, 0]], and the loss returned is [ln 5 / 2]. *)
Lemma C8_invalid_input_is_not_rejected :
  (exists res loss,
     Transducer_forward small_dims [late_schedule] [small_item uniform5]
       (-1) "mean" = Some res /\
     launched res
     = [(KForward, (1, 2)); (KBackward, (1, 2)); (KComputeGrad, (1, 1))] /\
     output res = Return (Scalar loss)) /\
  (~ valid_item small_dims (no_frame_item uniform5) /\
   exists res,
     Transducer_forward small_dims [no_frame_schedule]
       [no_frame_item uniform5] 0 "mean" = Some res /\
     launched res
     = [(KForward, (1, 2)); (KBackward, (1, 2)); (KComputeGrad, (1, 1))] /\
     output res = Return (Scalar (ln 5 / 2)%R)).
Proof.
  split.
  - destruct (small_done uniform5 (-1) late_schedule (or_intror eq_refl))
      as (Hf & Hb & Hg).
    pose proof (Transducer_forward_single small_dims late_schedule
                  (small_item uniform5) (-1) "mean" Hf Hb Hg) as Hrun.
    do 2 eexists. split; [exact Hrun|]. split; reflexivity.
  - split; [unfold valid_item; simpl; lia|].
    assert (Hrun : Transducer_forward small_dims [no_frame_schedule]
                     [no_frame_item uniform5] 0 "mean" = Some _)
      by (apply Transducer_forward_single; vm_compute; reflexivity).
    eexists. split; [exact Hrun|]. split; [reflexivity|].
    cbn [output]. eval_sweep. do 2 f_equal. cbn [INR]. lra.
Qed.

(** The backward kernel with [U[b] >= maxU]: every thread of the block
    waits for a doorbell, and the thread [u = U[b]] that would ring the
    first one was not launched. No step changes the state. *)
Lemma backward_sweep_stuck d blank it sched :
  0 < it_T it -> 0 < maxU d <= it_U it ->
  backward_sweep d blank it sched = sweep_init (maxU d) (it_T it - 1).
Proof.
  intros HT HU. unfold backward_sweep.
  apply (sweep_run_ind (fun s => s = sweep_init (maxU d) (it_T it - 1))).
  - intros u s Hu ->. unfold cu_kernel_backward.
    cbn [sweep_init returned loc_t lock].
    destruct (Z.leb_spec u (it_U it)); [|lia].
    destruct (Z.leb_spec 0 (it_T it - 1)); [|lia].
    destruct (Z.eqb_spec u (it_U it)); [lia|]. cbn [andb].
    rewrite atomic_add_poll
      by (apply in_row_true; rewrite repeat_length; lia).
    rewrite row_at_repeat. reflexivity.
  - reflexivity.
Qed.

Lemma sweep_init_not_done maxU t0 :
  0 < maxU -> sweep_done maxU (sweep_init maxU t0) = false.
Proof.
  intros H. destruct (sweep_done maxU (sweep_init maxU t0)) eqn:E;
    [|reflexivity].
  pose proof (proj1 (sweep_done_iff _ _) E 0 ltac:(lia)) as H0.
  discriminate H0.
Qed.

(** C8, amended: the invocation validates neither [blank_id] nor the
    lengths. Whatever the input, an invocation that returns has launched
    the three kernels on it, and the only error it can raise is the one
    for an unrecognised reduction, after the kernels. An input with
    [U[b] >= maxU] (and [T[b] > 0]) is not rejected either: under every
    schedule the backward kernel of block [b] never finishes, so the
    invocation does not return and raises nothing. *)
Theorem C8_no_validation_before_launch d scheds batch blank reduction :
  (forall res,
     Transducer_forward d scheds batch blank reduction = Some res ->
     launched res
     = [(KForward, (Z.of_nat (length batch), maxU d));
        (KBackward, (Z.of_nat (length batch), maxU d));
        (KComputeGrad, (Z.of_nat (length batch), maxT d))] /\
     length (saved_grads res) = length batch /\
     forall msg, output res = Raise msg ->
       msg = ("Unexpected reduction " ++ reduction)%string /\
       reduction <> "mean"%string /\ reduction <> "sum"%string /\
       reduction <> "none"%string) /\
  (forall it,
     In it batch -> 0 < it_T it -> 0 < maxU d <= it_U it ->
     Transducer_forward d scheds batch blank reduction = None).
Proof.
  split.
  - intros res Hrun.
    destruct (Transducer_forward_inv _ _ _ _ _ _ Hrun)
      as (_ & rs & Hlen & _ & Hl & Hg & Hout).
    split; [exact Hl|]. split; [now rewrite Hg, length_map|].
    intros msg. rewrite Hout.
    destruct (reduce_cases reduction
                (nll (map (fun r => fst (fst r)) rs)
                     (map (fun r => snd (fst r)) rs)))
      as [[E ->]|[[E ->]|[[E ->]|(N1 & N2 & N3 & ->)]]]; try discriminate.
    intros H. inversion H. auto.
  - intros it Hin HT HU.
    destruct (Transducer_forward d scheds batch blank reduction) as [res|]
      eqn:Hrun; [exfalso|reflexivity].
    destruct (Transducer_forward_inv _ _ _ _ _ _ Hrun)
      as (_ & rs & _ & Hnth & _).
    destruct (In_nth _ _ no_item Hin) as (b & Hb & Eb).
    specialize (Hnth b Hb). rewrite Eb in Hnth.
    destruct (block_run_inv _ _ _ _ _ Hnth) as (_ & Hd & _).
    rewrite backward_sweep_stuck in Hd by assumption.
    rewrite sweep_init_not_done in Hd by lia. discriminate.
Qed.

Lemma C8_witness :
  (exists res,
     Transducer_forward small_dims [no_frame_schedule]
       [no_frame_item uniform5] (-1) "mean" = Some res /\
     length (saved_grads res) = 1%nat /\
     forall msg, output res <> Raise msg) /\
  Transducer_forward small_dims [late_schedule] [long_target_item uniform5]
    0 "mean" = None.
Proof.
  split.
  - assert (Hrun : Transducer_forward small_dims [no_frame_schedule]
                     [no_frame_item uniform5] (-1) "mean" = Some _)
      by (apply Transducer_forward_single; vm_compute; reflexivity).
    eexists. split; [exact Hrun|].
    destruct (proj1 (C8_no_validation_before_launch small_dims
                       [no_frame_schedule] [no_frame_item uniform5] (-1)
                       "mean") _ Hrun) as (_ & Hlen & Hraise).
    split; [exact Hlen|]. intros msg Hmsg.
    destruct (Hraise msg Hmsg) as (_ & N & _). now apply N.
  - apply (proj2 (C8_no_validation_before_launch small_dims [late_schedule]
                    [long_target_item uniform5] 0 "mean")
             (long_target_item uniform5) (or_introl eq_refl));
      simpl; lia.
Defined.

(** ** C9 *)

Lemma atomic_add_outside row i dlt :
  Z.of_nat (length row) <= i -> atomic_add row i dlt = None.
Proof.
  intros H. unfold atomic_add. cbv zeta.
  rewrite wraparound_nonneg by lia.
  now rewrite (proj2 (in_row_false row i)) by lia.
Qed.

Lemma row_at_signal_last d s :
  (0 < length (lock s))%nat ->
  oob (signal (-1) d s) = oob s /\
  row_at (lock (signal (-1) d s)) (Z.of_nat (length (lock s)) - 1)
  = row_at (lock s) (Z.of_nat (length (lock s)) - 1) + d.
Proof.
  intros H.
  assert (Hin : in_row (lock s) (Z.of_nat (length (lock s)) - 1) = true)
    by (apply in_row_true; lia).
  split.
  - now rewrite oob_signal_wrap, wraparound_last, Hin.
  - unfold signal, atomic_add. cbv zeta. rewrite wraparound_last, Hin.
    cbn [lock set_lock]. unfold row_at at 1.
    apply nth_set_nth_eq. lia.
Qed.

(** The backward kernel with an empty target: the one working thread is
    [u = U[b] = 0]; each of its iterations rings index [-1], that is the
    last counter of the row. *)
Lemma bwd_step_empty_target lp labels T blank maxU s u :
  0 < T -> 0 < maxU ->
  bwd_inv lp labels T 0 blank maxU s ->
  oob s = [] ->
  row_at (lock s) (maxU - 1) = loc_t s 0 - (T - 1) ->
  0 <= u < maxU ->
  let s' := cu_kernel_backward lp labels T 0 blank u s in
  oob s' = [] /\ row_at (lock s') (maxU - 1) = loc_t s' 0 - (T - 1).
Proof.
  intros HT HmU I Ho Hr Hu. cbv zeta.
  pose proof (bi_len _ _ _ _ _ _ _ I) as Hlen.
  unfold cu_kernel_backward.
  destruct (returned s u); [auto|].
  destruct (Z.leb_spec u 0); cbn [andb].
  - assert (u = 0) by lia. subst u.
    destruct (Z.leb_spec 0 (loc_t s 0)).
    + rewrite Z.eqb_refl. cbn [oob lock loc_t set_t].
      rewrite fupd_eq.
      set (s1 := if loc_t s 0 =? T - 1 then _ else _).
      assert (L1 : lock s1 = lock s /\ oob s1 = oob s)
        by (subst s1; destruct (loc_t s 0 =? T - 1); split; reflexivity).
      destruct L1 as [L1 O1].
      destruct (row_at_signal_last (-1) s1) as [E1 E2];
        [rewrite L1; lia|].
      change (0 - 1) with (-1). rewrite E1, O1. split; [exact Ho|].
      rewrite L1, Hlen in E2. rewrite E2, Hr. lia.
    + destruct (0 =? 0); cbn [oob lock loc_t set_ret set_log_p]; auto.
  - destruct (u =? 0); cbn [oob lock loc_t set_ret set_log_p]; auto.
Qed.

(** C9, as stated, fails in its backward half: [T[b] = 1], [U[b] = 0] on
    a row of [maxU = 2] counters. The decrement of thread [u = U[b] = 0]
    at index [u - 1 = -1] is counted from the end of the row: it lands on
    the counter [lock[b, 1]], inside the array, and the backward kernel
    finishes without any access outside the row. *)
Lemma C9_backward_decrement_wraps_into_the_row :
  valid_item small_dims (blank_only_item uniform5) /\
  atomic_add [0; 0] (0 - 1) (-1) = Some (0, [0; -1]) /\
  let fb := backward_sweep small_dims 0 (blank_only_item uniform5)
              (sch_backward blank_only_schedule) in
  sweep_done 2 fb = true /\ lock fb = [0; -1] /\ oob fb = [].
Proof.
  split; [unfold valid_item; simpl; lia|].
  split; [reflexivity|].
  cbv zeta. repeat split; vm_compute; reflexivity.
Qed.

(** C9, amended: on inputs that satisfy the length invariant, the
    forward doorbell falls outside the counter row [lock[b]] (indices
    [0 .. maxU-1]) when [maxU = 1]: the first step of thread [u = 0]
    updates index [u + 1 = 1], the checked update returns [None] and the
    index is recorded in the [oob] log of the block. The backward
    doorbell of thread [u = U[b] = 0] at index [u - 1 = -1] does not: in
    every schedule no access of the backward kernel leaves the row, and
    the decrements land on the last counter [lock[b, maxU-1]], which no
    thread reads and which holds [- T[b]] when the kernel is over. *)
Theorem C9_boundary_doorbells d blank it sched :
  valid_item d it ->
  (maxU d = 1 ->
   atomic_add (lock (sweep_init (maxU d) 0)) (0 + 1) (-1) = None /\
   oob (forward_sweep d blank it [0]) = [1]) /\
  (it_U it = 0 ->
   let fb := backward_sweep d blank it sched in
   oob fb = [] /\
   row_at (lock fb) (maxU d - 1) = loc_t fb 0 - (it_T it - 1) /\
   (sweep_done (maxU d) fb = true -> row_at (lock fb) (maxU d - 1) = - it_T it)).
Proof.
  intros Hv. pose proof Hv as [HT HU]. split.
  - intros HmU. split.
    + apply atomic_add_outside. cbn [sweep_init lock].
      rewrite repeat_length. lia.
    + assert (HU0 : it_U it = 0) by lia.
      unfold forward_sweep. rewrite sweep_run_cons by lia.
      cbn [sweep_run fold_left]. unfold cu_kernel_forward.
      cbn [sweep_init returned loc_t]. rewrite HU0.
      destruct (Z.ltb_spec 0 (it_T it)); [|lia].
      cbn [Z.leb Z.eqb Z.compare].
      cbn [oob set_t]. rewrite oob_signal by lia.
      cbn [set_tab lock oob sweep_init]. rewrite HmU.
      reflexivity.
  - intros HU0 fb.
    assert (H : bwd_inv (it_lp it) (it_labels it) (it_T it) 0 blank (maxU d) fb
                /\ oob fb = []
                /\ row_at (lock fb) (maxU d - 1) = loc_t fb 0 - (it_T it - 1)).
    { subst fb. unfold backward_sweep. rewrite HU0.
      apply sweep_run_ind.
      - intros u s Hu (I & Ho & Hr). split.
        + apply bwd_inv_step; [lia|assumption|assumption].
        + apply bwd_step_empty_target; auto; lia.
      - split; [apply bwd_inv_init; lia|]. split; [reflexivity|].
        cbn [sweep_init lock loc_t]. rewrite row_at_repeat. lia. }
    destruct H as (I & Ho & Hr).
    split; [exact Ho|]. split; [exact Hr|].
    intros Hd. rewrite Hr.
    rewrite (bi_ret _ _ _ _ _ _ _ I 0); [lia|lia|].
    apply (proj1 (sweep_done_iff _ _) Hd). lia.
Qed.

Lemma C9_witness :
  (atomic_add [0] 1 (-1) = None /\
   oob (forward_sweep (mk_dims 1 1 5) 0 (mk_item uniform5 [] 1 0) [0]) = [1]) /\
  oob (backward_sweep (mk_dims 1 1 5) 0 (mk_item uniform5 [] 1 0) [0; 0]) = [] /\
  row_at (lock (backward_sweep (mk_dims 1 1 5) 0 (mk_item uniform5 [] 1 0)
                  [0; 0])) (1 - 1) = - 1.
Proof.
  assert (Hv : valid_item (mk_dims 1 1 5) (mk_item uniform5 [] 1 0))
    by (unfold valid_item; simpl; lia).
  destruct (C9_boundary_doorbells (mk_dims 1 1 5) 0
              (mk_item uniform5 [] 1 0) [0; 0] Hv) as [Hf Hb].
  destruct (Hb eq_refl) as (Hb1 & _ & Hb3).
  split; [exact (Hf eq_refl)|]. split; [exact Hb1|].
  apply Hb3. vm_compute. reflexivity.
Defined.

(** ** C10 *)

Lemma nth_error_heap_set_eq (h : heap) a t :
  (a < length h)%nat -> nth_error (heap_set h a t) a = Some t.
Proof.
  revert a; induction h as [|x h IH]; intros [|a] H; simpl in *;
    try lia; auto.
  apply IH. lia.
Qed.

Lemma length_mul_from b t go : length (mul_from b t go) = length t.
Proof.
  revert b; induction t as [|g t IH]; intros b; simpl; auto.
Qed.

Lemma nth_mul_from t go : forall b0 b tt u k,
  (b < length t)%nat ->
  nth b (mul_from b0 t go) zeros3 tt u k
  = (nth b t zeros3 tt u k * broadcast go (b0 + b))%R.
Proof.
  induction t as [|g t IH]; intros b0 [|b] tt u k Hb; simpl in *; try lia.
  - now rewrite Nat.add_0_r.
  - rewrite IH by lia. do 2 f_equal. lia.
Qed.

Lemma save_grads_lookup h grads :
  nth_error (fst (save_grads h grads)) (ctx_grads (snd (save_grads h grads)))
  = Some grads.
Proof.
  unfold save_grads. cbn [fst snd ctx_grads].
  rewrite nth_error_app2 by lia. now rewrite Nat.sub_diag.
Qed.

Lemma Transducer_backward_inv h ctx go h' a g :
  nth_error h (ctx_grads ctx) = Some g ->
  Transducer_backward h ctx go = Some (h', a) ->
  a = ctx_grads ctx /\
  h' = heap_set h (ctx_grads ctx) (mul_ g go) /\
  nth_error h' (ctx_grads ctx) = Some (mul_ g go).
Proof.
  intros Hg. unfold Transducer_backward. rewrite Hg.
  destruct (_ || _); [|discriminate].
  intros H. inversion H; subst. repeat split.
  apply nth_error_heap_set_eq. apply nth_error_Some. congruence.
Qed.

(** C10: [Transducer.backward] multiplies the lattice saved in
    [ctx.grads] in place and returns that same object: after the call the
    object [ctx.grads] holds the gradient scaled by the upstream gradient
    [g1], and the returned reference is [ctx.grads]. A second call with
    upstream gradient [g2] on the same context returns the gradient scaled
    by [g1] and by [g2]; where the gradient and [g2] are not zero and
    [g1] is not one, this is not the gradient scaled by [g2] alone. *)
Theorem C10_backward_scales_in_place
    (h : heap) (grads : tensor) (g1 g2 : list R)
    (h1 h2 : heap) (a1 a2 : nat) :
  let h0 := fst (save_grads h grads) in
  let ctx := snd (save_grads h grads) in
  Transducer_backward h0 ctx g1 = Some (h1, a1) ->
  Transducer_backward h1 ctx g2 = Some (h2, a2) ->
  a1 = ctx_grads ctx /\ a2 = ctx_grads ctx /\
  exists once twice,
    nth_error h1 (ctx_grads ctx) = Some once /\
    nth_error h2 (ctx_grads ctx) = Some twice /\
    forall (b : nat) t u k, (b < length grads)%nat ->
      nth b once zeros3 t u k
      = (nth b grads zeros3 t u k * broadcast g1 b)%R /\
      nth b twice zeros3 t u k
      = (nth b grads zeros3 t u k * broadcast g1 b * broadcast g2 b)%R /\
      (nth b grads zeros3 t u k <> 0%R -> broadcast g2 b <> 0%R ->
       broadcast g1 b <> 1%R ->
       nth b twice zeros3 t u k
       <> (nth b grads zeros3 t u k * broadcast g2 b)%R).
Proof.
  intros h0 ctx H1 H2.
  pose proof (save_grads_lookup h grads) as Hg. fold h0 ctx in Hg.
  destruct (Transducer_backward_inv _ _ _ _ _ _ Hg H1) as (E1 & _ & L1).
  destruct (Transducer_backward_inv _ _ _ _ _ _ L1 H2) as (E2 & _ & L2).
  split; [assumption|]. split; [assumption|].
  exists (mul_ grads g1), (mul_ (mul_ grads g1) g2).
  split; [assumption|]. split; [assumption|].
  intros b t u k Hb. unfold mul_.
  assert (Eo : nth b (mul_from 0 grads g1) zeros3 t u k
               = (nth b grads zeros3 t u k * broadcast g1 b)%R)
    by (now rewrite nth_mul_from).
  assert (Et : nth b (mul_from 0 (mul_from 0 grads g1) g2) zeros3 t u k
               = (nth b grads zeros3 t u k * broadcast g1 b
                  * broadcast g2 b)%R).
  { rewrite nth_mul_from by now rewrite length_mul_from.
    now rewrite Eo. }
  split; [exact Eo|]. split; [exact Et|].
  intros Hn0 Hg2 Hg1. rewrite Et. intros E.
  apply Hg1.
  apply (Rmult_eq_reg_l (nth b grads zeros3 t u k * broadcast g2 b)%R).
  - lra.
  - apply Rmult_integral_contrapositive_currified; assumption.
Qed.

Lemma C10_witness :
  exists h1 h2 twice,
    Transducer_backward [[fun _ _ _ => 1%R]] (mk_context 0) [2%R]
    = Some (h1, 0%nat) /\
    Transducer_backward h1 (mk_context 0) [3%R] = Some (h2, 0%nat) /\
    nth_error h2 0 = Some twice /\
    nth 0 twice zeros3 0 0 0 = (1 * 2 * 3)%R.
Proof.
  do 2 eexists.
  destruct (C10_backward_scales_in_place [] [fun _ _ _ => 1%R] [2%R] [3%R]
              _ _ 0%nat 0%nat eq_refl eq_refl)
    as (_ & _ & once & twice & _ & Ht & Hcell).
  exists twice. split; [reflexivity|]. split; [reflexivity|].
  split; [exact Ht|].
  apply (Hcell 0%nat 0 0 0 (Nat.lt_0_succ 0)).
Defined.

(** * Further properties of the kernels *)

(** ** The backward sweep *)

(** In every schedule that finishes the backward kernel on a valid batch
    element, the table holds the backward recurrence on
    [0 .. T-1] x [0 .. U], and [log_p[b]] is the final [beta[0, 0]]. *)
Theorem backward_beta_postcondition d blank it sched :
  valid_item d it ->
  sweep_done (maxU d) (backward_sweep d blank it sched) = true ->
  let beta := tab (backward_sweep d blank it sched) in
  let T := it_T it in
  let U := it_U it in
  beta (T - 1) U = it_lp it (T - 1) U blank /\
  (forall t, 0 <= t < T - 1 ->
     beta t U = (beta (t + 1)%Z U + it_lp it t U blank)%R) /\
  (forall u, 0 <= u < U ->
     beta (T - 1) u
     = (beta (T - 1)%Z (u + 1)%Z
        + it_lp it (T - 1) u (label_at (it_labels it) u))%R) /\
  (forall t u, 0 <= t < T - 1 -> 0 <= u < U ->
     let emit := (beta t (u + 1)%Z + it_lp it t u (label_at (it_labels it) u))%R in
     let no_emit := (beta (t + 1)%Z u + it_lp it t u blank)%R in
     beta t u
     = (Rmax no_emit emit + log1p (exp (- Rabs (no_emit - emit))))%R) /\
  log_p (backward_sweep d blank it sched) = beta 0 0.
Proof.
  intros Hv Hd beta T U.
  pose proof (bwd_done_cells (it_lp it) (it_labels it) T U blank (maxU d)
                (valid_U d it Hv) _ (backward_sweep_inv d blank it Hv sched) Hd)
    as Hc.
  pose proof (valid_T d it Hv). pose proof (valid_U d it Hv).
  split; [|split; [|split; [|split]]].
  - specialize (Hc (T - 1) U ltac:(lia) ltac:(lia)).
    unfold beta_cell_ok, beta_rhs in Hc. now rewrite !Z.eqb_refl in Hc.
  - intros t Ht. specialize (Hc t U ltac:(lia) ltac:(lia)).
    unfold beta_cell_ok, beta_rhs in Hc. rewrite Z.eqb_refl in Hc.
    destruct (Z.eqb_spec t (T - 1)); [lia|exact Hc].
  - intros u Hu. specialize (Hc (T - 1) u ltac:(lia) ltac:(lia)).
    unfold beta_cell_ok, beta_rhs in Hc. rewrite Z.eqb_refl in Hc.
    destruct (Z.eqb_spec u U); [lia|exact Hc].
  - intros t u Ht Hu. specialize (Hc t u ltac:(lia) ltac:(lia)).
    unfold beta_cell_ok, beta_rhs in Hc.
    destruct (Z.eqb_spec u U); [lia|].
    destruct (Z.eqb_spec t (T - 1)); [lia|exact Hc].
  - now apply backward_log_p.
Qed.

Lemma backward_beta_postcondition_witness :
  log_p (backward_sweep doc_dims 0 (doc_item uniform5)
           (sch_backward doc_schedule))
  = tab (backward_sweep doc_dims 0 (doc_item uniform5)
           (sch_backward doc_schedule)) 0 0.
Proof.
  apply (backward_beta_postcondition doc_dims 0 (doc_item uniform5)
           (sch_backward doc_schedule) (doc_valid uniform5)).
  vm_compute. reflexivity.
Defined.

(** ** Termination of the sweeps *)

(** The doorbells cannot deadlock: from every state that some schedule
    reaches, letting the threads run one after the other (from thread 0
    up in the forward sweep, from the last thread down in the backward
    sweep, [T + 1] steps each) finishes the kernel. *)
Theorem sweeps_never_deadlock d blank it sf sb :
  valid_item d it ->
  sweep_done (maxU d)
    (forward_sweep d blank it
       (sf ++ solo_schedule (maxU d) (Z.to_nat (it_T it + 1)))) = true /\
  sweep_done (maxU d)
    (backward_sweep d blank it
       (sb ++ solo_schedule_down (maxU d) (Z.to_nat (it_T it + 1)))) = true.
Proof.
  intros Hv. split.
  - now apply forward_sweep_completes.
  - now apply backward_sweep_completes.
Qed.

Lemma sweeps_never_deadlock_witness :
  sweep_done 3
    (forward_sweep doc_dims 0 (doc_item uniform5)
       ([2; 1; 1; 0] ++ solo_schedule 3 (Z.to_nat (2 + 1)))) = true /\
  sweep_done 3
    (backward_sweep doc_dims 0 (doc_item uniform5)
       ([0; 1; 2; 0] ++ solo_schedule_down 3 (Z.to_nat (2 + 1)))) = true.
Proof.
  exact (sweeps_never_deadlock doc_dims 0 (doc_item uniform5)
           [2; 1; 1; 0] [0; 1; 2; 0] (doc_valid uniform5)).
Defined.

(** ** Witnesses for the forward sweep *)

Lemma forward_alpha_postcondition_witness :
  tab (forward_sweep doc_dims 0 (doc_item uniform5)
         (sch_forward doc_schedule)) 0 0 = 0%R.
Proof.
  apply (forward_alpha_postcondition doc_dims 0 (doc_item uniform5)
           (doc_valid uniform5) (sch_forward doc_schedule)).
  vm_compute. reflexivity.
Defined.

(** When thread 0 of the forward sweep takes its last step after column
    [U] is complete, the [log_p[b]] it stores is the forward
    log-likelihood of the final table, and this is the log-sum-exp of the
    log-probabilities of all alignments of the block. *)
Theorem forward_log_p_correct_when_stored_late d blank it sched :
  valid_item d it ->
  publishes_late d blank it sched ->
  sweep_done (maxU d) (forward_sweep d blank it sched) = true ->
  log_p (forward_sweep d blank it sched)
  = (tab (forward_sweep d blank it sched) (it_T it - 1) (it_U it)
     + it_lp it (it_T it - 1) (it_U it) blank)%R /\
  log_p (forward_sweep d blank it sched)
  = logsumexp (map (path_score (it_lp it) (it_labels it) blank 0 0)
                   (alignments (it_T it) (it_U it))).
Proof.
  intros Hv Hl Hd.
  pose proof (forward_log_p_late d blank it Hv sched Hl) as E.
  split; [exact E|]. rewrite E.
  pose proof (backward_sweep_completes d blank it Hv []) as Hb.
  destruct (forward_backward_tables_agree d blank it Hv _ _ Hd Hb)
    as [E1 E2].
  rewrite E1, E2. reflexivity.
Qed.

Lemma forward_log_p_correct_when_stored_late_witness :
  log_p (forward_sweep doc_dims 0 (doc_item uniform5)
           (sch_forward doc_schedule))
  = logsumexp (map (path_score uniform5 [1; 2] 0 0 0) (alignments 2 2)).
Proof.
  apply (forward_log_p_correct_when_stored_late doc_dims 0
           (doc_item uniform5) (sch_forward doc_schedule)
           (doc_valid uniform5)).
  - exists [0; 0; 1; 1; 2; 2], [1; 2].
    split; [reflexivity|]. split; vm_compute; reflexivity.
  - vm_compute. reflexivity.
Defined.

Lemma forward_backward_loglik_witness :
  (tab (forward_sweep doc_dims 0 (doc_item uniform5)
          (sch_forward doc_schedule)) (2 - 1) 2
   + uniform5 (2 - 1) 2 0)%R
  = log_p (backward_sweep doc_dims 0 (doc_item uniform5)
             (sch_backward doc_schedule)).
Proof.
  destruct (doc_done uniform5 0) as (Hf & Hb & _).
  exact (proj1 (forward_backward_loglik doc_dims 0 (doc_item uniform5)
                  (sch_forward doc_schedule) (sch_backward doc_schedule)
                  (doc_valid uniform5) Hf Hb)).
Defined.

(** ** What the tables mean *)

(** In every schedule that finishes the forward kernel, [alpha[t, u]] is
    the log of the probability mass of all monotonic paths from [(0, 0)]
    to [(t, u)]: the table does not depend on the schedule. *)
Theorem alpha_is_log_prefix_mass d blank it sched (t u : nat) :
  valid_item d it ->
  sweep_done (maxU d) (forward_sweep d blank it sched) = true ->
  Z.of_nat t < it_T it -> Z.of_nat u <= it_U it ->
  tab (forward_sweep d blank it sched) (Z.of_nat t) (Z.of_nat u)
  = ln (path_sum (it_lp it) (it_labels it) blank 0 0 t u).
Proof.
  intros Hv Hd Ht Hu.
  pose proof (valid_T d it Hv). pose proof (valid_U d it Hv).
  assert (Hc : forall t u, 0 <= t < it_T it -> 0 <= u <= it_U it ->
            alpha_cell_ok (it_lp it) (it_labels it) blank
              (tab (forward_sweep d blank it sched)) t u).
  { apply (fwd_done_cells _ _ _ _ _ (maxU d)); try assumption.
    now apply forward_sweep_inv. }
  rewrite <- (alpha_path_sum (it_lp it) (it_labels it) (it_T it) (it_U it)
                blank ltac:(lia) ltac:(lia) _ Hc t u Ht Hu).
  symmetry. apply ln_exp.
Qed.

Lemma alpha_is_log_prefix_mass_witness :
  tab (forward_sweep doc_dims 0 (doc_item uniform5)
         (sch_forward doc_schedule)) 1 2
  = ln (path_sum uniform5 [1; 2] 0 0 0 1 2).
Proof.
  apply (alpha_is_log_prefix_mass doc_dims 0 (doc_item uniform5)
           (sch_forward doc_schedule) 1 2 (doc_valid uniform5));
    try (vm_compute; reflexivity); simpl; lia.
Defined.

(** In every schedule that finishes the backward kernel, [beta[t, u]] is
    the log of the probability mass of all monotonic paths from [(t, u)]
    to [(T-1, U)], closing blank included. *)
Theorem beta_is_log_suffix_mass d blank it sched (t u : Z) :
  valid_item d it ->
  sweep_done (maxU d) (backward_sweep d blank it sched) = true ->
  0 <= t < it_T it -> 0 <= u <= it_U it ->
  tab (backward_sweep d blank it sched) t u
  = ln (path_sum (it_lp it) (it_labels it) blank t u
          (Z.to_nat (it_T it - 1 - t)) (Z.to_nat (it_U it - u))
        * pblank (it_lp it) blank (it_T it - 1) (it_U it)).
Proof.
  intros Hv Hd Ht Hu.
  pose proof (valid_T d it Hv). pose proof (valid_U d it Hv).
  assert (Hc : forall t u, 0 <= t < it_T it -> 0 <= u <= it_U it ->
            beta_cell_ok (it_lp it) (it_labels it) (it_T it) (it_U it) blank
              (tab (backward_sweep d blank it sched)) t u).
  { apply (bwd_done_cells _ _ _ _ _ (maxU d)); try assumption.
    now apply backward_sweep_inv. }
  rewrite <- (beta_path_sum (it_lp it) (it_labels it) (it_T it) (it_U it)
                blank _ Hc
                (Z.to_nat (it_T it - 1 - t)) (Z.to_nat (it_U it - u)) t u)
    by lia.
  symmetry. apply ln_exp.
Qed.

Lemma beta_is_log_suffix_mass_witness :
  tab (backward_sweep doc_dims 0 (doc_item uniform5)
         (sch_backward doc_schedule)) 0 0
  = ln (path_sum uniform5 [1; 2] 0 0 0 (Z.to_nat (2 - 1 - 0)) (Z.to_nat (2 - 0))
        * pblank uniform5 0 (2 - 1) 2).
Proof.
  apply (beta_is_log_suffix_mass doc_dims 0 (doc_item uniform5)
           (sch_backward doc_schedule) 0 0 (doc_valid uniform5));
    try (vm_compute; reflexivity); simpl; lia.
Defined.

(** The log-likelihood that the backward sweep stores is the log-sum-exp
    of the log-probabilities of all alignments of the block, whatever
    [T] and [U]; the forward log-likelihood of the final [alpha] table is
    the same number. *)
Theorem loglik_is_log_sum_over_alignments d blank it sf sb :
  valid_item d it ->
  sweep_done (maxU d) (forward_sweep d blank it sf) = true ->
  sweep_done (maxU d) (backward_sweep d blank it sb) = true ->
  log_p (backward_sweep d blank it sb)
  = logsumexp (map (path_score (it_lp it) (it_labels it) blank 0 0)
                   (alignments (it_T it) (it_U it))) /\
  (tab (forward_sweep d blank it sf) (it_T it - 1) (it_U it)
   + it_lp it (it_T it - 1) (it_U it) blank)%R
  = logsumexp (map (path_score (it_lp it) (it_labels it) blank 0 0)
                   (alignments (it_T it) (it_U it))).
Proof.
  intros Hv Hf Hb.
  destruct (forward_backward_tables_agree d blank it Hv sf sb Hf Hb)
    as [E1 E2].
  rewrite backward_log_p by assumption.
  unfold brute_force_loglik in E2. split; congruence.
Qed.

Lemma loglik_is_log_sum_over_alignments_witness :
  log_p (backward_sweep doc_dims 0 (doc_item uniform5)
           (sch_backward doc_schedule))
  = logsumexp (map (path_score uniform5 [1; 2] 0 0 0) (alignments 2 2)).
Proof.
  destruct (doc_done uniform5 0) as (Hf & Hb & _).
  exact (proj1 (loglik_is_log_sum_over_alignments doc_dims 0
                  (doc_item uniform5)
                  (sch_forward doc_schedule) (sch_backward doc_schedule)
                  (doc_valid uniform5) Hf Hb)).
Defined.

(** ** The gradient lattice *)

Lemma block_run_some d blank it sc :
  sweep_done (maxU d) (forward_sweep d blank it (sch_forward sc)) = true ->
  sweep_done (maxU d) (backward_sweep d blank it (sch_backward sc)) = true ->
  runs_once (maxT d) (sch_grad sc) = true ->
  block_run d blank it sc
  = Some (log_p (forward_sweep d blank it (sch_forward sc)),
          log_p (backward_sweep d blank it (sch_backward sc)),
          grad_sweep d blank it
            (tab (forward_sweep d blank it (sch_forward sc)))
            (tab (backward_sweep d blank it (sch_backward sc)))
            (sch_grad sc)).
Proof. intros Hf Hb Hg. unfold block_run. now rewrite Hf, Hb, Hg. Qed.

Lemma doc_block_run lp blank :
  block_run doc_dims blank (doc_item lp) doc_schedule
  = Some (log_p (forward_sweep doc_dims blank (doc_item lp)
                   (sch_forward doc_schedule)),
          log_p (backward_sweep doc_dims blank (doc_item lp)
                   (sch_backward doc_schedule)),
          grad_sweep doc_dims blank (doc_item lp)
            (tab (forward_sweep doc_dims blank (doc_item lp)
                    (sch_forward doc_schedule)))
            (tab (backward_sweep doc_dims blank (doc_item lp)
                    (sch_backward doc_schedule)))
            (sch_grad doc_schedule)).
Proof.
  destruct (doc_done lp blank) as (Hf & Hb & Hg).
  now apply block_run_some.
Qed.

(** The gradient of the closing blank transition is exactly [-1]: every
    alignment ends with it. *)
Theorem terminal_gradient_is_minus_one d blank it sc r :
  valid_item d it ->
  block_run d blank it sc = Some r ->
  snd r (it_T it - 1) (it_U it) blank = (-1)%R.
Proof.
  intros Hv Hr.
  destruct (block_run_inv _ _ _ _ _ Hr) as (Hf & Hb & Hs & ->).
  cbn [snd]. destruct Hv as [HT HU].
  rewrite (grad_sweep_written d blank it _ _ _ Hs 0) by
    (try lia; unfold writes, emit_cell, blank_cell, term_cell;
     zsplit; reflexivity).
  unfold grad_spec, emit_cell, blank_cell, term_cell, term_grad.
  destruct (forward_backward_tables_agree d blank it (conj HT HU) _ _ Hf Hb)
    as [E _].
  zsplit; rewrite E, Rminus_diag, exp_0; reflexivity.
Qed.

Lemma terminal_gradient_is_minus_one_witness :
  grad_sweep doc_dims 0 (doc_item uniform5)
    (tab (forward_sweep doc_dims 0 (doc_item uniform5)
            (sch_forward doc_schedule)))
    (tab (backward_sweep doc_dims 0 (doc_item uniform5)
            (sch_backward doc_schedule)))
    (sch_grad doc_schedule) (2 - 1) 2 0 = (-1)%R.
Proof.
  exact (terminal_gradient_is_minus_one doc_dims 0 (doc_item uniform5)
           doc_schedule _ (doc_valid uniform5) (doc_block_run uniform5 0)).
Defined.

Lemma grad_spec_nonpositive lp labels T U blank alpha beta t u k :
  (grad_spec lp labels T U blank alpha beta t u k <= 0)%R.
Proof.
  unfold grad_spec, emit_grad, blank_grad, term_grad.
  destruct (emit_cell _ _ _ _ _ _); [|destruct (blank_cell _ _ _ _ _ _);
    [|destruct (term_cell _ _ _ _ _ _)]];
    try (match goal with |- (- exp ?x <= 0)%R => pose proof (exp_pos x) end);
    lra.
Qed.

(** No cell of the gradient lattice is positive. *)
Theorem gradient_nonpositive d blank it sc r :
  block_run d blank it sc = Some r ->
  forall t u k, (snd r t u k <= 0)%R.
Proof.
  intros Hr t u k.
  destruct (block_run_inv _ _ _ _ _ Hr) as (_ & _ & _ & ->). cbn [snd].
  destruct (grad_sweep_cases d blank it
              (tab (forward_sweep d blank it (sch_forward sc)))
              (tab (backward_sweep d blank it (sch_backward sc)))
              (sch_grad sc) t u k) as [-> | ->].
  - apply grad_spec_nonpositive.
  - lra.
Qed.

Lemma gradient_nonpositive_witness :
  (grad_sweep doc_dims 0 (doc_item uniform5)
     (tab (forward_sweep doc_dims 0 (doc_item uniform5)
             (sch_forward doc_schedule)))
     (tab (backward_sweep doc_dims 0 (doc_item uniform5)
             (sch_backward doc_schedule)))
     (sch_grad doc_schedule) 0 1 2 <= 0)%R.
Proof.
  exact (gradient_nonpositive doc_dims 0 (doc_item uniform5) doc_schedule _
           (doc_block_run uniform5 0) 0 1 2).
Defined.

(** Outside the rectangle [0 .. T-1] x [0 .. U] of the batch element (the
    padding of a shorter utterance or target) the gradient is zero. *)
Theorem gradient_zero_in_padding d blank it sc r :
  valid_item d it ->
  block_run d blank it sc = Some r ->
  forall t u k,
    ~ (0 <= t < it_T it /\ 0 <= u <= it_U it) -> snd r t u k = 0%R.
Proof.
  intros [HT HU] Hr t u k Hout.
  destruct (block_run_inv _ _ _ _ _ Hr) as (_ & _ & _ & ->). cbn [snd].
  destruct (grad_sweep_cases d blank it
              (tab (forward_sweep d blank it (sch_forward sc)))
              (tab (backward_sweep d blank it (sch_backward sc)))
              (sch_grad sc) t u k) as [-> | ->]; [|reflexivity].
  unfold grad_spec, emit_cell, blank_cell, term_cell.
  zsplit; try reflexivity; exfalso; apply Hout; lia.
Qed.

Lemma gradient_zero_in_padding_witness :
  grad_sweep doc_dims 0 (mk_item uniform5 [1; 0] 1 1)
    (tab (forward_sweep doc_dims 0 (mk_item uniform5 [1; 0] 1 1)
            [0; 1; 1; 0; 2]))
    (tab (backward_sweep doc_dims 0 (mk_item uniform5 [1; 0] 1 1)
            [1; 1; 0; 0; 2]))
    [0; 1] 1 0 0 = 0%R.
Proof.
  assert (Hr : block_run doc_dims 0 (mk_item uniform5 [1; 0] 1 1)
                 (mk_schedule [0; 1; 1; 0; 2] [1; 1; 0; 0; 2] [0; 1])
               = Some _)
    by (apply block_run_some; vm_compute; reflexivity).
  apply (gradient_zero_in_padding doc_dims 0 (mk_item uniform5 [1; 0] 1 1)
           _ _ ltac:(unfold valid_item; simpl; lia) Hr 1 0 0).
  simpl. lia.
Defined.

(** The gradient kernel has no synchronisation and needs none: its
    lattice does not depend on the order in which its threads run. *)
Theorem gradient_order_independent d blank it alpha beta s1 s2 :
  runs_once (maxT d) s1 = true -> runs_once (maxT d) s2 = true ->
  forall t u k,
    grad_sweep d blank it alpha beta s1 t u k
    = grad_sweep d blank it alpha beta s2 t u k.
Proof.
  intros H1 H2 t u k. unfold grad_sweep. rewrite !grad_run_cell.
  assert (E : forall s s', runs_once (maxT d) s = true ->
            runs_once (maxT d) s' = true ->
            forall f, existsb (fun x => (0 <=? x) && (x <? maxT d) && f x) s
                      = true ->
                      existsb (fun x => (0 <=? x) && (x <? maxT d) && f x) s'
                      = true).
  { intros s s' Hs Hs' f He. apply existsb_exists in He as (x & _ & Hx).
    apply existsb_exists. exists x. split; [|exact Hx].
    apply (runs_once_In (maxT d)); [assumption|].
    apply andb_true_iff in Hx as [Hx _].
    apply andb_true_iff in Hx as [Hx1 Hx2]. lia. }
  match goal with
  | |- (if existsb ?f s1 then _ else _) = _ =>
      destruct (existsb f s1) eqn:E1; destruct (existsb f s2) eqn:E2;
        try reflexivity
  end.
  - rewrite (E s1 s2 H1 H2 _ E1) in E2. discriminate.
  - rewrite (E s2 s1 H2 H1 _ E2) in E1. discriminate.
Qed.

Lemma gradient_order_independent_witness :
  grad_sweep doc_dims 0 (doc_item uniform5) zeros2 zeros2 [0; 1] 0 1 2
  = grad_sweep doc_dims 0 (doc_item uniform5) zeros2 zeros2 [1; 0] 0 1 2.
Proof.
  apply (gradient_order_independent doc_dims 0 (doc_item uniform5)
           zeros2 zeros2 [0; 1] [1; 0]); vm_compute; reflexivity.
Defined.

(** ** Doorbell counters *)

Lemma fwd_step_oob lp labels T U blank maxU s u :
  0 <= U < maxU -> 2 <= maxU ->
  fwd_inv lp labels T U blank maxU s -> 0 <= u < maxU ->
  oob (cu_kernel_forward lp labels T U blank u s) = oob s.
Proof.
  intros HU H2 I Hu. unfold cu_kernel_forward.
  pose proof (fi_len _ _ _ _ _ _ _ I) as Hlen.
  destruct (returned s u); [reflexivity|].
  destruct (Z.leb_spec u U); [|reflexivity].
  destruct (Z.ltb_spec (loc_t s u) T);
    [|destruct (u =? 0); reflexivity].
  destruct (Z.eqb_spec u 0) as [->|Hu0].
  - cbn [oob set_t]. rewrite oob_signal by lia.
    replace (in_row _ (0 + 1)) with true; [destruct (loc_t s 0 =? 0); reflexivity|].
    symmetry. apply in_row_true.
    destruct (loc_t s 0 =? 0); cbn [lock set_tab]; lia.
  - rewrite atomic_add_poll by (apply in_row_true; lia).
    assert (Es : set_lock (lock s) s = s) by (destruct s; reflexivity).
    rewrite Es. destruct (row_at (lock s) u <? 0); [|reflexivity].
    cbn [oob set_t]. rewrite oob_signal by lia.
    set (s1 := if loc_t s u =? 0 then _ else _).
    assert (L1 : lock s1 = lock s /\ oob s1 = oob s)
      by (subst s1; destruct (loc_t s u =? 0); split; reflexivity).
    destruct L1 as [L1 O1].
    set (s2 := if u <? U then signal (u + 1) (-1) s1 else s1).
    assert (L2 : length (lock s2) = length (lock s) /\ oob s2 = oob s).
    { subst s2. destruct (Z.ltb_spec u U).
      - rewrite length_lock_signal, oob_signal, L1, O1 by lia.
        rewrite (proj2 (in_row_true _ _)) by lia. split; reflexivity.
      - rewrite L1, O1. split; reflexivity. }
    destruct L2 as [L2 O2].
    rewrite (proj2 (in_row_true _ _)) by lia. exact O2.
Qed.

Lemma bwd_step_oob lp labels T U blank maxU s u :
  0 <= U < maxU -> 1 <= U ->
  bwd_inv lp labels T U blank maxU s -> 0 <= u < maxU ->
  oob (cu_kernel_backward lp labels T U blank u s) = oob s.
Proof.
  intros HU H1 I Hu. unfold cu_kernel_backward.
  pose proof (bi_len _ _ _ _ _ _ _ I) as Hlen.
  destruct (returned s u); [reflexivity|].
  destruct (Z.leb_spec u U); cbn [andb];
    [|destruct (u =? 0); reflexivity].
  destruct (Z.leb_spec 0 (loc_t s u));
    [|destruct (u =? 0); reflexivity].
  destruct (Z.eqb_spec u U) as [->|HuU].
  - cbn [oob set_t]. rewrite oob_signal by lia.
    replace (in_row _ (U - 1)) with true;
      [destruct (loc_t s U =? T - 1); reflexivity|].
    symmetry. apply in_row_true.
    destruct (loc_t s U =? T - 1); cbn [lock set_tab]; lia.
  - rewrite atomic_add_poll by (apply in_row_true; lia).
    assert (Es : set_lock (lock s) s = s) by (destruct s; reflexivity).
    rewrite Es. destruct (row_at (lock s) u <? 0); [|reflexivity].
    cbn [oob set_t]. rewrite oob_signal by lia.
    set (s1 := if loc_t s u =? T - 1 then _ else _).
    assert (L1 : lock s1 = lock s /\ oob s1 = oob s)
      by (subst s1; destruct (loc_t s u =? T - 1); split; reflexivity).
    destruct L1 as [L1 O1].
    set (s2 := if 0 <? u then signal (u - 1) (-1) s1 else s1).
    assert (L2 : length (lock s2) = length (lock s) /\ oob s2 = oob s).
    { subst s2. destruct (Z.ltb_spec 0 u).
      - rewrite length_lock_signal, oob_signal, L1, O1 by lia.
        rewrite (proj2 (in_row_true _ _)) by lia. split; reflexivity.
      - rewrite L1, O1. split; reflexivity. }
    destruct L2 as [L2 O2].
    rewrite (proj2 (in_row_true _ _)) by lia. exact O2.
Qed.

(** With at least two label positions ([maxU >= 2]) no step of the
    forward sweep ever touches a counter outside the row [lock[b]], in
    any schedule. *)
Theorem forward_counter_updates_stay_in_row d blank it sched :
  valid_item d it -> 2 <= maxU d ->
  oob (forward_sweep d blank it sched) = [].
Proof.
  intros Hv H2. pose proof (valid_T d it Hv). pose proof (valid_U d it Hv).
  unfold forward_sweep.
  apply (sweep_run_ind
           (fun s => fwd_inv (it_lp it) (it_labels it) (it_T it) (it_U it)
                       blank (maxU d) s /\ oob s = [])).
  - intros u s Hu [I Ho]. split.
    + now apply fwd_inv_step.
    + rewrite fwd_step_oob with (maxU := maxU d); assumption.
  - split; [now apply fwd_inv_init|reflexivity].
Qed.

Lemma forward_counter_updates_stay_in_row_witness :
  oob (forward_sweep doc_dims 0 (doc_item uniform5) [0; 1; 2; 0; 1; 1; 0]) = [].
Proof.
  apply (forward_counter_updates_stay_in_row doc_dims 0 (doc_item uniform5)
           [0; 1; 2; 0; 1; 1; 0] (doc_valid uniform5)).
  simpl. lia.
Defined.

(** With a target that is not empty ([U[b] >= 1]) no step of the backward
    sweep ever touches a counter outside the row, in any schedule. *)
Theorem backward_counter_updates_stay_in_row d blank it sched :
  valid_item d it -> 1 <= it_U it ->
  oob (backward_sweep d blank it sched) = [].
Proof.
  intros Hv H1. pose proof (valid_T d it Hv). pose proof (valid_U d it Hv).
  unfold backward_sweep.
  apply (sweep_run_ind
           (fun s => bwd_inv (it_lp it) (it_labels it) (it_T it) (it_U it)
                       blank (maxU d) s /\ oob s = [])).
  - intros u s Hu [I Ho]. split.
    + now apply bwd_inv_step.
    + rewrite bwd_step_oob with (maxU := maxU d); assumption.
  - split; [now apply bwd_inv_init|reflexivity].
Qed.

Lemma backward_counter_updates_stay_in_row_witness :
  oob (backward_sweep doc_dims 0 (doc_item uniform5) [2; 1; 0; 2; 1; 1; 0]) = [].
Proof.
  apply (backward_counter_updates_stay_in_row doc_dims 0 (doc_item uniform5)
           [2; 1; 0; 2; 1; 1; 0] (doc_valid uniform5)).
  simpl. lia.
Defined.

(** The counters work as semaphores: in every state of the forward sweep
    counter [u] of a waiting thread ([1 <= u <= U]) is minus the number of
    rows published by thread [u-1] and not yet consumed, between [-T] and
    0, and 0 again when the kernel is over; the same for the counters
    [0 <= u < U] of the backward sweep. *)
Theorem doorbell_counters_balanced d blank it sched u :
  valid_item d it ->
  (1 <= u <= it_U it ->
   let s := forward_sweep d blank it sched in
   row_at (lock s) u = loc_t s u - loc_t s (u - 1) /\
   - it_T it <= row_at (lock s) u <= 0 /\
   (sweep_done (maxU d) s = true -> row_at (lock s) u = 0)) /\
  (0 <= u < it_U it ->
   let s := backward_sweep d blank it sched in
   row_at (lock s) u = loc_t s (u + 1) - loc_t s u /\
   - it_T it <= row_at (lock s) u <= 0 /\
   (sweep_done (maxU d) s = true -> row_at (lock s) u = 0)).
Proof.
  intros Hv. pose proof (valid_U d it Hv) as HU. split.
  - intros Hu s.
    pose proof (forward_sweep_inv d blank it Hv sched) as I. fold s in I.
    pose proof (fi_lock _ _ _ _ _ _ _ I u Hu) as El.
    pose proof (fi_ord _ _ _ _ _ _ _ I u Hu).
    pose proof (fi_t _ _ _ _ _ _ _ I u ltac:(lia)).
    pose proof (fi_t _ _ _ _ _ _ _ I (u - 1) ltac:(lia)).
    split; [exact El|]. split; [lia|].
    intros Hd. rewrite El.
    rewrite (fi_ret _ _ _ _ _ _ _ I u), (fi_ret _ _ _ _ _ _ _ I (u - 1));
      try lia; apply (proj1 (sweep_done_iff _ _) Hd); lia.
  - intros Hu s.
    pose proof (backward_sweep_inv d blank it Hv sched) as I. fold s in I.
    pose proof (bi_lock _ _ _ _ _ _ _ I u Hu) as El.
    pose proof (bi_ord _ _ _ _ _ _ _ I u Hu).
    pose proof (bi_t _ _ _ _ _ _ _ I u ltac:(lia)).
    pose proof (bi_t _ _ _ _ _ _ _ I (u + 1) ltac:(lia)).
    split; [exact El|]. split; [lia|].
    intros Hd. rewrite El.
    rewrite (bi_ret _ _ _ _ _ _ _ I u), (bi_ret _ _ _ _ _ _ _ I (u + 1));
      try lia; apply (proj1 (sweep_done_iff _ _) Hd); lia.
Qed.

Lemma doorbell_counters_balanced_witness :
  row_at (lock (forward_sweep doc_dims 0 (doc_item uniform5) [0; 0; 1])) 1
  = loc_t (forward_sweep doc_dims 0 (doc_item uniform5) [0; 0; 1]) 1
    - loc_t (forward_sweep doc_dims 0 (doc_item uniform5) [0; 0; 1]) (1 - 1).
Proof.
  destruct (doorbell_counters_balanced doc_dims 0 (doc_item uniform5)
              [0; 0; 1] 1 (doc_valid uniform5)) as [Hf _].
  apply Hf. simpl. lia.
Defined.

(** ** Targets without labels *)

Lemma fwd_return_split lp labels T U blank maxU sched : forall s,
  returned s 0 = false ->
  returned (sweep_run (cu_kernel_forward lp labels T U blank) maxU sched s) 0
  = true ->
  exists pre post,
    sched = pre ++ 0 :: post /\ 0 < maxU /\
    returned (sweep_run (cu_kernel_forward lp labels T U blank) maxU pre s) 0
    = false /\
    returned (cu_kernel_forward lp labels T U blank 0
                (sweep_run (cu_kernel_forward lp labels T U blank) maxU pre s)) 0
    = true.
Proof.
  induction sched as [|v l IH]; intros s Hs Hr.
  - simpl in Hr. congruence.
  - destruct (Z.leb_spec 0 v), (Z.ltb_spec v maxU).
    2-4: rewrite sweep_run_skip in Hr by lia;
      destruct (IH s Hs Hr) as (pre & post & -> & Hm & H1 & H2);
      exists (v :: pre), post;
      rewrite sweep_run_skip by lia; auto.
    rewrite sweep_run_cons in Hr by lia.
    destruct (returned (cu_kernel_forward lp labels T U blank v s) 0) eqn:E.
    + destruct (Z.eq_dec v 0) as [->|Hv].
      * exists [], l. simpl. repeat split; auto.
      * destruct (fwd_step_frame lp labels T U blank v s 0 ltac:(lia))
          as [E' _]. congruence.
    + destruct (IH _ E Hr) as (pre & post & -> & Hm & H1 & H2).
      exists (v :: pre), post. rewrite sweep_run_cons by lia. auto.
Qed.

Lemma forward_return_is_late d blank it sched :
  valid_item d it -> it_U it = 0 ->
  sweep_done (maxU d) (forward_sweep d blank it sched) = true ->
  publishes_late d blank it sched.
Proof.
  intros Hv HU0 Hd.
  pose proof (valid_T d it Hv) as HT. pose proof (valid_U d it Hv) as HU.
  unfold forward_sweep in Hd.
  destruct (fwd_return_split (it_lp it) (it_labels it) (it_T it) (it_U it)
              blank (maxU d) sched (sweep_init (maxU d) 0) eq_refl)
    as (pre & post & -> & Hm & H1 & H2).
  { apply (proj1 (sweep_done_iff _ _) Hd). lia. }
  exists pre, post. split; [reflexivity|]. unfold forward_sweep.
  split; [exact H1|].
  set (s1 := sweep_run _ (maxU d) pre _) in *.
  assert (I : fwd_inv (it_lp it) (it_labels it) (it_T it) (it_U it) blank
                (maxU d) s1).
  { subst s1. apply fwd_inv_run; [assumption|].
    now apply fwd_inv_init. }
  pose proof (fi_t _ _ _ _ _ _ _ I 0 ltac:(lia)) as It.
  rewrite HU0.
  destruct (Z.ltb_spec (loc_t s1 0) (it_T it)) as [Hlt|Hge]; [|lia].
  destruct (fwd_step_advance (it_lp it) (it_labels it) (it_T it) (it_U it)
              blank (maxU d) HU 0 s1 I ltac:(lia) H1 Hlt ltac:(lia))
    as [_ E].
  congruence.
Qed.

(** With an empty target ([U[b] = 0]) thread 0 of the forward sweep is
    itself the thread of the last column: whatever the schedule, it
    stores the forward log-likelihood of the final table. *)
Theorem forward_log_p_exact_without_labels d blank it sched :
  valid_item d it -> it_U it = 0 ->
  sweep_done (maxU d) (forward_sweep d blank it sched) = true ->
  log_p (forward_sweep d blank it sched)
  = (tab (forward_sweep d blank it sched) (it_T it - 1) 0
     + it_lp it (it_T it - 1) 0 blank)%R.
Proof.
  intros Hv HU0 Hd.
  rewrite (forward_log_p_late d blank it Hv sched); [now rewrite HU0|].
  now apply forward_return_is_late.
Qed.

Lemma forward_log_p_exact_without_labels_witness :
  log_p (forward_sweep small_dims 0 (blank_only_item uniform5)
           (sch_forward blank_only_schedule))
  = (tab (forward_sweep small_dims 0 (blank_only_item uniform5)
            (sch_forward blank_only_schedule)) (1 - 1) 0
     + uniform5 (1 - 1) 0 0)%R.
Proof.
  apply (forward_log_p_exact_without_labels small_dims 0
           (blank_only_item uniform5) (sch_forward blank_only_schedule)).
  - unfold valid_item. simpl. lia.
  - reflexivity.
  - vm_compute. reflexivity.
Defined.

(** The degenerate case of one time step and an empty target: for a batch
    of one element the loss is [- log_probs[0, 0, 0, blank]], in every
    finished execution. *)
Theorem single_step_empty_target_loss d sc lp labels blank reduction res :
  1 <= maxT d -> 1 <= maxU d ->
  Transducer_forward d [sc] [mk_item lp labels 1 0] blank reduction = Some res ->
  output res = reduce reduction [Ropp (lp 0 0 blank)] /\
  (reduction = "mean"%string ->
   output res = Return (Scalar (Ropp (lp 0 0 blank)))).
Proof.
  intros HmT HmU Hrun.
  assert (Hv : valid_item d (mk_item lp labels 1 0))
    by (unfold valid_item; simpl; lia).
  destruct (Transducer_forward_inv _ _ _ _ _ _ Hrun)
    as (_ & rs & Hlen & Hnth & _ & _ & Hout).
  specialize (Hnth 0%nat ltac:(simpl; lia)). cbn [nth] in Hnth.
  destruct (block_run_inv _ _ _ _ _ Hnth) as (Hf & _ & _ & _).
  assert (Hl : publishes_late d blank (mk_item lp labels 1 0) (sch_forward sc))
    by (now apply forward_return_is_late).
  destruct (single_loss d sc (mk_item lp labels 1 0) blank reduction res
              Hv Hl Hrun) as (Ho & Hmean & _).
  cbn [it_lp it_labels it_T it_U] in Ho, Hmean.
  assert (Eb : brute_force_loglik lp labels 1 0 blank = lp 0 0 blank).
  { unfold brute_force_loglik, logsumexp, mass, alignments.
    cbn [Z.sub Z.add Z.opp Z.pos_sub Z.to_nat interleavings repeat map app
         path_score fold_right].
    rewrite !Rplus_0_r. apply ln_exp. }
  rewrite Eb in Ho, Hmean. split; [exact Ho|].
  intros ->. rewrite Ho. exact Hmean.
Qed.

Lemma single_step_empty_target_loss_witness :
  exists res,
    Transducer_forward small_dims [blank_only_schedule]
      [blank_only_item uniform5] 0 "mean" = Some res /\
    output res = Return (Scalar (- uniform5 0 0 0)%R).
Proof.
  assert (Hrun : Transducer_forward small_dims [blank_only_schedule]
                   [blank_only_item uniform5] 0 "mean" = Some _)
    by (apply Transducer_forward_single; vm_compute; reflexivity).
  eexists. split; [exact Hrun|].
  apply (single_step_empty_target_loss small_dims _ uniform5 [0] 0 "mean" _
           ltac:(simpl; lia) ltac:(simpl; lia) Hrun).
  reflexivity.
Defined.

(** ** Sign of the log-likelihood *)

Lemma exp_le_1 x : (x <= 0)%R -> (exp x <= 1)%R.
Proof.
  intros [H | ->]; [|rewrite exp_0; lra].
  pose proof (exp_increasing _ _ H) as E. rewrite exp_0 in E. lra.
Qed.

Lemma beta_exp_le_1 lp labels T U blank (b : table) :
  (forall t u, 0 <= t < T -> 0 <= u <= U ->
     beta_cell_ok lp labels T U blank b t u) ->
  (forall t u, 0 <= t < T -> 0 <= u < U ->
     (exp (lp t u blank) + exp (lp t u (label_at labels u)) <= 1)%R) ->
  (forall t, 0 <= t < T -> (lp t U blank <= 0)%R) ->
  forall dt du t u,
    0 <= t -> 0 <= u ->
    t + Z.of_nat dt = T - 1 -> u + Z.of_nat du = U ->
    (exp (b t u) <= 1)%R.
Proof.
  intros Hcells Hnorm Hblank.
  induction dt as [|dt IHdt]; induction du as [|du IHdu];
    intros t u Ht Hu Hdt Hdu;
    rewrite (Hcells t u ltac:(lia) ltac:(lia)); unfold beta_rhs.
  - destruct (Z.eqb_spec u U) as [->|]; [|lia].
    destruct (Z.eqb_spec t (T - 1)); [|lia].
    apply exp_le_1, Hblank. lia.
  - destruct (Z.eqb_spec u U); [lia|].
    destruct (Z.eqb_spec t (T - 1)); [|lia].
    rewrite exp_plus.
    pose proof (IHdu t (u + 1) ltac:(lia) ltac:(lia) ltac:(lia) ltac:(lia)).
    pose proof (Hnorm t u ltac:(lia) ltac:(lia)).
    pose proof (exp_pos (b t (u + 1))). pose proof (exp_pos (lp t u blank)).
    pose proof (exp_pos (lp t u (label_at labels u))). nra.
  - destruct (Z.eqb_spec u U) as [->|]; [|lia].
    destruct (Z.eqb_spec t (T - 1)); [lia|].
    rewrite exp_plus.
    pose proof (IHdt O (t + 1) U ltac:(lia) ltac:(lia) ltac:(lia) ltac:(lia)).
    pose proof (exp_le_1 _ (Hblank t ltac:(lia))).
    pose proof (exp_pos (b (t + 1) U)). pose proof (exp_pos (lp t U blank)).
    nra.
  - destruct (Z.eqb_spec u U); [lia|].
    destruct (Z.eqb_spec t (T - 1)); [lia|].
    rewrite exp_logaddexp, !exp_plus.
    pose proof (IHdt (S du) (t + 1) u ltac:(lia) ltac:(lia) ltac:(lia)
                  ltac:(lia)).
    pose proof (IHdu t (u + 1) ltac:(lia) ltac:(lia) ltac:(lia) ltac:(lia)).
    pose proof (Hnorm t u ltac:(lia) ltac:(lia)).
    pose proof (exp_pos (b (t + 1) u)). pose proof (exp_pos (b t (u + 1))).
    pose proof (exp_pos (lp t u blank)).
    pose proof (exp_pos (lp t u (label_at labels u))). nra.
Qed.

(** When the blank and the target label of every cell are events of one
    probability distribution (their probabilities add up to at most 1),
    the log-likelihood that the backward sweep stores is at most 0: the
    loss of the batch element is not negative. *)
Theorem loglik_nonpositive d blank it sb :
  valid_item d it ->
  sweep_done (maxU d) (backward_sweep d blank it sb) = true ->
  (forall t u, 0 <= t < it_T it -> 0 <= u < it_U it ->
     (exp (it_lp it t u blank)
      + exp (it_lp it t u (label_at (it_labels it) u)) <= 1)%R) ->
  (forall t, 0 <= t < it_T it -> (it_lp it t (it_U it) blank <= 0)%R) ->
  (log_p (backward_sweep d blank it sb) <= 0)%R.
Proof.
  intros Hv Hd Hnorm Hblank.
  pose proof (valid_T d it Hv). pose proof (valid_U d it Hv).
  rewrite backward_log_p by assumption.
  assert (Hc : forall t u, 0 <= t < it_T it -> 0 <= u <= it_U it ->
            beta_cell_ok (it_lp it) (it_labels it) (it_T it) (it_U it) blank
              (tab (backward_sweep d blank it sb)) t u).
  { apply (bwd_done_cells _ _ _ _ _ (maxU d)); try assumption.
    now apply backward_sweep_inv. }
  pose proof (beta_exp_le_1 _ _ _ _ _ _ Hc Hnorm Hblank
                (Z.to_nat (it_T it - 1)) (Z.to_nat (it_U it)) 0 0
                ltac:(lia) ltac:(lia) ltac:(lia) ltac:(lia)) as E.
  destruct (Rle_or_lt (tab (backward_sweep d blank it sb) 0 0) 0) as [|Hpos];
    [assumption|].
  apply exp_increasing in Hpos. rewrite exp_0 in Hpos. lra.
Qed.

Lemma uniform5_prob : exp (- ln 5) = (/ 5)%R.
Proof. rewrite exp_Ropp, exp_ln by lra. reflexivity. Qed.

Lemma loglik_nonpositive_witness :
  (log_p (backward_sweep doc_dims 0 (doc_item uniform5)
            (sch_backward doc_schedule)) <= 0)%R.
Proof.
  apply (loglik_nonpositive doc_dims 0 (doc_item uniform5)
           (sch_backward doc_schedule) (doc_valid uniform5)).
  - vm_compute. reflexivity.
  - intros t u _ _. cbn [doc_item it_lp]. unfold uniform5.
    rewrite uniform5_prob. lra.
  - intros t _. cbn [doc_item it_lp]. unfold uniform5.
    pose proof ln5_pos. lra.
Defined.

(** ** [Transducer.backward] and the heap *)

Lemma length_heap_set (h : heap) a t : length (heap_set h a t) = length h.
Proof.
  revert a; induction h as [|x h IH]; intros [|a]; simpl; auto.
Qed.

Lemma nth_error_heap_set_neq (h : heap) a a' t :
  a' <> a -> nth_error (heap_set h a t) a' = nth_error h a'.
Proof.
  revert a a'; induction h as [|x h IH]; intros [|a] [|a'] H; simpl;
    try congruence; auto.
Qed.

(** [Transducer.backward] changes the object [ctx.grads] and nothing
    else: the heap keeps its objects, and every other object is as
    before. *)
Theorem backward_frame h ctx grad_output h' a :
  Transducer_backward h ctx grad_output = Some (h', a) ->
  length h' = length h /\
  forall a', a' <> ctx_grads ctx -> nth_error h' a' = nth_error h a'.
Proof.
  unfold Transducer_backward.
  destruct (nth_error h (ctx_grads ctx)) as [g|]; [|discriminate].
  destruct (_ || _); [|discriminate].
  intros H. inversion H; subst. split.
  - apply length_heap_set.
  - intros a' Ha. now apply nth_error_heap_set_neq.
Qed.

Lemma backward_frame_witness :
  exists h',
    Transducer_backward [[zeros3]; [fun _ _ _ => 1%R]] (mk_context 1) [2%R]
    = Some (h', 1%nat) /\
    nth_error h' 0 = Some [zeros3].
Proof.
  eexists. split; [reflexivity|].
  apply (proj2 (backward_frame [[zeros3]; [fun _ _ _ => 1%R]] (mk_context 1)
                  [2%R] _ 1%nat eq_refl) 0%nat).
  discriminate.
Defined.

(** With upstream gradient 1 (the call [l.backward()] on the scalar
    loss) the lattice that [Transducer.backward] returns is, cell by
    cell, the one saved by [Transducer.forward]. *)
Theorem backward_unit_gradient h ctx g h' a :
  nth_error h (ctx_grads ctx) = Some g ->
  Transducer_backward h ctx [1%R] = Some (h', a) ->
  exists g',
    nth_error h' a = Some g' /\ length g' = length g /\
    forall (b : nat) t u k, (b < length g)%nat ->
      nth b g' zeros3 t u k = nth b g zeros3 t u k.
Proof.
  intros Hg Hb.
  destruct (Transducer_backward_inv _ _ _ _ _ _ Hg Hb) as (-> & _ & L).
  exists (mul_ g [1%R]). split; [exact L|]. split.
  - apply length_mul_from.
  - intros b t u k Hlt. unfold mul_. rewrite nth_mul_from by assumption.
    cbn [broadcast]. ring.
Qed.

Lemma backward_unit_gradient_witness :
  exists h' g',
    Transducer_backward [[fun _ _ _ => 7%R]] (mk_context 0) [1%R]
    = Some (h', 0%nat) /\
    nth_error h' 0 = Some g' /\
    nth 0 g' zeros3 0 0 0 = 7%R.
Proof.
  eexists.
  destruct (backward_unit_gradient [[fun _ _ _ => 7%R]] (mk_context 0)
              [fun _ _ _ => 7%R] _ 0%nat eq_refl eq_refl)
    as (g' & Hn & _ & Hc).
  exists g'. split; [reflexivity|]. split; [exact Hn|].
  apply (Hc 0%nat 0 0 0 (Nat.lt_0_succ 0)).
Defined.

(** ** A target label equal to the blank id *)

(** When a target label is the blank id, the emit loop of the gradient
    kernel, which runs after the blank loop, overwrites the blank
    gradient of that cell: [grads[t, u, blank]] holds the emit gradient
    (with [beta[t, u + 1]]), not the blank gradient. *)
Theorem emit_gradient_overwrites_blank d blank it sc r t u :
  valid_item d it ->
  block_run d blank it sc = Some r ->
  0 <= t < it_T it -> 0 <= u < it_U it ->
  u < Z.of_nat (length (it_labels it)) ->
  label_at (it_labels it) u = blank ->
  snd r t u blank
  = (- exp (tab (forward_sweep d blank it (sch_forward sc)) t u
            + tab (backward_sweep d blank it (sch_backward sc)) t (u + 1)
            + it_lp it t u blank
            - tab (backward_sweep d blank it (sch_backward sc)) 0 0))%R.
Proof.
  intros [HT HU] Hr Ht Hu Hlen Hlab.
  destruct (block_run_inv _ _ _ _ _ Hr) as (_ & _ & Hs & ->). cbn [snd].
  rewrite (grad_sweep_written d blank it _ _ _ Hs t).
  - unfold grad_spec, emit_cell, emit_grad. rewrite Hlab.
    zsplit; reflexivity.
  - lia.
  - unfold writes, emit_cell. rewrite Hlab. zsplit; reflexivity.
Qed.

Lemma emit_gradient_overwrites_blank_witness :
  grad_sweep doc_dims 0 (blank_label_item uniform5)
    (tab (forward_sweep doc_dims 0 (blank_label_item uniform5)
            (sch_forward doc_schedule)))
    (tab (backward_sweep doc_dims 0 (blank_label_item uniform5)
            (sch_backward doc_schedule)))
    (sch_grad doc_schedule) 0 0 0
  = (- exp (tab (forward_sweep doc_dims 0 (blank_label_item uniform5)
                   (sch_forward doc_schedule)) 0 0
            + tab (backward_sweep doc_dims 0 (blank_label_item uniform5)
                     (sch_backward doc_schedule)) 0 (0 + 1)
            + uniform5 0 0 0
            - tab (backward_sweep doc_dims 0 (blank_label_item uniform5)
                     (sch_backward doc_schedule)) 0 0))%R.
Proof.
  assert (Hr : block_run doc_dims 0 (blank_label_item uniform5) doc_schedule
               = Some _)
    by (apply block_run_some; vm_compute; reflexivity).
  apply (emit_gradient_overwrites_blank doc_dims 0
           (blank_label_item uniform5) doc_schedule _ 0 0
           ltac:(unfold valid_item; simpl; lia) Hr);
    try reflexivity; simpl; lia.
Defined.

(** ** Finished invocations exist *)

Lemma Transducer_forward_total_witness :
  exists res,
    Transducer_forward doc_dims
      (map (default_schedule doc_dims) [doc_item uniform5; doc_item zeros3])
      [doc_item uniform5; doc_item zeros3] 0 "sum" = Some res.
Proof.
  apply (Transducer_forward_total doc_dims
           [doc_item uniform5; doc_item zeros3] 0 "sum").
  intros it [<- | [<- | []]]; apply doc_valid.
Defined.

(** ** The module [TransducerLoss] *)

(** A module built with the default arguments ([blank = 0],
    [reduction = "mean"]) returns a scalar in every finished invocation
    and never raises. The constructor validates nothing: a module with an
    unrecognised reduction is built without error, and it is its
    [forward] that raises, in every finished invocation. *)
Theorem TransducerLoss_reduction_is_checked_in_forward
    blank reduction d scheds batch res :
  TransducerLoss_forward (mk_loss blank reduction) d scheds batch = Some res ->
  TransducerLoss_init Found blank reduction = inr (mk_loss blank reduction) /\
  (blank = 0 -> reduction = "mean"%string ->
   exists loss, output res = Return (Scalar loss)) /\
  (reduction <> "mean"%string -> reduction <> "sum"%string ->
   reduction <> "none"%string ->
   output res = Raise ("Unexpected reduction " ++ reduction)).
Proof.
  unfold TransducerLoss_forward. cbn [self_blank self_reduction].
  intros Hrun. split; [reflexivity|].
  destruct (Transducer_forward_inv _ _ _ _ _ _ Hrun)
    as (_ & rs & _ & _ & _ & _ & Hout).
  rewrite Hout. split.
  - intros _ ->. eexists. reflexivity.
  - intros N1 N2 N3.
    destruct (reduce_cases reduction
                (nll (map (fun r => fst (fst r)) rs)
                     (map (fun r => snd (fst r)) rs)))
      as [[E _]|[[E _]|[[E _]|(_ & _ & _ & ->)]]]; congruence.
Qed.

Lemma TransducerLoss_reduction_is_checked_in_forward_witness :
  exists res,
    TransducerLoss_forward (mk_loss 0 "max") small_dims [late_schedule]
      [small_item uniform5] = Some res /\
    output res = Raise "Unexpected reduction max".
Proof.
  destruct (small_done uniform5 0 late_schedule (or_intror eq_refl))
    as (Hf & Hb & Hg).
  pose proof (Transducer_forward_single small_dims late_schedule
                (small_item uniform5) 0 "max" Hf Hb Hg) as Hrun.
  eexists. split; [exact Hrun|].
  apply (TransducerLoss_reduction_is_checked_in_forward 0 "max" small_dims
           [late_schedule] [small_item uniform5] _ Hrun); discriminate.
Defined.

(** [doctest_numba] guards the doctest of [TransducerLoss]: whenever it
    lets the doctest go on, the constructor succeeds, for any arguments;
    and whenever the constructor raises, the doctest is skipped. *)
Theorem doctest_numba_guards_constructor env blank reduction :
  (doctest_numba env = true ->
   TransducerLoss_init env blank reduction = inr (mk_loss blank reduction)) /\
  (forall e, TransducerLoss_init env blank reduction = inl e ->
   doctest_numba env = false).
Proof.
  destruct env; cbn; split; intros; congruence.
Qed.
